(** * Ayyimullah Shareef API: query layer, token service and auth gate

    A shallow embedding of the query layer of [api/crud.py] over the
    tables of [api/models.py], of the routes of [api/routers/*.py], and of
    the token service, the login routes and the dashboard of [app.py].
    [app.py] also holds a copy of the query layer: the copies that do not
    name [EventDetail] are the functions of [api/crud.py]; the copies that
    do are embedded on their own, in [AppPy].  Python [str] values are
    sequences of Unicode code points; the SQLAlchemy [Session] is a state
    threaded through a small state-and-exception monad; the relational
    store behind it is four tables of rows. *)

From Stdlib Require Import ZArith NArith Ascii String.
From stdpp Require Import base tactics option list numbers countable gmap.

Local Open Scope Z_scope.

(** ** Python strings *)

(** A Python [str] is a sequence of code points. *)
Abbreviation str := (list N) (only parsing).

(** ASCII literals of the source, as code points. *)
Definition lit (s : string) : str := N_of_ascii <$> list_ascii_of_string s.

(** [s.startswith(p)] *)
Fixpoint startswith (s p : str) {struct p} : bool :=
  match p with
  | [] => true
  | c :: p' =>
      match s with
      | [] => false
      | x :: s' => bool_decide (x = c) && startswith s' p'
      end
  end.

(** ** Rows of the four tables ([api/models.py]) *)

Module User.
Record t := mk { id : Z; username : str; hashed_password : str }.
End User.

Module Month.
Record t := mk { id : Z; month_bn : str; month_en : str }.
End Month.

Module Event.
Record t := mk { id : Z; month_id : Z; day : str }.
End Event.

Module EventDetail.
Record t := mk { id : Z; event_id : Z; detail : str }.
End EventDetail.

(** The committed contents of the database, each table in rowid order. *)
Record Store := mkStore {
  users : list User.t;
  months : list Month.t;
  events : list Event.t;
  event_details : list EventDetail.t
}.

Definition empty_store : Store := mkStore [] [] [] [].

(** ** Request schemas ([api/schemas.py]) *)

Record EventCreate := mkEventCreate { ec_day : str; ec_details : list str }.
Record MonthBase := mkMonthBase { mb_month_bn : str; mb_month_en : str }.
Record MonthCreate := mkMonthCreate {
  mc_month_bn : str; mc_month_en : str; mc_events : list EventCreate
}.

(** ** The session: unit of work, statement log and store failures *)

(** Objects registered with the session and not yet flushed:
    [db.add(obj)], an attribute assignment on a loaded object, or
    [db.delete(obj)]. *)
Inductive Pending :=
  | NewMonth (month_bn month_en : str)
  | NewEvent (day : str) (month_id : Z)
  | NewEventDetail (detail : str) (event_id : Z)
  | DirtyMonth (id : Z) (month_bn month_en : str)
  | DeletedMonth (id : Z)
  | DeletedEvent (id : Z)
  | DeletedEventDetail (id : Z).

(** The queries the application issues. *)
Inductive Query :=
  | UserByUsername (username : str)
  | MonthById (id : Z)
  | EventById (id : Z)
  | EventDetailById (id : Z)
  | EventsByMonthAndDay (month_id : Z) (day : str)
  | EventDetailsILike (pattern : str).

(** Statements sent to the database, newest first. *)
Inductive Stmt :=
  | Select (q : Query)
  | Write (p : Pending)
  | Commit
  | Rollback.

(** The exceptions the code raises or lets through.  [UnknownHashError]
    is passlib's, [ArgumentError] SQLAlchemy's, raised when a query is
    handed something that is no mapped class or column, [OverflowError]
    the sqlite3 driver's. *)
Inductive exn :=
  | HTTPException (status_code : Z) (detail : str) (headers : list (str * str))
  | RequestValidationError
  | ValidationError
  | JWTError
  | TypeError
  | ValueError
  | UnknownHashError
  | ArgumentError
  | OverflowError
  | SQLAlchemyError.

Inductive outcome (A : Type) :=
  | Return (a : A)
  | Raise (e : exn).
Arguments Return {A} a.
Arguments Raise {A} e.

(** [db : Session].  [fault n] tells whether the store fails the write
    statement issued when [n] statements have been sent before it
    (constraint violation, lost connection, ...). *)
Record Session := mkSession {
  committed : Store;
  pending : list Pending;
  log : list Stmt;
  fault : nat → bool
}.

Definition M (A : Type) : Type := Session → outcome A * Session.

Definition ret {A} (a : A) : M A := λ db, (Return a, db).
Definition raise {A} (e : exn) : M A := λ db, (Raise e, db).
Definition bind {A B} (c : M A) (k : A → M B) : M B := λ db,
  match c db with
  | (Return a, db') => k a db'
  | (Raise e, db') => (Raise e, db')
  end.

Notation "'let!' x ':=' c 'in' k" := (bind c (λ x, k))
  (at level 10, x name, c at level 100, k at level 200).
Notation "c1 ';;;' c2" := (bind c1 (λ _, c2))
  (at level 100, c2 at level 200, right associativity).

(** [try: c except: h] with a bare [except] clause. *)
Definition try_except {A} (c : M A) (h : exn → M A) : M A := λ db,
  match c db with
  | (Return a, db') => (Return a, db')
  | (Raise e, db') => h e db'
  end.

(** [for x in xs: body] *)
Fixpoint for_each {A} (xs : list A) (body : A → M unit) : M unit :=
  match xs with
  | [] => ret tt
  | x :: xs' => body x ;;; for_each xs' body
  end.

(** ** Bangla digits ([to_bangla_digits]) *)

Definition eng_to_bn : gmap N N :=
  list_to_map
    [ (48, 2534); (49, 2535); (50, 2536); (51, 2537); (52, 2538);
      (53, 2539); (54, 2540); (55, 2541); (56, 2542); (57, 2543) ]%N.

Definition to_bangla_digits (number_str : str) : str :=
  (λ char, default char (eng_to_bn !! char)) <$> number_str.

(** The substitution the specification describes: a Western-Arabic digit
    becomes the Bangla digit of the same value, anything else is kept. *)
Definition western_digit (c : N) : Prop := (48 ≤ c ≤ 57)%N.
Definition bangla_digit (c : N) : Prop := (2534 ≤ c ≤ 2543)%N.

Definition bangla_glyph (c : N) : N :=
  if decide (western_digit c) then (c - 48 + 2534)%N else c.

(** ** What the store does with a write *)

(** A fresh integer primary key: one more than the largest in the table
    (SQLite rowid allocation; [sqlite:///./app.db] is the default
    [DATABASE_URL]). *)
Definition next_id (ids : list Z) : Z := foldr Z.max 0 ids + 1.

(** Rows reached by the ORM cascade [cascade="all, delete-orphan"] of
    [Month.events] and [Event.details]. *)
Definition events_of_month (s : Store) (id : Z) : list Event.t :=
  filter (λ e, Event.month_id e = id) (events s).

Definition details_of_events (s : Store) (event_ids : list Z) : list EventDetail.t :=
  filter (λ d, EventDetail.event_id d ∈ event_ids) (event_details s).

(** The effect of flushing one pending object, with the primary key of the
    row written.  Foreign keys are declared in the models but not checked
    by the default SQLite engine, and no code path turns the check on. *)
Definition apply_pending (p : Pending) (s : Store) : Store * Z :=
  match p with
  | NewMonth bn en =>
      let i := next_id (Month.id <$> months s) in
      (mkStore (users s) (months s ++ [Month.mk i bn en]) (events s) (event_details s), i)
  | NewEvent day month_id =>
      let i := next_id (Event.id <$> events s) in
      (mkStore (users s) (months s) (events s ++ [Event.mk i month_id day]) (event_details s), i)
  | NewEventDetail detail event_id =>
      let i := next_id (EventDetail.id <$> event_details s) in
      (mkStore (users s) (months s) (events s)
               (event_details s ++ [EventDetail.mk i event_id detail]), i)
  | DirtyMonth id bn en =>
      (mkStore (users s)
               ((λ m, if decide (Month.id m = id) then Month.mk id bn en else m) <$> months s)
               (events s) (event_details s), id)
  | DeletedMonth id =>
      let event_ids := Event.id <$> events_of_month s id in
      let detail_ids := EventDetail.id <$> details_of_events s event_ids in
      (mkStore (users s)
               (filter (λ m, Month.id m ≠ id) (months s))
               (filter (λ e, Event.id e ∉ event_ids) (events s))
               (filter (λ d, EventDetail.id d ∉ detail_ids) (event_details s)), id)
  | DeletedEvent id =>
      let detail_ids := EventDetail.id <$> details_of_events s [id] in
      (mkStore (users s) (months s)
               (filter (λ e, Event.id e ≠ id) (events s))
               (filter (λ d, EventDetail.id d ∉ detail_ids) (event_details s)), id)
  | DeletedEventDetail id =>
      (mkStore (users s) (months s) (events s)
               (filter (λ d, EventDetail.id d ≠ id) (event_details s)), id)
  end.

(** Flushing the unit of work inside the current transaction: the
    statements go out in [db.add] order against a working copy [w]; the
    first one the store fails aborts the flush. *)
Fixpoint flush (fault : nat → bool) (ps : list Pending) (w : Store)
    (log : list Stmt) (keys : list Z) : option (Store * list Z) * list Stmt :=
  match ps with
  | [] => (Some (w, keys), log)
  | p :: ps' =>
      if fault (length log) then (None, Write p :: log)
      else
        let '(w', key) := apply_pending p w in
        flush fault ps' w' (Write p :: log) (keys ++ [key])
  end.

(** ** Session primitives *)

Definition logged (st : Stmt) (db : Session) : Session :=
  mkSession (committed db) (pending db) (st :: log db) (fault db).

(** [SessionLocal()]: what [get_db] hands to a request. *)
Definition new_session (s : Store) (l : list Stmt) (f : nat → bool) : Session :=
  mkSession s [] l f.

(** [db.query(...).all()] / [.first()]: a SELECT on the committed rows
    (the session is created with [autoflush=False]). *)
Definition db_select {A} (q : Query) (rows : Store → A) : M A := λ db,
  (Return (rows (committed db)), logged (Select q) db).

(** [db.add(obj)], [db.delete(obj)] and attribute assignment only
    register the change. *)
Definition db_add (p : Pending) : M unit := λ db,
  (Return tt, mkSession (committed db) (pending db ++ [p]) (log db) (fault db)).

(** [db.commit()]: flush, then COMMIT; a failed flush rolls the
    transaction back and raises.  The keys generated by the flush are what
    the ORM stores in the [id] attribute of the flushed objects. *)
Definition db_commit : M (list Z) := λ db,
  match flush (fault db) (pending db) (committed db) (log db) [] with
  | (Some (w, keys), l) => (Return keys, mkSession w [] (Commit :: l) (fault db))
  | (None, l) => (Raise SQLAlchemyError, mkSession (committed db) [] (Rollback :: l) (fault db))
  end.

(** The [id] of the single object a commit has just flushed. *)
Definition primary_key (keys : list Z) : Z := default 0 (head keys).

Definition select_user (username : str) : M (option User.t) :=
  db_select (UserByUsername username)
            (λ s, head (filter (λ u, User.username u = username) (users s))).

Definition select_month (id : Z) : M (option Month.t) :=
  db_select (MonthById id) (λ s, head (filter (λ m, Month.id m = id) (months s))).

Definition select_event (id : Z) : M (option Event.t) :=
  db_select (EventById id) (λ s, head (filter (λ e, Event.id e = id) (events s))).

Definition select_detail (id : Z) : M (option EventDetail.t) :=
  db_select (EventDetailById id)
            (λ s, head (filter (λ d, EventDetail.id d = id) (event_details s))).

(** [db.refresh(obj)]: reload by primary key; the row must exist. *)
Definition db_refresh {A} (sel : M (option A)) : M A :=
  let! row := sel in
  match row with
  | Some r => ret r
  | None => raise SQLAlchemyError
  end.

(** ** Query layer ([api/crud.py]) *)

Definition get_user (username : str) : M (option User.t) := select_user username.

Definition get_month (month_id : Z) : M (option Month.t) := select_month month_id.

Definition create_month (month : MonthCreate) : M Month.t :=
  db_add (NewMonth (mc_month_bn month) (mc_month_en month)) ;;;
  let! keys := db_commit in
  let! db_month := db_refresh (select_month (primary_key keys)) in
  for_each (mc_events month) (λ event_data,
    db_add (NewEvent (ec_day event_data) (Month.id db_month)) ;;;
    let! keys := db_commit in
    let! db_event := db_refresh (select_event (primary_key keys)) in
    for_each (ec_details event_data) (λ detail,
      db_add (NewEventDetail detail (Event.id db_event))) ;;;
    db_commit ;;;
    ret tt) ;;;
  db_refresh (select_month (Month.id db_month)).

Definition delete_month (month_id : Z) : M (option Month.t) :=
  let! db_month := select_month month_id in
  match db_month with
  | Some m =>
      db_add (DeletedMonth (Month.id m)) ;;;
      db_commit ;;;
      ret db_month
  | None => ret db_month
  end.

Definition update_month (month_id : Z) (month : MonthBase) : M (option Month.t) :=
  let! db_month := select_month month_id in
  match db_month with
  | Some m =>
      db_add (DirtyMonth (Month.id m) (mb_month_bn month) (mb_month_en month)) ;;;
      db_commit ;;;
      let! m' := db_refresh (select_month (Month.id m)) in
      ret (Some m')
  | None => ret db_month
  end.

Definition create_event (month_id : Z) (event : EventCreate) : M Event.t :=
  db_add (NewEvent (ec_day event) month_id) ;;;
  let! keys := db_commit in
  let! db_event := db_refresh (select_event (primary_key keys)) in
  for_each (ec_details event) (λ detail,
    db_add (NewEventDetail detail (Event.id db_event))) ;;;
  db_commit ;;;
  db_refresh (select_event (Event.id db_event)).

Definition delete_event (event_id : Z) : M (option Event.t) :=
  let! db_event := select_event event_id in
  match db_event with
  | Some e =>
      db_add (DeletedEvent (Event.id e)) ;;;
      db_commit ;;;
      ret db_event
  | None => ret db_event
  end.

Definition add_detail (event_id : Z) (detail : str) : M EventDetail.t :=
  db_add (NewEventDetail detail event_id) ;;;
  let! keys := db_commit in
  db_refresh (select_detail (primary_key keys)).

Definition delete_detail (detail_id : Z) : M (option EventDetail.t) :=
  let! db_detail := select_detail detail_id in
  match db_detail with
  | Some d =>
      db_add (DeletedEventDetail (EventDetail.id d)) ;;;
      db_commit ;;;
      ret db_detail
  | None => ret db_detail
  end.

Definition events_on (s : Store) (month_id : Z) (day : str) : list Event.t :=
  filter (λ e, Event.month_id e = month_id ∧ Event.day e = day) (events s).

Definition select_events (month_id : Z) (day : str) : M (list Event.t) :=
  db_select (EventsByMonthAndDay month_id day) (λ s, events_on s month_id day).

Definition get_events_by_date (month_id : Z) (day : str) : M (list Event.t) :=
  let! events := select_events month_id day in
  match events with
  | _ :: _ => ret events
  | [] =>
      let day_bn := to_bangla_digits day in
      if bool_decide (day_bn ≠ day)
      then select_events month_id day_bn
      else ret []
  end.

(** The data-model invariant: every Event belongs to a stored Month and
    every EventDetail to a stored Event. *)
Definition referential_integrity (s : Store) : Prop :=
  (∀ e, e ∈ events s → ∃ mo, mo ∈ months s ∧ Month.id mo = Event.month_id e) ∧
  (∀ d, d ∈ event_details s → ∃ e, e ∈ events s ∧ Event.id e = EventDetail.event_id d).

(** The row [update_month m month] writes in place of a Month row. *)
Definition renamed (m : Z) (month : MonthBase) (mo : Month.t) : Month.t :=
  if decide (Month.id mo = m)
  then Month.mk m (mb_month_bn month) (mb_month_en month)
  else mo.

(** The stores [create_month] passes through, one per commit: after the
    Month row, then for each event after the Event row and after its
    details. *)
Definition add_details (event_id : Z) (details : list str) (s : Store) : Store :=
  foldl (λ w detail, (apply_pending (NewEventDetail detail event_id) w).1) s details.

Fixpoint event_checkpoints (month_id : Z) (evs : list EventCreate) (s : Store)
    : list Store :=
  match evs with
  | [] => []
  | ev :: evs' =>
      let '(s1, event_id) := apply_pending (NewEvent (ec_day ev) month_id) s in
      let s2 := add_details event_id (ec_details ev) s1 in
      s1 :: s2 :: event_checkpoints month_id evs' s2
  end.

Definition checkpoints (month : MonthCreate) (s : Store) : list Store :=
  let '(s0, month_id) :=
    apply_pending (NewMonth (mc_month_bn month) (mc_month_en month)) s in
  s0 :: event_checkpoints month_id (mc_events month) s0.

(** The COMMITs a statement log records. *)
Fixpoint commits (l : list Stmt) : nat :=
  match l with
  | [] => 0%nat
  | Commit :: l' => S (commits l')
  | _ :: l' => commits l'
  end.

(** [s'] holds every row of [s], in place, and possibly more after them. *)
Definition extends (s s' : Store) : Prop :=
  users s' = users s ∧ months s `prefix_of` months s' ∧
  events s `prefix_of` events s' ∧ event_details s `prefix_of` event_details s'.

(** The input tree with the detail strings left out. *)
Definition without_details (month : MonthCreate) : MonthCreate :=
  mkMonthCreate (mc_month_bn month) (mc_month_en month)
                ((λ ev, mkEventCreate (ec_day ev) []) <$> mc_events month).

(** ** [ILIKE] as the default engine evaluates it *)

Definition percent : N := 37%N.
Definition underscore : N := 95%N.

(** SQL [lower()] of SQLite folds the 26 ASCII letters only. *)
Definition lower (c : N) : N :=
  if decide (65 ≤ c ≤ 90)%N then (c + 32)%N else c.

(** [s LIKE p] without an ESCAPE clause, on operands as the engine reads
    them (see [c_str] below): [%] matches any run of characters, [_] any
    one character, every other character itself up to ASCII case. *)
Fixpoint like (p s : str) : bool :=
  match p with
  | [] => match s with [] => true | _ :: _ => false end
  | c :: p' =>
      if decide (c = percent) then
        (fix skip (s : str) : bool :=
           like p' s || match s with [] => false | _ :: s' => skip s' end) s
      else
        match s with
        | [] => false
        | x :: s' =>
            (bool_decide (c = underscore) || bool_decide (lower c = lower x))
            && like p' s'
        end
  end.

(** SQLite reads both operands of [LIKE] as NUL-terminated strings: of a
    text value it sees what stands before the first code point 0. *)
Fixpoint c_str (s : str) : str :=
  match s with
  | [] => []
  | c :: s' => if decide (c = 0%N) then [] else c :: c_str s'
  end.

(** [column.ilike(pattern)] is rendered [lower(column) LIKE lower(pattern)]. *)
Definition ilike (column pattern : str) : bool :=
  like (c_str (lower <$> pattern)) (c_str (lower <$> column)).

Definition search_details (query : str) : M (list EventDetail.t) :=
  let pattern := lit "%" ++ query ++ lit "%" in
  db_select (EventDetailsILike pattern)
            (λ s, filter (λ d, ilike (EventDetail.detail d) pattern) (event_details s)).

(** [GET /api/search]: [q: str = Query(..., min_length=3)]. *)
Definition search_events (q : str) : M (list EventDetail.t) :=
  if decide (length q < 3)%nat then raise RequestValidationError
  else search_details q.

(** ** The copies in [app.py] that name [EventDetail]

    [app.py] binds the name [EventDetail] twice at module level: to the
    mapped class (line 78) and then to the pydantic schema (line 94).  The
    functions below it see the schema.  [EventDetail(detail=...,
    event_id=...)] is therefore a schema construction, which fails
    validation for want of [id], and [db.query(EventDetail)] is refused by
    SQLAlchemy, which is handed no mapped class. *)
Module AppPy.

Definition EventDetail_schema (detail : str) (event_id : Z) : M Pending :=
  raise ValidationError.

Definition query_EventDetail {A} : M A := raise ArgumentError.

Definition create_month_db (month : MonthCreate) : M Month.t :=
  db_add (NewMonth (mc_month_bn month) (mc_month_en month)) ;;;
  let! keys := db_commit in
  let! db_month := db_refresh (select_month (primary_key keys)) in
  for_each (mc_events month) (λ event_data,
    db_add (NewEvent (ec_day event_data) (Month.id db_month)) ;;;
    let! keys := db_commit in
    let! db_event := db_refresh (select_event (primary_key keys)) in
    for_each (ec_details event_data) (λ detail,
      let! db_detail := EventDetail_schema detail (Event.id db_event) in
      db_add db_detail) ;;;
    db_commit ;;;
    ret tt) ;;;
  db_refresh (select_month (Month.id db_month)).

Definition create_event_db (month_id : Z) (event : EventCreate) : M Event.t :=
  db_add (NewEvent (ec_day event) month_id) ;;;
  let! keys := db_commit in
  let! db_event := db_refresh (select_event (primary_key keys)) in
  for_each (ec_details event) (λ detail,
    let! db_detail := EventDetail_schema detail (Event.id db_event) in
    db_add db_detail) ;;;
  db_commit ;;;
  db_refresh (select_event (Event.id db_event)).

Definition add_detail_db (event_id : Z) (detail : str) : M EventDetail.t :=
  let! db_detail := EventDetail_schema detail event_id in
  db_add db_detail ;;;
  let! keys := db_commit in
  db_refresh (select_detail (primary_key keys)).

Definition delete_detail_db (detail_id : Z) : M (option EventDetail.t) :=
  let! db_detail := query_EventDetail (A := option EventDetail.t) in
  match db_detail with
  | Some d =>
      db_add (DeletedEventDetail (EventDetail.id d)) ;;;
      db_commit ;;;
      ret db_detail
  | None => ret db_detail
  end.

Definition search_details (query : str) : M (list EventDetail.t) :=
  query_EventDetail.

End AppPy.

(** What the specification asks of the search: [q] occurs in [s] as a
    contiguous run of characters, letter case ignored. *)
Definition contains_nocase (s q : str) : Prop :=
  ∃ pre post, lower <$> s = pre ++ (lower <$> q) ++ post.

(** A pattern character that is not a wildcard. *)
Definition literal (c : N) : Prop := c ≠ percent ∧ c ≠ underscore.

(** A string without the code point 0. *)
Definition nul_free (s : str) : Prop := Forall (λ c, c ≠ 0%N) s.

(** A string already folded to lower case. *)
Definition lowered (t : str) : Prop := lower <$> t = t.

(** ** Time, dict values and the libraries behind the token service *)

(** [datetime] and [timedelta] values, in microseconds. *)
Abbreviation datetime := Z (only parsing).
Abbreviation timedelta := Z (only parsing).

Definition minutes (n : Z) : timedelta := n * 60 * 1000000.

(** [calendar.timegm(dt.utctimetuple())]: whole seconds since the epoch. *)
Definition timegm (dt : datetime) : Z := dt `div` 1000000.

(** Values held by the claims dict and by the decoded JSON payload. *)
Inductive value :=
  | VStr (s : str)
  | VInt (n : Z)
  | VDatetime (dt : datetime)
  | VNone.

(** The signing layer of python-jose and Python's [int()] on strings are
    used as given: [jws_sign claims key] is the compact serialisation
    signed with HS256, [jws_verify token key] the payload of a well-formed
    token whose signature verifies under [key] and whose payload is a JSON
    object, [None] otherwise. *)
Class Jose := {
  jws_sign : gmap str value → str → str;
  jws_verify : str → str → option (gmap str value);
  int_of_str : str → option Z
}.

(** A token signed under a key verifies under that key. *)
Class JoseSound `{Jose} : Prop :=
  jws_verify_sign : ∀ claims key, jws_verify (jws_sign claims key) key = Some claims.

(** [SECRET_KEY = os.getenv("SECRET_KEY", ...)], read once at start-up. *)
Class Settings := { SECRET_KEY : str }.

(** [pwd_context = CryptContext(schemes=["pbkdf2_sha256"])]; [hash] draws
    its salt from the operating system, passed here explicitly. *)
Class CryptContext := {
  pwd_context_verify : str → str → outcome bool;
  pwd_context_hash : str → str → str
}.

(** The identifier every hash of the one scheme of the context starts
    with: passlib recognises a hash by it. *)
Definition pbkdf2_sha256_ident : str := lit "$pbkdf2-sha256$".


Definition lift {A} (o : outcome A) : M A := λ db, (o, db).

Definition ACCESS_TOKEN_EXPIRE_MINUTES : Z := 30.

Record Token := mkToken { access_token : str; token_type : str }.

Inductive Response :=
  | TemplateResponse (name : str) (error : option str)
  | RedirectResponse (url : str) (status_code : Z) (set_cookie : option (str * str)).

(** [s.partition(sep)], without the separator. *)
Fixpoint partition (sep : N) (s : str) : str * str :=
  match s with
  | [] => ([], [])
  | c :: s' =>
      if decide (c = sep) then ([], s')
      else let '(a, b) := partition sep s' in (c :: a, b)
  end.

(** [fastapi.security.utils.get_authorization_scheme_param] *)
Definition get_authorization_scheme_param (authorization : option str) : str * str :=
  match authorization with
  | None | Some [] => ([], [])
  | Some h => partition 32%N h
  end.

Definition www_authenticate : list (str * str) :=
  [(lit "WWW-Authenticate", lit "Bearer")].

(** [OAuth2PasswordBearer(tokenUrl="token").__call__]; [scheme.lower()]
    is compared with an all-ASCII word, for which ASCII folding decides. *)
Definition oauth2_scheme (authorization : option str) : outcome str :=
  let '(scheme, param) := get_authorization_scheme_param authorization in
  match authorization with
  | None | Some [] => Raise (HTTPException 401 (lit "Not authenticated") www_authenticate)
  | Some _ =>
      if bool_decide (lower <$> scheme ≠ lit "bearer")
      then Raise (HTTPException 401 (lit "Not authenticated") www_authenticate)
      else Return param
  end.

(** A rejection as the bearer path surfaces it: status 401 with the
    header [WWW-Authenticate: Bearer]. *)
Definition unauthorized (e : exn) : Prop :=
  ∃ detail, e = HTTPException 401 detail www_authenticate.

(** The token the cookie path validates: the cookie value without a
    leading ["Bearer "]. *)
Definition cookie_token (cookie : str) : str :=
  if startswith cookie (lit "Bearer ") then drop 7 cookie else cookie.

Section TokenService.
Context `{Jose, Settings, CryptContext}.

(** [jose.jwt.encode]: datetimes in the time claims become NumericDates. *)
Definition jwt_encode (claims : gmap str value) (key : str) : str :=
  jws_sign
    (foldr (λ time_claim c,
              match c !! time_claim with
              | Some (VDatetime dt) => <[time_claim := VInt (timegm dt)]> c
              | _ => c
              end)
           claims [lit "exp"; lit "iat"; lit "nbf"])
    key.

(** [int(v)] *)
Definition py_int (v : value) : outcome Z :=
  match v with
  | VInt n => Return n
  | VStr s => match int_of_str s with Some n => Return n | None => Raise ValueError end
  | VDatetime _ | VNone => Raise TypeError
  end.

(** [jose.jwt._validate_exp], leeway 0: the token is refused once [exp]
    lies before the current whole second. *)
Definition validate_exp (claims : gmap str value) (now : datetime) : outcome unit :=
  match claims !! lit "exp" with
  | None => Return tt
  | Some v =>
      match py_int v with
      | Return exp => if decide (exp < timegm now) then Raise JWTError else Return tt
      | Raise ValueError => Raise JWTError
      | Raise e => Raise e
      end
  end.


(** [jose.jwt._validate_sub] *)
Definition validate_sub (claims : gmap str value) : outcome unit :=
  match claims !! lit "sub" with
  | None | Some (VStr _) => Return tt
  | Some _ => Raise JWTError
  end.

(** [jose.jwt.decode(token, key, algorithms=[ALGORITHM])], for payloads
    carrying the claims this application writes ([sub], [exp]). *)
Definition jwt_decode (token key : str) (now : datetime) : outcome (gmap str value) :=
  match jws_verify token key with
  | None => Raise JWTError
  | Some claims =>
      match validate_exp claims now with
      | Raise e => Raise e
      | Return _ =>
          match validate_sub claims with
          | Raise e => Raise e
          | Return _ => Return claims
          end
      end
  end.

Definition verify_password (plain_password hashed_password : str) : outcome bool :=
  pwd_context_verify plain_password hashed_password.

Definition get_password_hash (password salt : str) : str :=
  pwd_context_hash password salt.

(** [now] is [datetime.utcnow()] at the time of the call. *)
Definition create_access_token (data : gmap str value)
    (expires_delta : option timedelta) (now : datetime) : str :=
  let to_encode := data in
  let expire :=
    match expires_delta with
    | Some delta => if decide (delta ≠ 0) then now + delta else now + minutes 15
    | None => now + minutes 15
    end in
  let to_encode := <[lit "exp" := VDatetime expire]> to_encode in
  jwt_encode to_encode SECRET_KEY.

(** The delay [create_access_token] adds: a [timedelta] of zero is
    falsy and gets the default, like [None]. *)
Definition effective_ttl (expires_delta : option timedelta) : timedelta :=
  match expires_delta with
  | Some delta => if decide (delta ≠ 0) then delta else minutes 15
  | None => minutes 15
  end.

(** The payload of an access token: subject and NumericDate of expiry. *)
Definition issued_claims (username : str) (exp : Z) : gmap str value :=
  <[lit "exp" := VInt exp]> {[ lit "sub" := VStr username ]}.

Definition credentials_exception : exn :=
  HTTPException 401 (lit "Could not validate credentials") www_authenticate.

Definition get_current_user (token : str) (now : datetime) : M User.t :=
  let! username :=
    try_except
      (let! payload := lift (jwt_decode token SECRET_KEY now) in
       match payload !! lit "sub" with
       | None | Some VNone => raise credentials_exception
       | Some (VStr username) => ret username
       | Some _ => raise ValidationError
       end)
      (λ e, match e with
            | JWTError => raise credentials_exception
            | _ => raise e
            end) in
  let! user := select_user username in
  match user with
  | None => raise credentials_exception
  | Some u => ret u
  end.

(** A route of [admin_router]: [dependencies=[Depends(get_current_user)]]
    runs before the endpoint, with [token = Depends(oauth2_scheme)]. *)
Definition admin_route {A} (authorization : option str) (now : datetime)
    (endpoint : M A) : M A :=
  let! token := lift (oauth2_scheme authorization) in
  get_current_user token now ;;;
  endpoint.

(** [get_current_user_from_cookie] of [app.py]. *)
Definition get_current_user_from_cookie (cookies : gmap str str)
    (now : datetime) : M (option User.t) :=
  match cookies !! lit "access_token" with
  | None | Some [] => ret None
  | Some token =>
      try_except
        (let token := if startswith token (lit "Bearer ") then drop 7 token else token in
         let! payload := lift (jwt_decode token SECRET_KEY now) in
         match payload !! lit "sub" with
         | Some (VStr (c :: username)) => select_user (c :: username)
         | _ => ret None
         end)
        (λ _, ret None)
  end.

(** [get_current_user_from_cookie] of [api/routers/dashboard.py], which
    delegates to [auth.get_current_user(token, db)]. *)
Definition dashboard_get_current_user_from_cookie
    (auth_get_current_user : str → M User.t)
    (cookies : gmap str str) : M (option User.t) :=
  match cookies !! lit "access_token" with
  | None | Some [] => ret None
  | Some token =>
      try_except
        (let token := if startswith token (lit "Bearer ") then drop 7 token else token in
         let! user := auth_get_current_user token in
         ret (Some user))
        (λ _, ret None)
  end.

(** [POST /token] *)
Definition login_for_access_token (username password : str) (now : datetime) : M Token :=
  let incorrect :=
    HTTPException 401 (lit "Incorrect username or password") www_authenticate in
  let! user := get_user username in
  match user with
  | None => raise incorrect
  | Some u =>
      let! ok := lift (verify_password password (User.hashed_password u)) in
      if negb ok then raise incorrect
      else
        let access_token_expires := minutes ACCESS_TOKEN_EXPIRE_MINUTES in
        let access_token :=
          create_access_token {[ lit "sub" := VStr (User.username u) ]}
                              (Some access_token_expires) now in
        ret (mkToken access_token (lit "bearer"))
  end.

(** [POST /login] of the dashboard. *)
Definition login_submit (username password : str) (now : datetime) : M Response :=
  let invalid := TemplateResponse (lit "login.html") (Some (lit "Invalid credentials")) in
  let! user := get_user username in
  match user with
  | None => ret invalid
  | Some u =>
      let! ok := lift (verify_password password (User.hashed_password u)) in
      if negb ok then ret invalid
      else
        let access_token :=
          create_access_token {[ lit "sub" := VStr (User.username u) ]} None now in
        ret (RedirectResponse (lit "/dashboard") 303
               (Some (lit "access_token", lit "Bearer " ++ access_token)))
  end.

End TokenService.

(** ** Engine configuration ([app.py], database setup) *)

(** [s.replace(old, new, 1)]: the first occurrence of [old], if any. *)
Fixpoint replace_first (old new s : str) : str :=
  if startswith s old then new ++ drop (length old) s
  else
    match s with
    | [] => []
    | c :: s' => c :: replace_first old new s'
    end.

(** [SQLALCHEMY_DATABASE_URL], from [os.getenv("DATABASE_URL", ...)]. *)
Definition SQLALCHEMY_DATABASE_URL (env_database_url : option str) : str :=
  let url := default (lit "sqlite:///./app.db") env_database_url in
  if startswith url (lit "postgres://")
  then replace_first (lit "postgres://") (lit "postgresql://") url
  else url.

Definition connect_args (url : str) : list (str * bool) :=
  if startswith url (lit "sqlite") then [(lit "check_same_thread", false)] else [].

(** ** Invariants of the store *)

(** Primary keys are unique in every table. *)
Definition unique_ids (s : Store) : Prop :=
  NoDup (User.id <$> users s) ∧ NoDup (Month.id <$> months s) ∧
  NoDup (Event.id <$> events s) ∧ NoDup (EventDetail.id <$> event_details s).

(** A computation keeps a relation between the committed store before
    and after it, whatever its outcome. *)
Definition keeps (R : relation Store) {A} (c : M A) : Prop :=
  ∀ db, R (committed db) (committed (c db).2).

Definition same_users : relation Store := λ s s', users s' = users s.
Definition still_unique : relation Store := λ s s', unique_ids s → unique_ids s'.

Global Instance same_users_preorder : PreOrder same_users.
Proof. split; unfold same_users; [by intros s | intros s1 s2 s3; congruence]. Qed.

Global Instance still_unique_preorder : PreOrder still_unique.
Proof. split; unfold still_unique; [by intros s | intros s1 s2 s3; auto]. Qed.

(** ** Dashboard pages ([app.py], dashboard router) *)

(** What a dashboard route answers with: a redirect, or the HTML of a
    rendered template. *)
Inductive Page :=
  | Redirect (url : str)
  | Rendered (html : str).

(** [templates.TemplateResponse(name, {"request": ..., "user": ...,
    "month": ...})]: Jinja renders the named template, or raises. *)
Class Jinja2Templates := {
  templates_TemplateResponse : str → User.t → Month.t → outcome str
}.

(** The sqlite3 driver binds a Python [int] as a 64-bit integer and
    raises [OverflowError] for one that does not fit. *)
Definition sqlite_integer (i : Z) : M unit :=
  if decide (- 2 ^ 63 ≤ i < 2 ^ 63) then ret tt else raise OverflowError.

Section Dashboard.
Context `{Jose, Settings, Jinja2Templates}.

(** [GET /dashboard/months/{month_id}]; [month_id: int] is any integer
    the path spells. *)
Definition month_detail_dashboard (cookies : gmap str str) (month_id : Z)
    (now : datetime) : M Page :=
  let! user := get_current_user_from_cookie cookies now in
  match user with
  | None => ret (Redirect (lit "/login"))
  | Some u =>
      sqlite_integer month_id ;;;
      let! month := get_month month_id in
      match month with
      | None => ret (Redirect (lit "/dashboard"))
      | Some m =>
          let! html := lift (templates_TemplateResponse (lit "month_detail.html") u m) in
          ret (Rendered html)
      end
  end.

End Dashboard.

(** * Data for the worked examples *)

Definition baishakh_store : Store :=
  mkStore [] [Month.mk 1 (lit "Boishakh") (lit "Baishakh")]
          [Event.mk 1 1 [2539%N]; Event.mk 2 1 (lit "7"); Event.mk 3 1 [2541%N]] [].

Definition search_store : Store :=
  mkStore [] [Month.mk 1 (lit "Boishakh") (lit "Baishakh")]
          [Event.mk 1 1 (lit "1")]
          [EventDetail.mk 1 1 (lit "XYZabcDEF"); EventDetail.mk 2 1 (lit "abc");
           EventDetail.mk 3 1 (lit "xy"); EventDetail.mk 4 1 (lit "Amaze")].

(** Two months; the first has two events with two details each. *)
Definition two_months_store : Store :=
  mkStore [User.mk 1 (lit "admin") (lit "$pbkdf2-sha256$...")]
          [Month.mk 1 (lit "Boishakh") (lit "Baishakh");
           Month.mk 2 (lit "Joishtho") (lit "Jaistha")]
          [Event.mk 1 1 (lit "1"); Event.mk 2 1 (lit "2"); Event.mk 3 2 (lit "1")]
          [EventDetail.mk 1 1 (lit "a"); EventDetail.mk 2 1 (lit "b");
           EventDetail.mk 3 2 (lit "c"); EventDetail.mk 4 2 (lit "d");
           EventDetail.mk 5 3 (lit "e")].

(** A month with two events of one detail each. *)
Definition nested_month : MonthCreate :=
  mkMonthCreate (lit "Ashar") (lit "Ashar")
                [mkEventCreate (lit "1") [lit "a"]; mkEventCreate (lit "2") [lit "b"]].

(** An idealised signing layer for the worked examples: the token is
    the pair of key and claims, encoded as one code point. *)
Global Instance value_eq_dec : EqDecision value.
Proof. solve_decision. Defined.

Global Instance value_countable : Countable value.
Proof.
  refine (inj_countable'
            (λ v, match v with
                  | VStr s => inl (inl s)
                  | VInt n => inl (inr n)
                  | VDatetime dt => inr (inl dt)
                  | VNone => inr (inr tt)
                  end)
            (λ x, match x with
                  | inl (inl s) => VStr s
                  | inl (inr n) => VInt n
                  | inr (inl dt) => VDatetime dt
                  | inr (inr _) => VNone
                  end) _).
  by intros [].
Defined.

Definition ideal_jose : Jose := {|
  jws_sign claims key := [Npos (encode (key, claims))];
  jws_verify token key :=
    match token with
    | [Npos p] =>
        match decode p with
        | Some (k, claims) => if decide (k = key) then Some claims else None
        | None => None
        end
    | _ => None
    end;
  int_of_str _ := None
|}.

Definition test_settings : Settings := {| SECRET_KEY := lit "09d25e094faa" |}.

(** A stand-in password context that stores, after the identifier of
    the scheme, the salt length, the salt and the password. *)
Definition test_crypt : CryptContext := {|
  pwd_context_verify plain hashed :=
    if startswith hashed pbkdf2_sha256_ident then
      match drop (length pbkdf2_sha256_ident) hashed with
      | [] => Raise ValueError
      | n :: rest => Return (bool_decide (drop (N.to_nat n) rest = plain))
      end
    else Raise UnknownHashError;
  pwd_context_hash password salt :=
    pbkdf2_sha256_ident ++ N.of_nat (length salt) :: salt ++ password
|}.

Definition admin_store : Store :=
  mkStore [User.mk 1 (lit "admin")
                   (@get_password_hash test_crypt (lit "password123") (lit "NaCl"))]
          [Month.mk 1 (lit "Boishakh") (lit "Baishakh")] [] [].

(** A template engine that renders the English name of the month. *)
Definition test_templates : Jinja2Templates := {|
  templates_TemplateResponse name user month := Return (Month.month_en month)
|}.

(** * Properties *)

(** ** Prefixes *)

Lemma startswith_app (p rest : str) : startswith (p ++ rest) p = true.
Proof. induction p as [|c p IH]; [done|]. simpl. by rewrite bool_decide_true. Qed.

Lemma startswith_prefix (s p : str) :
  startswith s p = true → s = p ++ drop (length p) s.
Proof.
  revert s. induction p as [|c p IH]; intros s; [done|].
  destruct s as [|x s]; [done|]. simpl.
  intros [->%bool_decide_eq_true Hp]%andb_true_iff. by rewrite <- IH.
Qed.

(** ** Locale-aware day lookup *)

Lemma eng_to_bn_get (c : N) : default c (eng_to_bn !! c) = bangla_glyph c.
Proof.
  unfold eng_to_bn, bangla_glyph, western_digit. cbn [list_to_map foldr uncurry fst snd].
  repeat (rewrite lookup_insert; case_decide; [subst c; reflexivity|]).
  rewrite lookup_empty. simpl.
  case_decide; [exfalso; lia | reflexivity].
Qed.

Lemma to_bangla_digits_glyphs (d : str) : to_bangla_digits d = bangla_glyph <$> d.
Proof. unfold to_bangla_digits. apply list_fmap_ext. intros _ c _. apply eng_to_bn_get. Qed.

Lemma bangla_glyph_fixed (c : N) : bangla_glyph c = c ↔ ¬ western_digit c.
Proof.
  unfold bangla_glyph, western_digit. case_decide; split; intros; try done; lia.
Qed.

Lemma to_bangla_digits_fixed (d : str) :
  to_bangla_digits d = d ↔ Forall (λ c, ¬ western_digit c) d.
Proof.
  rewrite to_bangla_digits_glyphs. induction d as [|c d IH].
  - split; [constructor | done].
  - rewrite fmap_cons, Forall_cons, <- IH, <- bangla_glyph_fixed. split.
    + intros [= -> ->]. done.
    + intros [-> ->]. done.
Qed.

Lemma events_on_spec (s : Store) (m : Z) (d : str) (e : Event.t) :
  e ∈ events_on s m d ↔ e ∈ events s ∧ Event.month_id e = m ∧ Event.day e = d.
Proof. unfold events_on. rewrite list_elem_of_filter. tauto. Qed.

(** C1.  [get_events_by_date m d] first looks up the events of month [m]
    whose stored day is exactly [d] and returns them when there are any.
    Only when there are none does it translate [d] with
    [to_bangla_digits], which replaces each Western-Arabic digit by the
    Bangla digit of the same value and keeps every other character, and
    look up the translated string.  When [d] has no Western-Arabic digit
    the translation is [d] itself and the empty list is returned after the
    single first lookup.  Bangla digits are never mapped back: a day
    without Western-Arabic digits only ever matches itself. *)
Theorem get_events_by_date_locale_fallback (db : Session) (m : Z) (d : str) :
  let s := committed db in
  let lookup x := Select (EventsByMonthAndDay m x) in
  let no_western_digit := Forall (λ c, ¬ western_digit c) d in
  (∀ x e, e ∈ events_on s m x ↔ e ∈ events s ∧ Event.month_id e = m ∧ Event.day e = x) ∧
  to_bangla_digits d = bangla_glyph <$> d ∧
  (to_bangla_digits d = d ↔ no_western_digit) ∧
  (∀ c, bangla_digit c → bangla_glyph c = c) ∧
  (events_on s m d ≠ [] →
     get_events_by_date m d db = (Return (events_on s m d), logged (lookup d) db)) ∧
  (events_on s m d = [] → ¬ no_western_digit →
     get_events_by_date m d db =
       (Return (events_on s m (to_bangla_digits d)),
        logged (lookup (to_bangla_digits d)) (logged (lookup d) db))) ∧
  (events_on s m d = [] → no_western_digit →
     get_events_by_date m d db = (Return [], logged (lookup d) db)) ∧
  (no_western_digit → (get_events_by_date m d db).1 = Return (events_on s m d)).
Proof.
  intros s lookup nwd.
  assert (Hrun : ∀ x, select_events m x db = (Return (events_on s m x), logged (lookup x) db))
    by reflexivity.
  split_and!.
  - intros x e. apply events_on_spec.
  - apply to_bangla_digits_glyphs.
  - apply to_bangla_digits_fixed.
  - intros c Hc. apply bangla_glyph_fixed. unfold bangla_digit, western_digit in *. lia.
  - intros Hne. unfold get_events_by_date, bind. rewrite Hrun.
    destruct (events_on s m d); [done | reflexivity].
  - intros He Hnw. unfold get_events_by_date, bind. rewrite Hrun, He.
    rewrite bool_decide_true; [reflexivity|].
    by rewrite to_bangla_digits_fixed.
  - intros He Hnw. unfold get_events_by_date, bind. rewrite Hrun, He.
    rewrite bool_decide_false; [reflexivity|].
    intros Hd. apply Hd. by apply to_bangla_digits_fixed.
  - intros Hnw. unfold get_events_by_date, bind. rewrite Hrun.
    destruct (events_on s m d) eqn:He; [|reflexivity].
    rewrite bool_decide_false; [reflexivity|].
    intros Hd. apply Hd. by apply to_bangla_digits_fixed.
Qed.

Lemma get_events_by_date_locale_fallback_witness :
  let db := new_session baishakh_store [] (λ _, false) in
  get_events_by_date 1 (lit "7") db
    = (Return [Event.mk 2 1 (lit "7")],
       logged (Select (EventsByMonthAndDay 1 (lit "7"))) db) ∧
  get_events_by_date 1 (lit "5") db
    = (Return [Event.mk 1 1 [2539%N]],
       logged (Select (EventsByMonthAndDay 1 [2539%N]))
              (logged (Select (EventsByMonthAndDay 1 (lit "5"))) db)) ∧
  get_events_by_date 1 (lit "x") db
    = (Return [], logged (Select (EventsByMonthAndDay 1 (lit "x"))) db) ∧
  (get_events_by_date 1 [2541%N] db).1 = Return [Event.mk 3 1 [2541%N]].
Proof.
  intros db. split_and!.
  - apply (get_events_by_date_locale_fallback db 1 (lit "7")). vm_compute. discriminate.
  - apply (get_events_by_date_locale_fallback db 1 (lit "5")).
    + reflexivity.
    + rewrite <- to_bangla_digits_fixed. vm_compute. discriminate.
  - apply (get_events_by_date_locale_fallback db 1 (lit "x")).
    + reflexivity.
    + rewrite <- to_bangla_digits_fixed. reflexivity.
  - apply (get_events_by_date_locale_fallback db 1 [2541%N]).
    rewrite <- to_bangla_digits_fixed. reflexivity.
Defined.

(** ** Substring search *)

Lemma like_nil (s : str) : like [] s = true ↔ s = [].
Proof. destruct s; simpl; split; congruence. Qed.

Lemma like_percent (p s : str) :
  like (percent :: p) s = true ↔ ∃ s1 s2, s = s1 ++ s2 ∧ like p s2 = true.
Proof.
  induction s as [|x s IH].
  - simpl. rewrite orb_false_r. split.
    + intros Hp. by exists [], [].
    + intros (s1 & s2 & Hs & Hp). symmetry in Hs.
      apply app_eq_nil in Hs as [-> ->]. done.
  - change (like (percent :: p) (x :: s))
      with (like p (x :: s) || like (percent :: p) s).
    rewrite orb_true_iff, IH. split.
    + intros [Hp | (s1 & s2 & -> & Hp)].
      * by exists [], (x :: s).
      * by exists (x :: s1), s2.
    + intros (s1 & s2 & Hs & Hp). destruct s1 as [|y s1]; simpl in Hs.
      * left. by subst s2.
      * right. injection Hs as -> ->. by exists s1, s2.
Qed.

Lemma like_underscore (p s : str) :
  like (underscore :: p) s = true ↔ ∃ x s', s = x :: s' ∧ like p s' = true.
Proof.
  destruct s as [|x s]; simpl.
  - split; [done | by intros (? & ? & ? & ?)].
  - split.
    + intros Hp. by exists x, s.
    + by intros (? & ? & [= <- <-] & Hp).
Qed.

Lemma like_literal_cons (c : N) (p s : str) :
  literal c →
  like (c :: p) s = true ↔ ∃ x s', s = x :: s' ∧ lower c = lower x ∧ like p s' = true.
Proof.
  intros [Hc1 Hc2]. simpl. rewrite decide_False by done.
  destruct s as [|x s].
  - split; [done | by intros (? & ? & ? & ?)].
  - rewrite bool_decide_false by done. simpl.
    rewrite andb_true_iff, bool_decide_eq_true. split.
    + intros [? ?]. by exists x, s.
    + by intros (? & ? & [= <- <-] & ? & ?).
Qed.

Lemma like_literal_app (q r s : str) :
  Forall literal q →
  like (q ++ r) s = true ↔
    ∃ s1 s2, s = s1 ++ s2 ∧ lower <$> s1 = lower <$> q ∧ like r s2 = true.
Proof.
  intros Hq. revert s. induction Hq as [|c q Hc Hq IH]; intros s.
  - simpl. split.
    + intros Hr. by exists [], s.
    + intros (s1 & s2 & -> & Hs1 & Hr). by destruct s1.
  - rewrite <- app_comm_cons, like_literal_cons by done. split.
    + intros (x & s' & -> & Hx & Hp). apply IH in Hp as (s1 & s2 & -> & Hs1 & Hr).
      exists (x :: s1), s2. rewrite !fmap_cons. by rewrite Hx, Hs1.
    + intros (s1 & s2 & -> & Hs1 & Hr). destruct s1 as [|x s1]; [done|].
      rewrite !fmap_cons in Hs1. injection Hs1 as Hx Hs1.
      exists x, (s1 ++ s2). split_and!; [done..|]. apply IH. by exists s1, s2.
Qed.

Lemma lower_idemp (c : N) : lower (lower c) = lower c.
Proof. unfold lower. repeat case_decide; lia. Qed.

Lemma lower_literal (c : N) : literal c → literal (lower c).
Proof. unfold literal, lower, percent, underscore. case_decide; lia. Qed.

Lemma lower_percent : lower percent = percent.
Proof. reflexivity. Qed.

Lemma lower_fmap_idemp (s : str) : lower <$> (lower <$> s) = lower <$> s.
Proof. rewrite <- list_fmap_compose. apply list_fmap_ext. intros _ c _. apply lower_idemp. Qed.

Lemma like_only_percent (s : str) : like [percent] s = true.
Proof. apply like_percent. exists s, []. by rewrite app_nil_r. Qed.

Lemma lowered_fmap (s : str) : lowered (lower <$> s).
Proof. apply lower_fmap_idemp. Qed.

Lemma lowered_app (a b : str) : lowered (a ++ b) ↔ lowered a ∧ lowered b.
Proof.
  unfold lowered. rewrite fmap_app. split.
  - intros Hab. apply app_inj_1 in Hab; [done|]. by rewrite length_fmap.
  - by intros [-> ->].
Qed.

Lemma lowered_cons (x : N) (a : str) : lowered (x :: a) → lowered a.
Proof. unfold lowered. rewrite fmap_cons. by intros [= _ ?]. Qed.

Lemma Forall_literal_lower (q : str) : Forall literal q → Forall literal (lower <$> q).
Proof. intros Hq. apply Forall_fmap. eapply Forall_impl; [done|]. apply lower_literal. Qed.

(** A literal run in the pattern consumes a run of the subject equal to
    it up to case. *)
Lemma like_run (q r t : str) :
  Forall literal q → lowered t →
  like ((lower <$> q) ++ r) t = true ↔
    ∃ rest, t = (lower <$> q) ++ rest ∧ like r rest = true.
Proof.
  intros Hq Ht. rewrite like_literal_app; [|by apply Forall_literal_lower].
  rewrite lower_fmap_idemp. split.
  - intros (s1 & s2 & -> & Hs1 & Hr). apply lowered_app in Ht as [Ht _].
    exists s2. by rewrite <- Hs1, Ht.
  - intros (rest & -> & Hr). exists (lower <$> q), rest.
    by rewrite lower_fmap_idemp.
Qed.

Lemma lower_nul (c : N) : lower c = 0%N ↔ c = 0%N.
Proof. unfold lower. case_decide; lia. Qed.

Lemma c_str_lower (s : str) : c_str (lower <$> s) = lower <$> c_str s.
Proof.
  induction s as [|c s IH]; [done|]. rewrite fmap_cons. cbn [c_str].
  destruct (decide (c = 0%N)) as [->|Hc]; [done|].
  rewrite decide_False by (intros H0; by apply (proj1 (lower_nul c)) in H0). by rewrite fmap_cons, IH.
Qed.

Lemma c_str_app (a b : str) : nul_free a → c_str (a ++ b) = a ++ c_str b.
Proof.
  induction 1 as [|c a Hc Ha IH]; [done|].
  rewrite <- app_comm_cons. cbn [c_str]. by rewrite decide_False, IH.
Qed.

Lemma c_str_nul_free (s : str) : nul_free s → c_str s = s.
Proof. intros Hs. rewrite <- (app_nil_r s) at 1. rewrite c_str_app by done. apply app_nil_r. Qed.

Lemma c_str_cut (a b : str) : nul_free a → c_str (a ++ 0%N :: b) = a.
Proof. intros Ha. rewrite c_str_app by done. cbn [c_str]. apply app_nil_r. Qed.

Lemma nul_free_lower (s : str) : nul_free s → nul_free (lower <$> s).
Proof. intros Hs. apply Forall_fmap. eapply Forall_impl; [done|]. intros c Hc H0. by apply (proj1 (lower_nul c)) in H0. Qed.

(** The pattern as the engine sees it, for a query without code point 0. *)
Lemma ilike_unfold (s q : str) :
  nul_free q →
  ilike s (lit "%" ++ q ++ lit "%")
  = like (percent :: (lower <$> q) ++ [percent]) (lower <$> c_str s).
Proof.
  intros Hq. unfold ilike. rewrite c_str_lower, (c_str_lower s). f_equal.
  rewrite c_str_nul_free; [by rewrite fmap_app, fmap_app|].
  apply Forall_app. split; [by repeat constructor|].
  apply Forall_app. split; [done | by repeat constructor].
Qed.

(** Of a query with a code point 0 the engine sees what stands before
    it, and no closing [%]. *)
Lemma ilike_unfold_cut (s q1 q2 : str) :
  nul_free q1 →
  ilike s (lit "%" ++ (q1 ++ 0%N :: q2) ++ lit "%")
  = like (percent :: (lower <$> q1)) (lower <$> c_str s).
Proof.
  intros Hq. unfold ilike. rewrite c_str_lower, (c_str_lower s). f_equal.
  assert (lit "%" ++ (q1 ++ 0%N :: q2) ++ lit "%"
          = (percent :: q1) ++ 0%N :: (q2 ++ lit "%")) as ->
    by (by rewrite <- app_assoc).
  rewrite c_str_cut; [done | by constructor].
Qed.

(** With no wildcard in it, the query is searched as a substring. *)
Lemma ilike_literal_query (s q : str) :
  Forall literal q → nul_free q →
  ilike s (lit "%" ++ q ++ lit "%") = true ↔ contains_nocase (c_str s) q.
Proof.
  intros Hq Hnul. rewrite ilike_unfold, like_percent by done. unfold contains_nocase. split.
  - intros (s1 & s2 & Hs & Hp).
    assert (lowered s2) as Hl2.
    { pose proof (lowered_fmap (c_str s)) as Hl. rewrite Hs in Hl.
      by apply lowered_app in Hl as [_ ?]. }
    apply like_run in Hp as (rest & -> & _); [|done..].
    by exists s1, rest.
  - intros (pre & post & Hs). exists pre, ((lower <$> q) ++ post). split; [done|].
    assert (lowered ((lower <$> q) ++ post)) as Hl2.
    { pose proof (lowered_fmap (c_str s)) as Hl. rewrite Hs in Hl.
      by apply lowered_app in Hl as [_ ?]. }
    apply like_run; [done..|]. exists post. split; [done|]. apply like_only_percent.
Qed.

(** A [%] inside the query matches any run of characters. *)
Lemma nul_free_wildcard (q1 q2 : str) (c : N) :
  c ≠ 0%N → nul_free q1 → nul_free q2 → nul_free (q1 ++ c :: q2).
Proof. intros Hc Hq1 Hq2. apply Forall_app. split; [done | by constructor]. Qed.

Lemma ilike_percent_query (s q1 q2 : str) :
  Forall literal q1 → Forall literal q2 → nul_free q1 → nul_free q2 →
  ilike s (lit "%" ++ (q1 ++ percent :: q2) ++ lit "%") = true ↔
    ∃ pre mid post,
      lower <$> c_str s = pre ++ (lower <$> q1) ++ mid ++ (lower <$> q2) ++ post.
Proof.
  intros Hq1 Hq2 Hn1 Hn2.
  rewrite ilike_unfold by (by apply nul_free_wildcard).
  rewrite fmap_app, fmap_cons, <- app_assoc.
  change (lower percent) with percent. rewrite <- app_comm_cons.
  pose proof (lowered_fmap (c_str s)) as Hl. rewrite like_percent. split.
  - intros (s1 & s2 & Hs & Hp). rewrite Hs in Hl.
    apply lowered_app in Hl as [_ Hl].
    apply like_run in Hp as (rest & -> & Hp); [|done..].
    apply lowered_app in Hl as [_ Hl].
    apply like_percent in Hp as (mid & s3 & -> & Hp).
    apply lowered_app in Hl as [_ Hl].
    apply like_run in Hp as (post & -> & _); [|done..].
    by exists s1, mid, post.
  - intros (pre & mid & post & Hs). rewrite Hs in Hl.
    apply lowered_app in Hl as [_ Hl].
    eexists pre, _. split; [done|]. apply like_run; [done..|].
    eexists. split; [done|].
    apply lowered_app in Hl as [_ Hl].
    apply like_percent. eexists mid, _. split; [done|].
    apply lowered_app in Hl as [_ Hl].
    apply like_run; [done..|]. exists post. split; [done|]. apply like_only_percent.
Qed.

(** A [_] inside the query matches any one character. *)
Lemma ilike_underscore_query (s q1 q2 : str) :
  Forall literal q1 → Forall literal q2 → nul_free q1 → nul_free q2 →
  ilike s (lit "%" ++ (q1 ++ underscore :: q2) ++ lit "%") = true ↔
    ∃ pre x post,
      lower <$> c_str s = pre ++ (lower <$> q1) ++ [x] ++ (lower <$> q2) ++ post.
Proof.
  intros Hq1 Hq2 Hn1 Hn2.
  rewrite ilike_unfold by (by apply nul_free_wildcard).
  rewrite fmap_app, fmap_cons, <- app_assoc.
  change (lower underscore) with underscore. rewrite <- app_comm_cons.
  pose proof (lowered_fmap (c_str s)) as Hl. rewrite like_percent. split.
  - intros (s1 & s2 & Hs & Hp). rewrite Hs in Hl.
    apply lowered_app in Hl as [_ Hl].
    apply like_run in Hp as (rest & -> & Hp); [|done..].
    apply lowered_app in Hl as [_ Hl].
    apply like_underscore in Hp as (x & s3 & -> & Hp).
    apply lowered_cons in Hl.
    apply like_run in Hp as (post & -> & _); [|done..].
    by exists s1, x, post.
  - intros (pre & x & post & Hs). rewrite Hs in Hl.
    apply lowered_app in Hl as [_ Hl].
    eexists pre, _. split; [done|]. apply like_run; [done..|].
    eexists. split; [done|].
    apply lowered_app in Hl as [_ Hl].
    apply like_underscore. eexists x, _. split; [done|].
    apply lowered_cons in Hl.
    apply like_run; [done..|]. exists post. split; [done|]. apply like_only_percent.
Qed.

Lemma search_details_run (q : str) (db : Session) :
  search_details q db =
    (Return (filter (λ d, ilike (EventDetail.detail d) (lit "%" ++ q ++ lit "%"))
                    (event_details (committed db))),
     logged (Select (EventDetailsILike (lit "%" ++ q ++ lit "%"))) db).
Proof. reflexivity. Qed.

Lemma not_contains_literally (s q : str) :
  (∀ pre post, s ≠ pre ++ q ++ post) → lowered s → lowered q → ¬ contains_nocase s q.
Proof.
  intros Hs Hls Hlq (pre & post & H). rewrite Hls, Hlq in H. by eapply Hs.
Qed.

(** C7.  [GET /api/search] rejects a query of fewer than three characters
    before the query layer runs (no statement is issued); otherwise it
    runs [search_details].  For a query of at least three characters with
    no [%], no [_] and no code point 0 in it, the rows returned are
    exactly the EventDetail rows, of any event and month, whose detail, as
    far as the engine reads it (up to its first code point 0), contains
    the query as a substring up to ASCII letter case; for a detail
    without code point 0 that is the whole detail. *)
Theorem search_events_literal_query (db : Session) (q : str) :
  ((length q < 3)%nat → search_events q db = (Raise RequestValidationError, db)) ∧
  ((3 ≤ length q)%nat → search_events q db = search_details q db) ∧
  ((3 ≤ length q)%nat → Forall literal q → nul_free q →
     ∃ rows,
       search_events q db =
         (Return rows, logged (Select (EventDetailsILike (lit "%" ++ q ++ lit "%"))) db) ∧
       (∀ d, d ∈ rows ↔
             d ∈ event_details (committed db) ∧
             contains_nocase (c_str (EventDetail.detail d)) q) ∧
       (∀ d, nul_free (EventDetail.detail d) →
             d ∈ rows ↔
               d ∈ event_details (committed db) ∧
               contains_nocase (EventDetail.detail d) q)).
Proof.
  unfold search_events. split_and!.
  - intros Hlen. by rewrite decide_True.
  - intros Hlen. rewrite decide_False; [done | lia].
  - intros Hlen Hq Hnul. rewrite decide_False by lia. rewrite search_details_run.
    eexists. split_and!; [done | |].
    + intros d. rewrite list_elem_of_filter, Is_true_true, ilike_literal_query by done.
      tauto.
    + intros d Hd. rewrite list_elem_of_filter, Is_true_true, ilike_literal_query by done.
      rewrite (c_str_nul_free _ Hd). tauto.
Qed.

Lemma search_events_literal_query_witness :
  let db := new_session search_store [] (λ _, false) in
  search_events (lit "ab") db = (Raise RequestValidationError, db) ∧
  ∃ rows,
    search_events (lit "abc") db =
      (Return rows, logged (Select (EventDetailsILike (lit "%abc%"))) db) ∧
    ∀ d, d ∈ rows ↔
         d ∈ event_details search_store ∧
         contains_nocase (c_str (EventDetail.detail d)) (lit "abc").
Proof.
  intros db. split.
  - apply (search_events_literal_query db (lit "ab")). simpl. lia.
  - destruct (search_events_literal_query db (lit "abc")) as (_ & _ & Hfound).
    destruct Hfound as (rows & Hrun & Hrows & _);
      [simpl; lia | repeat constructor; discriminate | repeat constructor; discriminate |].
    by exists rows.
Defined.

(** The claim fails on a query with a wildcard in it: ["a_c"] has three
    characters and finds the detail ["abc"], which does not contain it.
    It fails on a query with a code point 0 as well: of the four
    characters [c], 0, [q], [q] the engine reads the first, and finds
    ["abc"]. *)
Lemma search_events_wildcard_counterexample :
  let db := new_session search_store [] (λ _, false) in
  let cut : str := [99; 0; 113; 113]%N in
  (3 ≤ length (lit "a_c"))%nat ∧
  EventDetail.mk 2 1 (lit "abc") ∈ event_details search_store ∧
  (search_events (lit "a_c") db).1
    = Return [EventDetail.mk 1 1 (lit "XYZabcDEF"); EventDetail.mk 2 1 (lit "abc")] ∧
  ¬ contains_nocase (lit "abc") (lit "a_c") ∧
  (3 ≤ length cut)%nat ∧ Forall literal cut ∧
  (search_events cut db).1 = Return [EventDetail.mk 2 1 (lit "abc")] ∧
  ¬ contains_nocase (lit "abc") cut.
Proof.
  intros db cut. split_and!.
  - simpl. lia.
  - vm_compute. apply list_elem_of_further, list_elem_of_here.
  - reflexivity.
  - intros (pre & post & H). vm_compute in H.
    destruct pre as [|? [|? [|? [|? ?]]]]; simplify_eq.
  - simpl. lia.
  - repeat constructor; discriminate.
  - reflexivity.
  - intros (pre & post & H). vm_compute in H.
    destruct pre as [|? [|? [|? [|? ?]]]]; simplify_eq.
Qed.

(** Of a query with a code point 0 in it, what follows the 0 is not
    matched at all, wildcards included: the text found ends with what
    stands before the 0. *)
Lemma ilike_cut_query (s q1 q2 : str) :
  Forall literal q1 → nul_free q1 →
  ilike s (lit "%" ++ (q1 ++ 0%N :: q2) ++ lit "%") = true ↔
    ∃ pre, lower <$> c_str s = pre ++ (lower <$> q1).
Proof.
  intros Hq Hnul. rewrite ilike_unfold_cut, like_percent by done.
  pose proof (lowered_fmap (c_str s)) as Hl. split.
  - intros (s1 & s2 & Hs & Hp). rewrite Hs in Hl. apply lowered_app in Hl as [_ Hl].
    rewrite <- (app_nil_r (lower <$> q1)) in Hp.
    apply like_run in Hp as (rest & -> & ->%like_nil); [|done..].
    exists s1. by rewrite app_nil_r in Hs.
  - intros (pre & Hs). exists pre, (lower <$> q1). split; [done|].
    rewrite Hs in Hl. apply lowered_app in Hl as [_ Hl].
    rewrite <- (app_nil_r (lower <$> q1)) at 1.
    apply like_run; [done..|]. exists []. by rewrite app_nil_r.
Qed.

(** C10.  [search_details] of [api/crud.py] puts the caller's query,
    unescaped, between two percent signs and matches with [ILIKE], so [%]
    and [_] inside the query are wildcards: a query [q1 % q2] without code
    point 0 finds the details in which [q1] occurs anywhere before [q2], a
    query [q1 _ q2] those where one arbitrary character separates them;
    what is matched is the detail as the engine reads it, up to its first
    code point 0.  ["a%z"] finds every such detail with an [a] somewhere
    before a [z], such as ["Amaze"], which does not contain the text
    ["a%z"].  Of a query with a code point 0 only what stands before the 0
    is matched, against the end of the detail.  The copy of the function
    in [app.py] raises for every query. *)
Theorem search_details_wildcards (db : Session) (q q1 q2 : str) (row : EventDetail.t) :
  let found x :=
    filter (λ d, ilike (EventDetail.detail d) (lit "%" ++ x ++ lit "%"))
           (event_details (committed db)) in
  let seen := lower <$> c_str (EventDetail.detail row) in
  search_details q db =
    (Return (found q), logged (Select (EventDetailsILike (lit "%" ++ q ++ lit "%"))) db) ∧
  (Forall literal q1 → Forall literal q2 → nul_free q1 → nul_free q2 →
     row ∈ found (q1 ++ percent :: q2) ↔
       row ∈ event_details (committed db) ∧
       ∃ pre mid post, seen = pre ++ (lower <$> q1) ++ mid ++ (lower <$> q2) ++ post) ∧
  (Forall literal q1 → Forall literal q2 → nul_free q1 → nul_free q2 →
     row ∈ found (q1 ++ underscore :: q2) ↔
       row ∈ event_details (committed db) ∧
       ∃ pre x post, seen = pre ++ (lower <$> q1) ++ [x] ++ (lower <$> q2) ++ post) ∧
  (Forall literal q1 → nul_free q1 →
     row ∈ found (q1 ++ 0%N :: q2) ↔
       row ∈ event_details (committed db) ∧ ∃ pre, seen = pre ++ (lower <$> q1)) ∧
  (row ∈ found (lit "a%z") ↔
     row ∈ event_details (committed db) ∧
     ∃ pre mid post, seen = pre ++ lit "a" ++ mid ++ lit "z" ++ post) ∧
  (nul_free (EventDetail.detail row) → seen = lower <$> EventDetail.detail row) ∧
  (ilike (lit "Amaze") (lit "%a%z%") = true ∧ ¬ contains_nocase (lit "Amaze") (lit "a%z")) ∧
  AppPy.search_details q db = (Raise ArgumentError, db).
Proof.
  intros found seen. unfold seen. split_and!.
  - apply search_details_run.
  - intros Hq1 Hq2 Hn1 Hn2. unfold found.
    rewrite list_elem_of_filter, Is_true_true, ilike_percent_query by done. tauto.
  - intros Hq1 Hq2 Hn1 Hn2. unfold found.
    rewrite list_elem_of_filter, Is_true_true, ilike_underscore_query by done. tauto.
  - intros Hq1 Hn1. unfold found.
    rewrite list_elem_of_filter, Is_true_true, ilike_cut_query by done. tauto.
  - unfold found. rewrite list_elem_of_filter, Is_true_true.
    change (lit "a%z") with (lit "a" ++ percent :: lit "z").
    rewrite ilike_percent_query; [tauto | repeat constructor; discriminate..].
  - intros Hrow. by rewrite c_str_nul_free.
  - reflexivity.
  - intros (pre & post & H). vm_compute in H.
    destruct pre as [|? [|? [|? [|? [|? [|? ?]]]]]]; simplify_eq.
  - reflexivity.
Qed.

Lemma search_details_wildcards_witness :
  let db := new_session search_store [] (λ _, false) in
  let found x :=
    filter (λ d, ilike (EventDetail.detail d) (lit "%" ++ x ++ lit "%"))
           (event_details search_store) in
  EventDetail.mk 4 1 (lit "Amaze") ∈ found (lit "a%z") ∧
  EventDetail.mk 2 1 (lit "abc") ∈ found (lit "a_c") ∧
  EventDetail.mk 2 1 (lit "abc") ∈ found [99; 0; 37; 113]%N.
Proof.
  intros db found. split_and!.
  - apply (search_details_wildcards db [] (lit "a") (lit "z") (EventDetail.mk 4 1 (lit "Amaze")));
      [repeat constructor; discriminate..|].
    split; [vm_compute; repeat constructor|].
    by exists [], (lit "ma"), (lit "e").
  - apply (search_details_wildcards db [] (lit "a") (lit "c") (EventDetail.mk 2 1 (lit "abc")));
      [repeat constructor; discriminate..|].
    split; [vm_compute; repeat constructor|].
    by exists [], 98%N, [].
  - apply (search_details_wildcards db [] (lit "c") [37; 113]%N (EventDetail.mk 2 1 (lit "abc")));
      [repeat constructor; discriminate..|].
    split; [vm_compute; repeat constructor|].
    by exists (lit "ab").
Defined.

(** The claim fails on a detail with a code point 0 in it: in the text
    0, [a], [z] an [a] stands before a [z], and the search for ["a%z"] does
    not return it, since the engine reads that text as empty.  It fails on
    the copy of [app.py] for any store, since that copy raises. *)
Lemma search_details_nul_counterexample :
  let hidden := EventDetail.mk 1 1 (0%N :: lit "az") in
  let db :=
    new_session (mkStore [] [Month.mk 1 (lit "Boishakh") (lit "Baishakh")]
                         [Event.mk 1 1 (lit "1")] [hidden]) [] (λ _, false) in
  EventDetail.detail hidden = [0%N] ++ lit "a" ++ [] ++ lit "z" ++ [] ∧
  (search_details (lit "a%z") db).1 = Return [] ∧
  (AppPy.search_details (lit "a%z") db).1 = Raise ArgumentError.
Proof. intros hidden db. by split_and!. Qed.

(** ** Cascading deletes *)

Lemma delete_month_run (s : Store) (l : list Stmt) (f : nat → bool) (m : Z) :
  delete_month m (new_session s l f) =
    match head (filter (λ mo, Month.id mo = m) (months s)) with
    | None => (Return None, new_session s (Select (MonthById m) :: l) f)
    | Some mo =>
        let w := Write (DeletedMonth (Month.id mo)) in
        if f (S (length l))
        then (Raise SQLAlchemyError,
              new_session s (Rollback :: w :: Select (MonthById m) :: l) f)
        else (Return (Some mo),
              new_session (apply_pending (DeletedMonth (Month.id mo)) s).1
                          (Commit :: w :: Select (MonthById m) :: l) f)
    end.
Proof.
  unfold delete_month, bind, select_month, db_select. simpl.
  destruct (head _) as [mo|]; [|reflexivity].
  unfold db_commit. simpl. by destruct (f (S (length l))).
Qed.

Lemma delete_event_run (s : Store) (l : list Stmt) (f : nat → bool) (i : Z) :
  delete_event i (new_session s l f) =
    match head (filter (λ e, Event.id e = i) (events s)) with
    | None => (Return None, new_session s (Select (EventById i) :: l) f)
    | Some e =>
        let w := Write (DeletedEvent (Event.id e)) in
        if f (S (length l))
        then (Raise SQLAlchemyError,
              new_session s (Rollback :: w :: Select (EventById i) :: l) f)
        else (Return (Some e),
              new_session (apply_pending (DeletedEvent (Event.id e)) s).1
                          (Commit :: w :: Select (EventById i) :: l) f)
    end.
Proof.
  unfold delete_event, bind, select_event, db_select. simpl.
  destruct (head _) as [e|]; [|reflexivity].
  unfold db_commit. simpl. by destruct (f (S (length l))).
Qed.

Lemma first_matching {A} (P : A → Prop) `{!∀ x, Decision (P x)} (l : list A) (x : A) :
  head (filter P l) = Some x → P x ∧ x ∈ l.
Proof. intros Hh. rewrite <- list_elem_of_filter. by apply head_Some_elem_of. Qed.

Lemma no_matching {A} (P : A → Prop) `{!∀ x, Decision (P x)} (l : list A) (x : A) :
  head (filter P l) = None → x ∈ l → ¬ P x.
Proof.
  intros Hh Hx HP. apply head_None in Hh.
  by apply (filter_nil_not_elem_of P l x).
Qed.

(** What flushing a deleted Month leaves behind. *)
Lemma cascade_month (s : Store) (m : Z) :
  let s' := (apply_pending (DeletedMonth m) s).1 in
  (∀ mo, mo ∈ months s' ↔ mo ∈ months s ∧ Month.id mo ≠ m) ∧
  (∀ e, e ∈ events s' → e ∈ events s ∧ Event.month_id e ≠ m) ∧
  (∀ d, d ∈ event_details s' →
        d ∈ event_details s ∧
        ∀ e, e ∈ events s → Event.month_id e = m → EventDetail.event_id d ≠ Event.id e) ∧
  users s' = users s.
Proof.
  simpl. split_and!.
  - intros mo. rewrite list_elem_of_filter. tauto.
  - intros e [Hid He]%list_elem_of_filter. split; [done|]. intros Hm. apply Hid.
    apply list_elem_of_fmap_2. unfold events_of_month. by apply list_elem_of_filter.
  - intros d [Hid Hd]%list_elem_of_filter. split; [done|]. intros e He Hm Heq.
    apply Hid. apply list_elem_of_fmap_2. unfold details_of_events.
    apply list_elem_of_filter. split; [|done]. rewrite Heq.
    apply list_elem_of_fmap_2. unfold events_of_month. by apply list_elem_of_filter.
  - reflexivity.
Qed.

(** What flushing a deleted Event leaves behind. *)
Lemma cascade_event (s : Store) (i : Z) :
  let s' := (apply_pending (DeletedEvent i) s).1 in
  (∀ e, e ∈ events s' ↔ e ∈ events s ∧ Event.id e ≠ i) ∧
  (∀ d, d ∈ event_details s' → d ∈ event_details s ∧ EventDetail.event_id d ≠ i) ∧
  months s' = months s ∧ users s' = users s.
Proof.
  simpl. split_and!; [| |reflexivity..].
  - intros e. rewrite list_elem_of_filter. tauto.
  - intros d [Hid Hd]%list_elem_of_filter. split; [done|]. intros Heq.
    apply Hid. apply list_elem_of_fmap_2. unfold details_of_events.
    apply list_elem_of_filter. split; [|done]. rewrite Heq. apply list_elem_of_here.
Qed.

Lemma cascade_month_integrity (s : Store) (m : Z) :
  referential_integrity s →
  referential_integrity (apply_pending (DeletedMonth m) s).1.
Proof.
  intros [Hev Hdet]. destruct (cascade_month s m) as (Hmo & He & Hd & _). split.
  - intros e [He1 He2]%He. destruct (Hev e He1) as (mo & Hmo1 & Hmo2).
    exists mo. split; [|done]. apply Hmo. split; [done | congruence].
  - intros d Hd'. destruct (Hd d Hd') as [Hd1 Hd2].
    destruct (Hdet d Hd1) as (e & He1 & He2).
    exists e. split; [|done]. simpl.
    apply list_elem_of_filter. split; [|done].
    intros (e1 & Hid & [Hm He1']%list_elem_of_filter)%list_elem_of_fmap_1.
    apply (Hd2 e1 He1' Hm). congruence.
Qed.

Lemma cascade_event_integrity (s : Store) (i : Z) :
  referential_integrity s →
  referential_integrity (apply_pending (DeletedEvent i) s).1.
Proof.
  intros [Hev Hdet]. destruct (cascade_event s i) as (He & Hd & Hmo & _). split.
  - intros e [He1 He2]%He. rewrite Hmo. by apply Hev.
  - intros d [Hd1 Hd2]%Hd. destruct (Hdet d Hd1) as (e & He1 & He2).
    exists e. split; [|done]. apply He. split; [done | congruence].
Qed.

(** C3.  A call [delete_month m] that returns leaves no Month with id
    [m]; when it deleted a Month (or, in general, on a store that satisfies
    the data-model invariant) no Event with [month_id = m] and no
    EventDetail of such an Event remains, and the invariant still holds
    afterwards, so the deletion orphans nothing.  Likewise
    [delete_event i] leaves no Event with id [i] and no EventDetail with
    [event_id = i].  Both calls return whenever the store accepts the
    delete. *)
Theorem delete_month_cascades (s : Store) (l : list Stmt) (f : nat → bool) (m i : Z) :
  let db := new_session s l f in
  (f (S (length l)) = false →
     (∃ r db', delete_month m db = (Return r, db')) ∧
     (∃ r db', delete_event i db = (Return r, db'))) ∧
  (∀ r db', delete_month m db = (Return r, db') →
     let s' := committed db' in
     r = head (filter (λ mo, Month.id mo = m) (months s)) ∧
     (∀ mo, mo ∈ months s' → Month.id mo ≠ m) ∧
     (is_Some r ∨ referential_integrity s →
        (∀ e, e ∈ events s' → Event.month_id e ≠ m) ∧
        (∀ d e, d ∈ event_details s' → e ∈ events s → Event.month_id e = m →
                EventDetail.event_id d ≠ Event.id e)) ∧
     (referential_integrity s → referential_integrity s')) ∧
  (∀ r db', delete_event i db = (Return r, db') →
     let s' := committed db' in
     r = head (filter (λ e, Event.id e = i) (events s)) ∧
     (∀ e, e ∈ events s' → Event.id e ≠ i) ∧
     (is_Some r ∨ referential_integrity s →
        ∀ d, d ∈ event_details s' → EventDetail.event_id d ≠ i) ∧
     (referential_integrity s → referential_integrity s')).
Proof.
  intros db. unfold db. split_and!.
  - intros Hf. rewrite delete_month_run, delete_event_run, Hf.
    split; [destruct (head (filter _ (months s))) | destruct (head (filter _ (events s)))];
      eauto.
  - intros r db'. rewrite delete_month_run.
    destruct (head _) as [mo|] eqn:Hhead.
    + apply first_matching in Hhead as [Hid Hmo]. simpl in Hid.
      destruct (f (S (length l))); [done|]. intros [= <- <-]. simpl committed.
      rewrite Hid. destruct (cascade_month s m) as (Hm & He & Hd & _).
      split_and!; [done| | |].
      * intros mo' Hmo'. by apply Hm in Hmo' as [_ ?].
      * intros _. split.
        -- intros e He'. by apply He in He' as [_ ?].
        -- intros d e Hd' He' Hme. apply Hd in Hd' as [_ Hd']. by apply Hd'.
      * apply cascade_month_integrity.
    + intros [= <- <-]. simpl committed. split_and!; [done| | |done].
      * intros mo Hmo. by apply (no_matching _ _ _ Hhead).
      * intros [[? [=]] | [Hev Hdet]].
        assert (∀ e, e ∈ events s → Event.month_id e ≠ m) as Hnone.
        { intros e He Hme. destruct (Hev e He) as (mo & Hmo & Hid).
          apply (no_matching _ _ mo Hhead Hmo). simpl. congruence. }
        split; [done|]. intros d e _ He Hme. by apply Hnone in He.
  - intros r db'. rewrite delete_event_run.
    destruct (head _) as [e|] eqn:Hhead.
    + apply first_matching in Hhead as [Hid He]. simpl in Hid.
      destruct (f (S (length l))); [done|]. intros [= <- <-]. simpl committed.
      rewrite Hid. destruct (cascade_event s i) as (He' & Hd & _).
      split_and!; [done| | |].
      * intros e' Hin. by apply He' in Hin as [_ ?].
      * intros _ d Hin. by apply Hd in Hin as [_ ?].
      * apply cascade_event_integrity.
    + intros [= <- <-]. simpl committed. split_and!; [done| | |done].
      * intros e He. by apply (no_matching _ _ _ Hhead).
      * intros [[? [=]] | [Hev Hdet]]. intros d Hd Hdi.
        destruct (Hdet d Hd) as (e & He & Hid).
        apply (no_matching _ _ e Hhead He). simpl. congruence.
Qed.

Lemma referential_integrity_ids (s : Store) :
  Forall (λ e, Event.month_id e ∈ Month.id <$> months s) (events s) →
  Forall (λ d, EventDetail.event_id d ∈ Event.id <$> events s) (event_details s) →
  referential_integrity s.
Proof.
  rewrite !Forall_forall. intros Hev Hdet. split.
  - intros e He. apply Hev, list_elem_of_fmap_1 in He as (mo & ? & ?). by exists mo.
  - intros d Hd. apply Hdet, list_elem_of_fmap_1 in Hd as (e & ? & ?). by exists e.
Qed.

Lemma two_months_store_integrity : referential_integrity two_months_store.
Proof.
  apply referential_integrity_ids;
    apply (bool_decide_unpack _); vm_compute; exact I.
Qed.

Lemma delete_month_cascades_witness :
  let s' := (apply_pending (DeletedMonth 1) two_months_store).1 in
  (∃ r db', delete_month 1 (new_session two_months_store [] (λ _, false)) = (Return r, db')) ∧
  (∀ e, e ∈ events s' → Event.month_id e ≠ 1) ∧
  (∀ d e, d ∈ event_details s' → e ∈ events two_months_store → Event.month_id e = 1 →
          EventDetail.event_id d ≠ Event.id e) ∧
  referential_integrity s'.
Proof.
  intros s'.
  destruct (delete_month_cascades two_months_store [] (λ _, false) 1 1) as (Hret & Hm & _).
  destruct (Hm (Some (Month.mk 1 (lit "Boishakh") (lit "Baishakh")))
               (new_session s' [Commit; Write (DeletedMonth 1); Select (MonthById 1)]
                            (λ _, false)) eq_refl) as (_ & _ & Hcascade & Hinv).
  split_and!.
  - by apply Hret.
  - apply Hcascade. left. by eexists.
  - apply Hcascade. left. by eexists.
  - apply Hinv, two_months_store_integrity.
Defined.

(** ** Renaming a month *)

Lemma head_renamed (m : Z) (month : MonthBase) (rows : list Month.t) :
  is_Some (head (filter (λ mo, Month.id mo = m) rows)) →
  head (filter (λ mo, Month.id mo = m) (renamed m month <$> rows))
    = Some (Month.mk m (mb_month_bn month) (mb_month_en month)).
Proof.
  induction rows as [|mo rows IH]; [by intros [? [=]]|].
  rewrite fmap_cons. destruct (decide (Month.id mo = m)) as [Hid|Hid].
  - intros _. assert (renamed m month mo = Month.mk m (mb_month_bn month) (mb_month_en month))
      as -> by (unfold renamed; by rewrite decide_True).
    by rewrite filter_cons_True.
  - assert (renamed m month mo = mo) as -> by (unfold renamed; by rewrite decide_False).
    rewrite !filter_cons_False by done. apply IH.
Qed.

Lemma update_month_run (s : Store) (l : list Stmt) (f : nat → bool) (m : Z)
    (month : MonthBase) :
  update_month m month (new_session s l f) =
    match head (filter (λ mo, Month.id mo = m) (months s)) with
    | None => (Return None, new_session s (Select (MonthById m) :: l) f)
    | Some _ =>
        let w := Write (DirtyMonth m (mb_month_bn month) (mb_month_en month)) in
        if f (S (length l))
        then (Raise SQLAlchemyError,
              new_session s (Rollback :: w :: Select (MonthById m) :: l) f)
        else (Return (Some (Month.mk m (mb_month_bn month) (mb_month_en month))),
              new_session (mkStore (users s) (renamed m month <$> months s)
                                   (events s) (event_details s))
                          (Select (MonthById m) :: Commit :: w :: Select (MonthById m) :: l) f)
    end.
Proof.
  unfold update_month, bind, select_month, db_select. simpl.
  destruct (head _) as [mo|] eqn:Hhead; [|reflexivity].
  pose proof (first_matching _ _ _ Hhead) as [Hid _]. simpl in Hid. rewrite Hid.
  unfold db_commit. simpl. destruct (f (S (length l))); [reflexivity|].
  unfold db_refresh, bind, select_month, db_select. simpl.
  fold (renamed m month). rewrite head_renamed; [reflexivity|]. by rewrite Hhead.
Qed.

(** C9.  [update_month m month] on a store with no Month of id [m]
    returns [None] and leaves the store as it was.  When the Month exists
    (and the store accepts the update) it returns the Month with its two
    name fields overwritten; the months table is the old one with exactly
    the names of the rows of id [m] replaced, every other Month row is
    untouched, and the events (those of month [m] included), event details
    and users are unchanged.  Whatever the outcome, nothing but those two
    fields can differ afterwards. *)
Theorem update_month_frame (s : Store) (l : list Stmt) (f : nat → bool) (m : Z)
    (month : MonthBase) :
  let db := new_session s l f in
  let found := head (filter (λ mo, Month.id mo = m) (months s)) in
  let new := Month.mk m (mb_month_bn month) (mb_month_en month) in
  (found = None →
     ∃ db', update_month m month db = (Return None, db') ∧ committed db' = s) ∧
  (is_Some found → f (S (length l)) = false →
     ∃ db', update_month m month db = (Return (Some new), db') ∧
            months (committed db') = renamed m month <$> months s) ∧
  (∀ o db', update_month m month db = (o, db') →
     let s' := committed db' in
     users s' = users s ∧ events s' = events s ∧ event_details s' = event_details s ∧
     events_of_month s' m = events_of_month s m ∧
     (s' = s ∨ months s' = renamed m month <$> months s) ∧
     Month.id <$> months s' = Month.id <$> months s ∧
     (∀ k mo, months s !! k = Some mo →
        months s' !! k = Some mo ∨
        (Month.id mo = m ∧ months s' !! k = Some new))).
Proof.
  intros db found new. unfold db, found. rewrite update_month_run.
  assert (Month.id <$> (renamed m month <$> months s) = Month.id <$> months s) as Hids.
  { rewrite <- list_fmap_compose. apply list_fmap_ext. intros _ mo _. simpl.
    unfold renamed. by case_decide. }
  assert (∀ k mo, months s !! k = Some mo →
            (renamed m month <$> months s) !! k = Some mo ∨
            (Month.id mo = m ∧ (renamed m month <$> months s) !! k = Some new)) as Hrows.
  { intros k mo Hk. rewrite list_lookup_fmap, Hk. simpl. unfold renamed.
    case_decide; [right | left]; done. }
  split_and!.
  - intros ->. by eexists.
  - intros [mo ->] ->. by eexists.
  - intros o db'. destruct (head _) as [mo|].
    + destruct (f (S (length l))); intros [= <- <-]; simpl;
        split_and!; auto.
    + intros [= <- <-]. simpl. split_and!; auto.
Qed.

Lemma update_month_frame_witness :
  ∃ db',
    update_month 2 (mkMonthBase (lit "Ashar") (lit "Ashar"))
                 (new_session two_months_store [] (λ _, false))
      = (Return (Some (Month.mk 2 (lit "Ashar") (lit "Ashar"))), db') ∧
    months (committed db')
      = [Month.mk 1 (lit "Boishakh") (lit "Baishakh"); Month.mk 2 (lit "Ashar") (lit "Ashar")] ∧
    events (committed db') = events two_months_store ∧
    (∃ db'', update_month 9 (mkMonthBase (lit "Ashar") (lit "Ashar"))
                          (new_session two_months_store [] (λ _, false))
               = (Return None, db'') ∧ committed db'' = two_months_store).
Proof.
  pose proof (update_month_frame two_months_store [] (λ _, false) 2
                (mkMonthBase (lit "Ashar") (lit "Ashar"))) as (_ & Hsome & Hframe).
  destruct Hsome as (db' & Hrun & Hmonths); [by eexists | reflexivity |].
  exists db'. split_and!; [done | by rewrite Hmonths | by apply (Hframe _ _ Hrun) |].
  apply (update_month_frame two_months_store [] (λ _, false) 9). reflexivity.
Defined.

(** ** Nested creation *)

Lemma next_id_fresh (ids : list Z) (i : Z) : i ∈ ids → i < next_id ids.
Proof.
  unfold next_id. induction ids as [|j ids IH]; [by intros ?%elem_of_nil|].
  intros [->|Hi]%elem_of_cons; simpl; [lia|]. apply IH in Hi. lia.
Qed.

Lemma refresh_fresh_row {A} (key : A → Z) (rows : list A) (new : A) :
  key new = next_id (key <$> rows) →
  head (filter (λ r, key r = key new) (rows ++ [new])) = Some new.
Proof.
  intros Hkey. rewrite filter_app.
  assert (filter (λ r, key r = key new) rows = []) as ->.
  { apply head_None. destruct (head _) eqn:Hh; [|done].
    apply first_matching in Hh as [Hk Hin]. simpl in Hk.
    apply (list_elem_of_fmap_2 key), next_id_fresh in Hin. lia. }
  by rewrite filter_cons_True.
Qed.

Lemma for_each_add_details (event_id : Z) (details : list str) (s : Store)
    (ps : list Pending) (l : list Stmt) (f : nat → bool) :
  for_each details (λ detail, db_add (NewEventDetail detail event_id))
           (mkSession s ps l f)
  = (Return tt,
     mkSession s (ps ++ ((λ detail, NewEventDetail detail event_id) <$> details)) l f).
Proof.
  revert ps. induction details as [|d details IH]; intros ps.
  - simpl. by rewrite app_nil_r.
  - simpl. unfold bind, db_add at 1. simpl. rewrite IH. by rewrite <- app_assoc.
Qed.

Lemma flush_details (f : nat → bool) (event_id : Z) (details : list str) (w : Store)
    (l : list Stmt) (keys : list Z) :
  ∃ l',
    (flush f ((λ detail, NewEventDetail detail event_id) <$> details) w l keys = (None, l')
     ∧ ∃ n, f n = true) ∨
    ∃ keys',
      flush f ((λ detail, NewEventDetail detail event_id) <$> details) w l keys
        = (Some (add_details event_id details w, keys'), l').
Proof.
  revert w l keys. induction details as [|d details IH]; intros w l keys.
  - exists l. right. by exists keys.
  - rewrite fmap_cons. cbn [flush]. destruct (f (length l)) eqn:Hf.
    + eexists. left. split; [done | by eexists].
    + cbn [apply_pending]. apply IH.
Qed.

Lemma flush_details_ok (f : nat → bool) (event_id : Z) (details : list str) (w : Store)
    (l : list Stmt) (keys : list Z) :
  (∀ n, f n = false) →
  ∃ l' keys',
    flush f ((λ detail, NewEventDetail detail event_id) <$> details) w l keys
      = (Some (add_details event_id details w, keys'), l').
Proof.
  intros Hf. destruct (flush_details f event_id details w l keys)
    as (l' & [(_ & n & Hn) | (keys' & Hok)]).
  - by rewrite Hf in Hn.
  - by exists l', keys'.
Qed.

Lemma persist_event (s : Store) (l : list Stmt) (f : nat → bool) (day : str) (month_id : Z)
    {A} (k : Event.t → M A) :
  let row := Event.mk (next_id (Event.id <$> events s)) month_id day in
  let w := Write (NewEvent day month_id) in
  (db_add (NewEvent day month_id) ;;;
   let! keys := db_commit in
   let! db_event := db_refresh (select_event (primary_key keys)) in
   k db_event) (new_session s l f)
  = if f (length l)
    then (Raise SQLAlchemyError, new_session s (Rollback :: w :: l) f)
    else k row (new_session (apply_pending (NewEvent day month_id) s).1
                            (Select (EventById (Event.id row)) :: Commit :: w :: l) f).
Proof.
  intros row w. unfold bind at 1. unfold db_add at 1. cbn [new_session pending app committed log fault].
  unfold bind at 1. unfold db_commit at 1. cbn [pending committed log fault flush].
  destruct (f (length l)); [reflexivity|].
  cbn [apply_pending app]. unfold bind at 1, db_refresh at 1, bind at 1.
  unfold select_event, db_select.
  cbn [committed events primary_key head default from_option id].
  pose proof (refresh_fresh_row Event.id (events s) row eq_refl) as Hrow.
  unfold row in *. cbn [Event.id] in Hrow. rewrite Hrow. reflexivity.
Qed.

Lemma persist_month (s : Store) (l : list Stmt) (f : nat → bool) (bn en : str)
    {A} (k : Month.t → M A) :
  let row := Month.mk (next_id (Month.id <$> months s)) bn en in
  let w := Write (NewMonth bn en) in
  (db_add (NewMonth bn en) ;;;
   let! keys := db_commit in
   let! db_month := db_refresh (select_month (primary_key keys)) in
   k db_month) (new_session s l f)
  = if f (length l)
    then (Raise SQLAlchemyError, new_session s (Rollback :: w :: l) f)
    else k row (new_session (apply_pending (NewMonth bn en) s).1
                            (Select (MonthById (Month.id row)) :: Commit :: w :: l) f).
Proof.
  intros row w. unfold bind at 1. unfold db_add at 1. cbn [new_session pending app committed log fault].
  unfold bind at 1. unfold db_commit at 1. cbn [pending committed log fault flush].
  destruct (f (length l)); [reflexivity|].
  cbn [apply_pending app]. unfold bind at 1, db_refresh at 1, bind at 1.
  unfold select_month, db_select.
  cbn [committed months primary_key head default from_option id].
  pose proof (refresh_fresh_row Month.id (months s) row eq_refl) as Hrow.
  unfold row in *. cbn [Month.id] in Hrow. rewrite Hrow. reflexivity.
Qed.

Lemma commit_details_run (s : Store) (l : list Stmt) (f : nat → bool) (event_id : Z)
    (details : list str) :
  (for_each details (λ detail, db_add (NewEventDetail detail event_id)) ;;;
   db_commit ;;; ret tt) (new_session s l f)
  = match flush f ((λ detail, NewEventDetail detail event_id) <$> details) s l [] with
    | (Some (w, _), l') => (Return tt, new_session w (Commit :: l') f)
    | (None, l') => (Raise SQLAlchemyError, new_session s (Rollback :: l') f)
    end.
Proof.
  unfold bind at 1. unfold new_session. rewrite for_each_add_details. simpl app.
  unfold bind, db_commit. cbn [pending committed log fault].
  by destruct (flush _ _ _ _ _) as [[[w keys]|] l'].
Qed.

Lemma commit_details (s : Store) (l : list Stmt) (f : nat → bool) (event_id : Z)
    (details : list str) :
  let batch :=
    for_each details (λ detail, db_add (NewEventDetail detail event_id)) ;;;
    db_commit ;;; ret tt in
  ∃ l',
    (batch (new_session s l f) = (Raise SQLAlchemyError, new_session s l' f)
     ∧ ∃ n, f n = true)
    ∨ batch (new_session s l f)
      = (Return tt, new_session (add_details event_id details s) l' f).
Proof.
  intros batch. unfold batch. rewrite commit_details_run.
  destruct (flush_details f event_id details s l []) as (l' & [(-> & Hn) | (keys' & ->)]).
  - exists (Rollback :: l'). by left.
  - exists (Commit :: l'). by right.
Qed.

Lemma event_loop (month_id : Z) (evs : list EventCreate) (s : Store) (l : list Stmt)
    (f : nat → bool) :
  ∃ o l' s',
    for_each evs (λ event_data,
      db_add (NewEvent (ec_day event_data) month_id) ;;;
      let! keys := db_commit in
      let! db_event := db_refresh (select_event (primary_key keys)) in
      for_each (ec_details event_data) (λ detail,
        db_add (NewEventDetail detail (Event.id db_event))) ;;;
      db_commit ;;;
      ret tt) (new_session s l f)
    = (o, new_session s' l' f) ∧
    ((o = Return tt ∧ s' = default s (last (event_checkpoints month_id evs s)))
     ∨ (o = Raise SQLAlchemyError
        ∧ s' ∈ s :: event_checkpoints month_id evs s
        ∧ ∃ n, f n = true)).
Proof.
  revert s l. induction evs as [|ev evs IH]; intros s l.
  - exists (Return tt), l, s. split; [done | by left].
  - cbn [for_each]. unfold bind at 1.
    rewrite (persist_event s l f (ec_day ev) month_id
               (λ db_event,
                  for_each (ec_details ev) (λ detail,
                    db_add (NewEventDetail detail (Event.id db_event))) ;;;
                  db_commit ;;; ret tt)).
    cbn [event_checkpoints apply_pending fst Event.id].
    set (eid := next_id (Event.id <$> events s)).
    set (s1 := mkStore (users s) (months s) (events s ++ [Event.mk eid month_id (ec_day ev)])
                       (event_details s)).
    destruct (f (length l)) eqn:Hf.
    + eexists _, _, s. split; [reflexivity|]. right.
      split_and!; [done | apply list_elem_of_here | by eexists].
    + destruct (commit_details s1 (Select (EventById eid) :: Commit ::
                                   Write (NewEvent (ec_day ev) month_id) :: l)
                               f eid (ec_details ev)) as (l1 & [[-> Hn] | ->]).
      * exists (Raise SQLAlchemyError), l1, s1. split; [done|]. right.
        split_and!; [done | | done].
        apply list_elem_of_further, list_elem_of_here.
      * set (s2 := add_details eid (ec_details ev) s1).
        destruct (IH s2 l1) as (o & l' & s' & -> & Hcases).
        exists o, l', s'. split; [done|].
        destruct Hcases as [[-> ->] | (-> & Hin & Hn)].
        -- left. split; [done|].
           rewrite last_cons, last_cons. by destruct (last (event_checkpoints month_id evs s2)).
        -- right. split_and!; [done | | done].
           apply elem_of_cons in Hin as [->|Hin].
           ++ do 2 apply list_elem_of_further. apply list_elem_of_here.
           ++ by do 3 apply list_elem_of_further.
Qed.

Lemma add_details_cons (event_id : Z) (d : str) (details : list str) (s : Store) :
  add_details event_id (d :: details) s
  = add_details event_id details
      (mkStore (users s) (months s) (events s)
         (event_details s ++
            [EventDetail.mk (next_id (EventDetail.id <$> event_details s)) event_id d])).
Proof. reflexivity. Qed.

Lemma add_details_rows (event_id : Z) (details : list str) (s : Store) :
  ∃ rows,
    add_details event_id details s
      = mkStore (users s) (months s) (events s) (event_details s ++ rows) ∧
    EventDetail.detail <$> rows = details ∧
    Forall (λ d, EventDetail.event_id d = event_id) rows.
Proof.
  revert s. induction details as [|d details IH]; intros s.
  - exists []. rewrite app_nil_r. by destruct s.
  - rewrite add_details_cons.
    destruct (IH (mkStore (users s) (months s) (events s)
                    (event_details s ++
                       [EventDetail.mk (next_id (EventDetail.id <$> event_details s))
                                       event_id d]))) as (rows & Hs & Hd & Hid).
    eexists (_ :: rows). rewrite Hs. cbn.
    rewrite <- app_assoc. split_and!; [done | by rewrite Hd | by constructor].
Qed.

Lemma default_last_cons {A} (x y : A) (l : list A) :
  default x (last (y :: l)) = default y (last l).
Proof. rewrite last_cons. by destruct (last l). Qed.

(** The last checkpoint holds every row of the tree. *)
Lemma event_checkpoints_rows (month_id : Z) (evs : list EventCreate) (s : Store) :
  let final := default s (last (event_checkpoints month_id evs s)) in
  ∃ new_events new_details,
    final = mkStore (users s) (months s) (events s ++ new_events)
                    (event_details s ++ new_details) ∧
    Event.day <$> new_events = ec_day <$> evs ∧
    Forall (λ e, Event.month_id e = month_id) new_events ∧
    EventDetail.detail <$> new_details = concat (ec_details <$> evs) ∧
    Forall (λ d, EventDetail.event_id d ∈ Event.id <$> new_events) new_details.
Proof.
  revert s. induction evs as [|ev evs IH]; intros s.
  - exists [], []. rewrite !app_nil_r. by destruct s.
  - cbn [event_checkpoints apply_pending].
    set (eid := next_id (Event.id <$> events s)).
    set (s1 := mkStore (users s) (months s) (events s ++ [Event.mk eid month_id (ec_day ev)])
                       (event_details s)).
    destruct (add_details_rows eid (ec_details ev) s1) as (rows & Hs2 & Hrows & Hids).
    set (s2 := add_details eid (ec_details ev) s1) in *.
    destruct (IH s2) as (new_events & new_details & Hfinal & Hdays & Hmonth & Hdet & Hev).
    cbn zeta. rewrite !default_last_cons.
    exists (Event.mk eid month_id (ec_day ev) :: new_events), (rows ++ new_details).
    rewrite Hfinal, Hs2. cbn. rewrite <- !app_assoc. split_and!.
    + done.
    + by rewrite Hdays.
    + by constructor.
    + by rewrite fmap_app, Hrows, Hdet.
    + apply Forall_app. split.
      * eapply Forall_impl; [done|]. intros d ->. apply list_elem_of_here.
      * eapply Forall_impl; [done|]. intros d Hd. by apply list_elem_of_further.
Qed.

Lemma event_checkpoints_months (month_id : Z) (evs : list EventCreate) (s c : Store) :
  c ∈ s :: event_checkpoints month_id evs s → months c = months s.
Proof.
  revert s. induction evs as [|ev evs IH]; intros s.
  - by intros ->%list_elem_of_singleton.
  - cbn [event_checkpoints apply_pending].
    set (eid := next_id (Event.id <$> events s)).
    set (s1 := mkStore (users s) (months s) (events s ++ [Event.mk eid month_id (ec_day ev)])
                       (event_details s)).
    destruct (add_details_rows eid (ec_details ev) s1) as (rows & Hs2 & _).
    intros [->|[->|Hc]%elem_of_cons]%elem_of_cons; [done..|].
    rewrite (IH _ Hc), Hs2. done.
Qed.

Lemma default_last_elem_of {A} (x : A) (l : list A) : default x (last l) ∈ x :: l.
Proof.
  revert x. induction l as [|y l IH]; intros x; [apply list_elem_of_here|].
  rewrite default_last_cons. apply list_elem_of_further, IH.
Qed.

Lemma create_month_outcomes (s : Store) (l : list Stmt) (f : nat → bool)
    (month : MonthCreate) :
  let row := Month.mk (next_id (Month.id <$> months s)) (mc_month_bn month) (mc_month_en month) in
  ∃ o l' s',
    create_month month (new_session s l f) = (o, new_session s' l' f) ∧
    ((o = Return row ∧ s' = default s (last (checkpoints month s)))
     ∨ (o = Raise SQLAlchemyError
        ∧ s' ∈ s :: checkpoints month s
        ∧ (∃ n, f n = true)
        ∧ ((f (length l) = true ∧ s' = s) ∨ months s' = months s ++ [row]))).
Proof.
  intros row. unfold create_month.
  rewrite (persist_month s l f (mc_month_bn month) (mc_month_en month)
             (λ db_month,
                for_each (mc_events month) (λ event_data,
                  db_add (NewEvent (ec_day event_data) (Month.id db_month)) ;;;
                  let! keys := db_commit in
                  let! db_event := db_refresh (select_event (primary_key keys)) in
                  for_each (ec_details event_data) (λ detail,
                    db_add (NewEventDetail detail (Event.id db_event))) ;;;
                  db_commit ;;;
                  ret tt) ;;;
                db_refresh (select_month (Month.id db_month)))).
  unfold checkpoints. cbn [apply_pending fst Month.id]. fold row.
  set (mid := next_id (Month.id <$> months s)).
  set (s0 := mkStore (users s) (months s ++ [row]) (events s) (event_details s)).
  destruct (f (length l)) eqn:Hf.
  - eexists _, _, s. split; [reflexivity|]. right.
    split_and!; [done | apply list_elem_of_here | by eexists | by left].
  - unfold bind at 1.
    destruct (event_loop mid (mc_events month) s0
                (Select (MonthById mid) :: Commit ::
                 Write (NewMonth (mc_month_bn month) (mc_month_en month)) :: l) f)
      as (o & l' & s' & -> & [[-> ->] | (-> & Hin & Hn)]).
    + pose proof (default_last_elem_of s0 (event_checkpoints mid (mc_events month) s0)) as Hin.
      apply event_checkpoints_months in Hin.
      unfold db_refresh, bind, select_month, db_select.
      cbn [committed new_session]. rewrite Hin. cbn [months s0].
      pose proof (refresh_fresh_row Month.id (months s) row eq_refl) as Hrow.
      cbn [Month.id row] in Hrow. fold mid in Hrow. rewrite Hrow.
      eexists _, _, _. split; [reflexivity|]. left. split; [done|].
      by rewrite default_last_cons.
    + exists (Raise SQLAlchemyError), l', s'. split; [done|]. right.
      split_and!; [done | by apply list_elem_of_further | done |].
      right. by apply event_checkpoints_months in Hin.
Qed.


(** ** Commits counted *)

Lemma flush_commits (f : nat → bool) (ps : list Pending) (w : Store) (l : list Stmt)
    (keys : list Z) :
  commits (flush f ps w l keys).2 = commits l.
Proof.
  revert w l keys. induction ps as [|p ps IH]; intros w l keys; [done|].
  cbn [flush]. destruct (f (length l)); [done|].
  destruct (apply_pending p w) as [w' key]. by rewrite IH.
Qed.

Lemma commit_details_steps (s : Store) (l : list Stmt) (f : nat → bool) (event_id : Z)
    (details : list str) :
  let batch :=
    for_each details (λ detail, db_add (NewEventDetail detail event_id)) ;;;
    db_commit ;;; ret tt in
  ∃ l',
    (batch (new_session s l f) = (Raise SQLAlchemyError, new_session s l' f)
     ∧ commits l' = commits l ∧ ∃ n, f n = true)
    ∨ (batch (new_session s l f)
       = (Return tt, new_session (add_details event_id details s) l' f)
       ∧ commits l' = S (commits l)).
Proof.
  intros batch. unfold batch. rewrite commit_details_run.
  pose proof (flush_commits f ((λ detail, NewEventDetail detail event_id) <$> details)
                s l []) as Hcount.
  destruct (flush_details f event_id details s l []) as (l' & [(Hrun & Hn) | (keys' & Hrun)]);
    rewrite Hrun in *; cbn [snd] in Hcount.
  - exists (Rollback :: l'). left. by split_and!.
  - exists (Commit :: l'). right. split; [done|]. cbn [commits]. by rewrite Hcount.
Qed.

(** The loop over the events stops at the checkpoint that as many
    commits as went through have reached. *)
Lemma event_loop_steps (month_id : Z) (evs : list EventCreate) (s : Store) (l : list Stmt)
    (f : nat → bool) :
  ∃ o l' s' k,
    for_each evs (λ event_data,
      db_add (NewEvent (ec_day event_data) month_id) ;;;
      let! keys := db_commit in
      let! db_event := db_refresh (select_event (primary_key keys)) in
      for_each (ec_details event_data) (λ detail,
        db_add (NewEventDetail detail (Event.id db_event))) ;;;
      db_commit ;;;
      ret tt) (new_session s l f)
    = (o, new_session s' l' f) ∧
    commits l' = (commits l + k)%nat ∧
    (s :: event_checkpoints month_id evs s) !! k = Some s' ∧
    ((o = Return tt ∧ k = (2 * length evs)%nat)
     ∨ (o = Raise SQLAlchemyError ∧ ∃ n, f n = true)).
Proof.
  revert s l. induction evs as [|ev evs IH]; intros s l.
  - exists (Return tt), l, s, 0%nat. split_and!; [done | lia | done | by left].
  - cbn [for_each]. unfold bind at 1.
    rewrite (persist_event s l f (ec_day ev) month_id
               (λ db_event,
                  for_each (ec_details ev) (λ detail,
                    db_add (NewEventDetail detail (Event.id db_event))) ;;;
                  db_commit ;;; ret tt)).
    cbn [event_checkpoints apply_pending fst Event.id].
    set (eid := next_id (Event.id <$> events s)).
    set (s1 := mkStore (users s) (months s) (events s ++ [Event.mk eid month_id (ec_day ev)])
                       (event_details s)).
    destruct (f (length l)) eqn:Hf.
    + eexists _, _, s, 0%nat. split; [reflexivity|].
      split_and!; [cbn [commits]; lia | done | right; split; [done | by eexists]].
    + destruct (commit_details_steps s1 (Select (EventById eid) :: Commit ::
                                         Write (NewEvent (ec_day ev) month_id) :: l)
                                     f eid (ec_details ev))
        as (l1 & [(-> & Hl1 & Hn) | (-> & Hl1)]); cbn [commits] in Hl1.
      * exists (Raise SQLAlchemyError), l1, s1, 1%nat.
        split_and!; [done | lia | done | by right].
      * set (s2 := add_details eid (ec_details ev) s1).
        destruct (IH s2 l1) as (o & l' & s' & k & -> & Hl' & Hk & Hcases).
        exists o, l', s', (2 + k)%nat. split_and!; [done | lia | done |].
        destruct Hcases as [[-> ->] | (-> & Hn)]; [left | by right].
        split; [done|]. cbn [length]. lia.
Qed.

Lemma create_month_steps (s : Store) (l : list Stmt) (f : nat → bool) (month : MonthCreate) :
  ∃ o l' s' k,
    create_month month (new_session s l f) = (o, new_session s' l' f) ∧
    commits l' = (commits l + k)%nat ∧
    (s :: checkpoints month s) !! k = Some s'.
Proof.
  unfold create_month.
  rewrite (persist_month s l f (mc_month_bn month) (mc_month_en month)
             (λ db_month,
                for_each (mc_events month) (λ event_data,
                  db_add (NewEvent (ec_day event_data) (Month.id db_month)) ;;;
                  let! keys := db_commit in
                  let! db_event := db_refresh (select_event (primary_key keys)) in
                  for_each (ec_details event_data) (λ detail,
                    db_add (NewEventDetail detail (Event.id db_event))) ;;;
                  db_commit ;;;
                  ret tt) ;;;
                db_refresh (select_month (Month.id db_month)))).
  unfold checkpoints. cbn [apply_pending fst Month.id].
  set (mid := next_id (Month.id <$> months s)).
  set (row := Month.mk mid (mc_month_bn month) (mc_month_en month)).
  set (s0 := mkStore (users s) (months s ++ [row]) (events s) (event_details s)).
  destruct (f (length l)) eqn:Hf.
  - eexists _, _, s, 0%nat. split; [reflexivity|]. split; [cbn [commits]; lia | done].
  - unfold bind at 1.
    destruct (event_loop_steps mid (mc_events month) s0
                (Select (MonthById mid) :: Commit ::
                 Write (NewMonth (mc_month_bn month) (mc_month_en month)) :: l) f)
      as (o & l' & s' & k & -> & Hl' & Hk & Hcases). cbn [commits] in Hl'.
    destruct o as [[]|e].
    + unfold db_refresh, bind, select_month, db_select. cbn [committed new_session logged].
      destruct (head _).
      * eexists _, _, s', (1 + k)%nat. split; [reflexivity|].
        split; [cbn [commits log new_session]; lia | done].
      * eexists _, _, s', (1 + k)%nat. split; [reflexivity|].
        split; [cbn [commits log new_session]; lia | done].
    + eexists _, _, s', (1 + k)%nat. split; [reflexivity|]. split; [lia | done].
Qed.

(** ** Nothing committed is taken back *)

Lemma extends_refl (s : Store) : extends s s.
Proof. by split_and!. Qed.

Lemma extends_trans (s1 s2 s3 : Store) : extends s1 s2 → extends s2 s3 → extends s1 s3.
Proof.
  intros (Hu & Hm & He & Hd) (Hu' & Hm' & He' & Hd'). split_and!.
  - congruence.
  - by etrans.
  - by etrans.
  - by etrans.
Qed.

Lemma extends_chain (x y : Store) (cs : list Store) :
  extends x y →
  (∀ i j ci cj, (i ≤ j)%nat → (y :: cs) !! i = Some ci → (y :: cs) !! j = Some cj →
                extends ci cj) →
  ∀ i j ci cj, (i ≤ j)%nat → (x :: y :: cs) !! i = Some ci → (x :: y :: cs) !! j = Some cj →
               extends ci cj.
Proof.
  intros Hxy Hcs [|i] [|j] ci cj Hij Hi Hj; [| | lia |].
  - simplify_eq/=. apply extends_refl.
  - simplify_eq/=. eapply extends_trans; [exact Hxy|].
    apply (Hcs 0%nat j y cj); [lia | done | done].
  - apply (Hcs i j); [lia | done..].
Qed.

Lemma event_checkpoints_grow (month_id : Z) (evs : list EventCreate) (s : Store) :
  ∀ i j ci cj, (i ≤ j)%nat →
    (s :: event_checkpoints month_id evs s) !! i = Some ci →
    (s :: event_checkpoints month_id evs s) !! j = Some cj →
    extends ci cj.
Proof.
  revert s. induction evs as [|ev evs IH]; intros s.
  - intros [|i] [|j] ci cj _ Hi Hj; simplify_eq/=. apply extends_refl.
  - cbn [event_checkpoints apply_pending].
    set (eid := next_id (Event.id <$> events s)).
    set (s1 := mkStore (users s) (months s) (events s ++ [Event.mk eid month_id (ec_day ev)])
                       (event_details s)).
    apply extends_chain; [split_and!; [done | done | by eexists | done]|].
    apply extends_chain; [|apply IH].
    destruct (add_details_rows eid (ec_details ev) s1) as (rows & -> & _).
    split_and!; [done | done | done | by eexists].
Qed.

Lemma checkpoints_grow (month : MonthCreate) (s : Store) :
  ∀ i j ci cj, (i ≤ j)%nat →
    (s :: checkpoints month s) !! i = Some ci →
    (s :: checkpoints month s) !! j = Some cj →
    extends ci cj.
Proof.
  unfold checkpoints. cbn [apply_pending].
  apply extends_chain; [split_and!; [done | by eexists | done | done]|].
  apply event_checkpoints_grow.
Qed.

Lemma event_checkpoints_length (month_id : Z) (evs : list EventCreate) (s : Store) :
  length (event_checkpoints month_id evs s) = (2 * length evs)%nat.
Proof.
  revert s. induction evs as [|ev evs IH]; intros s; [done|].
  cbn [event_checkpoints apply_pending length]. rewrite IH. lia.
Qed.

(** ** The copy in [app.py] *)

Lemma app_details_run (s : Store) (l : list Stmt) (f : nat → bool) (event_id : Z)
    (details : list str) :
  (for_each details (λ detail,
     let! db_detail := AppPy.EventDetail_schema detail event_id in
     db_add db_detail) ;;;
   db_commit ;;; ret tt) (new_session s l f)
  = match details with
    | [] => (Return tt, new_session s (Commit :: l) f)
    | _ :: _ => (Raise ValidationError, new_session s l f)
    end.
Proof. by destruct details. Qed.

(** The loop of [create_month_db] stores the Event rows only, and stops
    with [ValidationError] at the first event that has a detail. *)
Lemma app_event_loop (month_id : Z) (evs : list EventCreate) (s : Store) (l : list Stmt)
    (f : nat → bool) :
  let bare := (λ ev, mkEventCreate (ec_day ev) []) <$> evs in
  ∃ o l' s' k,
    for_each evs (λ event_data,
      db_add (NewEvent (ec_day event_data) month_id) ;;;
      let! keys := db_commit in
      let! db_event := db_refresh (select_event (primary_key keys)) in
      for_each (ec_details event_data) (λ detail,
        let! db_detail := AppPy.EventDetail_schema detail (Event.id db_event) in
        db_add db_detail) ;;;
      db_commit ;;;
      ret tt) (new_session s l f)
    = (o, new_session s' l' f) ∧
    commits l' = (commits l + k)%nat ∧
    (s :: event_checkpoints month_id bare s) !! k = Some s' ∧
    ((o = Return tt ∧ k = (2 * length evs)%nat ∧ Forall (λ ev, ec_details ev = []) evs)
     ∨ (o = Raise SQLAlchemyError ∧ ∃ n, f n = true)
     ∨ (o = Raise ValidationError ∧ Exists (λ ev, ec_details ev ≠ []) evs ∧ (1 ≤ k)%nat)).
Proof.
  revert s l. induction evs as [|ev evs IH]; intros s l bare.
  - exists (Return tt), l, s, 0%nat. split_and!; [done | lia | done | by left].
  - cbn [for_each]. unfold bind at 1.
    rewrite (persist_event s l f (ec_day ev) month_id
               (λ db_event,
                  for_each (ec_details ev) (λ detail,
                    let! db_detail := AppPy.EventDetail_schema detail (Event.id db_event) in
                    db_add db_detail) ;;;
                  db_commit ;;; ret tt)).
    unfold bare. rewrite fmap_cons.
    cbn [event_checkpoints apply_pending fst Event.id ec_day ec_details add_details foldl].
    set (eid := next_id (Event.id <$> events s)).
    set (s1 := mkStore (users s) (months s) (events s ++ [Event.mk eid month_id (ec_day ev)])
                       (event_details s)).
    destruct (f (length l)) eqn:Hf.
    + eexists _, _, s, 0%nat. split; [reflexivity|].
      split_and!; [cbn [commits]; lia | done | right; left; split; [done | by eexists]].
    + rewrite app_details_run. destruct (ec_details ev) as [|d details] eqn:Hdetails.
      * destruct (IH s1 (Commit :: Select (EventById eid) :: Commit ::
                         Write (NewEvent (ec_day ev) month_id) :: l))
          as (o & l' & s' & k & -> & Hl' & Hk & Hcases). cbn [commits] in Hl'.
        exists o, l', s', (2 + k)%nat. split_and!; [done | lia | done |].
        destruct Hcases as [(-> & -> & Hall) | [(-> & Hn) | (-> & Hsome & Hk1)]].
        -- left. split_and!; [done | cbn [length]; lia | by constructor].
        -- right. by left.
        -- right. right. split_and!; [done | by apply Exists_cons_tl | lia].
      * eexists _, _, s1, 1%nat. split; [reflexivity|].
        split_and!; [cbn [commits]; lia | done |].
        right. right. split_and!; [done | | lia].
        apply Exists_cons_hd. by rewrite Hdetails.
Qed.

Lemma lookup_checkpoint_months (month_id : Z) (evs : list EventCreate) (s c : Store)
    (k : nat) :
  (s :: event_checkpoints month_id evs s) !! k = Some c → months c = months s.
Proof. intros Hk. eapply event_checkpoints_months, list_elem_of_lookup_2, Hk. Qed.

Lemma lookup_checkpoint_bare_details (month_id : Z) (evs : list EventCreate) (s c : Store)
    (k : nat) :
  (s :: event_checkpoints month_id ((λ ev, mkEventCreate (ec_day ev) []) <$> evs) s) !! k
    = Some c →
  event_details c = event_details s.
Proof.
  revert s k. induction evs as [|ev evs IH]; intros s k.
  - destruct k as [|[|k]]; intros; by simplify_eq/=.
  - rewrite fmap_cons.
    cbn [event_checkpoints apply_pending ec_day ec_details add_details foldl].
    destruct k as [|[|k]]; [by intros [= <-] | by intros [= <-] |].
    intros Hk. by rewrite (IH _ k Hk).
Qed.

Lemma create_month_db_steps (s : Store) (l : list Stmt) (f : nat → bool)
    (month : MonthCreate) :
  let row := Month.mk (next_id (Month.id <$> months s)) (mc_month_bn month) (mc_month_en month) in
  ∃ o l' s' k,
    AppPy.create_month_db month (new_session s l f) = (o, new_session s' l' f) ∧
    commits l' = (commits l + k)%nat ∧
    (s :: checkpoints (without_details month) s) !! k = Some s' ∧
    ((o = Return row ∧ k = (1 + 2 * length (mc_events month))%nat ∧
      Forall (λ ev, ec_details ev = []) (mc_events month))
     ∨ (o = Raise SQLAlchemyError ∧ ∃ n, f n = true)
     ∨ (o = Raise ValidationError ∧ Exists (λ ev, ec_details ev ≠ []) (mc_events month) ∧
        (2 ≤ k)%nat ∧ months s' = months s ++ [row])).
Proof.
  intros row. unfold AppPy.create_month_db.
  rewrite (persist_month s l f (mc_month_bn month) (mc_month_en month)
             (λ db_month,
                for_each (mc_events month) (λ event_data,
                  db_add (NewEvent (ec_day event_data) (Month.id db_month)) ;;;
                  let! keys := db_commit in
                  let! db_event := db_refresh (select_event (primary_key keys)) in
                  for_each (ec_details event_data) (λ detail,
                    let! db_detail := AppPy.EventDetail_schema detail (Event.id db_event) in
                    db_add db_detail) ;;;
                  db_commit ;;;
                  ret tt) ;;;
                db_refresh (select_month (Month.id db_month)))).
  unfold checkpoints, without_details.
  cbn [apply_pending fst Month.id mc_month_bn mc_month_en mc_events]. fold row.
  set (mid := next_id (Month.id <$> months s)).
  set (s0 := mkStore (users s) (months s ++ [row]) (events s) (event_details s)).
  destruct (f (length l)) eqn:Hf.
  - eexists _, _, s, 0%nat. split; [reflexivity|].
    split_and!; [cbn [commits]; lia | done | right; left; split; [done | by eexists]].
  - unfold bind at 1.
    destruct (app_event_loop mid (mc_events month) s0
                (Select (MonthById mid) :: Commit ::
                 Write (NewMonth (mc_month_bn month) (mc_month_en month)) :: l) f)
      as (o & l' & s' & k & -> & Hl' & Hk & Hcases). cbn [commits] in Hl'.
    pose proof (lookup_checkpoint_months _ _ _ _ _ Hk) as Hmonths. cbn [months s0] in Hmonths.
    destruct Hcases as [(-> & -> & Hall) | [(-> & Hn) | (-> & Hsome & Hk1)]].
    + unfold db_refresh, bind, select_month, db_select.
      cbn [committed new_session logged]. rewrite Hmonths.
      pose proof (refresh_fresh_row Month.id (months s) row eq_refl) as Hrow.
      cbn [Month.id row] in Hrow. fold mid in Hrow. rewrite Hrow.
      eexists _, _, s', (1 + 2 * length (mc_events month))%nat. split; [reflexivity|].
      split_and!; [cbn [commits log new_session]; lia | done |].
      left. split_and!; [done | lia | done].
    + eexists _, _, s', (1 + k)%nat. split; [reflexivity|].
      split_and!; [lia | done | by right; left].
    + eexists _, _, s', (1 + k)%nat. split; [reflexivity|].
      split_and!; [lia | done |]. right. right. split_and!; [done | done | lia | done].
Qed.

(** C2.  [create_month] commits after the Month row, after each Event
    row and after each Event's details.  When the store fails no insert,
    the call returns the new Month and every row of the tree is stored:
    one Month, one Event per input event with its day and the new month's
    id, and every detail string, each attached to one of the new events.
    Whatever happens, the store afterwards is the checkpoint reached by
    the commits that went through, counted in the statement log: the store
    before the call when none did, the last checkpoint exactly when the
    call returns.  Each checkpoint holds every row of the checkpoints
    before it, so nothing an earlier commit stored is taken back when a
    later insert fails.  When the call raises, either the first insert
    failed and the store is unchanged, or the Month row that was already
    committed stays visible.  The copy [create_month_db] of [app.py]
    commits in the same steps but stores no detail: it returns only for a
    tree without details, and for any other tree raises at the first
    detail, with the Month and the Events committed until then left in
    the store. *)
Theorem create_month_commits_stepwise (s : Store) (l : list Stmt) (f : nat → bool)
    (month : MonthCreate) :
  let db := new_session s l f in
  let row := Month.mk (next_id (Month.id <$> months s)) (mc_month_bn month) (mc_month_en month) in
  let final := default s (last (checkpoints month s)) in
  let steps db' := (commits (log db') - commits l)%nat in
  ((∀ n, f n = false) →
     ∃ db', create_month month db = (Return row, db') ∧ committed db' = final) ∧
  (∀ o db', create_month month db = (o, db') →
     committed db' ∈ s :: checkpoints month s ∧
     (s :: checkpoints month s) !! steps db' = Some (committed db') ∧
     (∀ r, o = Return r → r = row ∧ committed db' = final) ∧
     (∀ e, o = Raise e →
        (f (length l) = true ∧ committed db' = s)
        ∨ months (committed db') = months s ++ [row])) ∧
  (∀ i j ci cj, (i ≤ j)%nat →
     (s :: checkpoints month s) !! i = Some ci →
     (s :: checkpoints month s) !! j = Some cj →
     extends ci cj) ∧
  (∃ new_events new_details,
     final = mkStore (users s) (months s ++ [row]) (events s ++ new_events)
                     (event_details s ++ new_details) ∧
     Event.day <$> new_events = ec_day <$> mc_events month ∧
     Forall (λ e, Event.month_id e = Month.id row) new_events ∧
     EventDetail.detail <$> new_details = concat (ec_details <$> mc_events month) ∧
     Forall (λ d, EventDetail.event_id d ∈ Event.id <$> new_events) new_details) ∧
  (∀ o db', AppPy.create_month_db month db = (o, db') →
     (s :: checkpoints (without_details month) s) !! steps db' = Some (committed db') ∧
     event_details (committed db') = event_details s ∧
     (∀ r, o = Return r →
        r = row ∧ Forall (λ ev, ec_details ev = []) (mc_events month) ∧
        steps db' = (1 + 2 * length (mc_events month))%nat) ∧
     ((∀ n, f n = false) → Exists (λ ev, ec_details ev ≠ []) (mc_events month) →
        o = Raise ValidationError ∧ (2 ≤ steps db')%nat ∧
        months (committed db') = months s ++ [row])).
Proof.
  intros db row final steps.
  destruct (create_month_outcomes s l f month) as (o & l' & s' & Hrun & Hcases).
  fold row in Hcases. fold db in Hrun. split_and!.
  - intros Hf. destruct Hcases as [[-> ->] | (_ & _ & [n Hn] & _)].
    + by eexists.
    + by rewrite Hf in Hn.
  - intros o' db'. rewrite Hrun. intros [= <- <-]. cbn [committed new_session].
    assert ((s :: checkpoints month s) !! steps (new_session s' l' f) = Some s') as Hsteps.
    { destruct (create_month_steps s l f month) as (o2 & l2 & s2 & k & Hrun2 & Hl2 & Hk).
      fold db in Hrun2. rewrite Hrun in Hrun2. injection Hrun2 as _ -> ->.
      unfold steps. cbn [log new_session]. by replace (commits l2 - commits l)%nat with k by lia. }
    destruct Hcases as [[-> ->] | (-> & Hin & _ & Hvis)].
    + split_and!.
      * apply default_last_elem_of.
      * done.
      * by intros r [= <-].
      * intros e [=].
    + split_and!; [done | done | intros r [=] | by intros e _].
  - apply checkpoints_grow.
  - unfold final, checkpoints. cbn [apply_pending]. rewrite default_last_cons.
    destruct (event_checkpoints_rows (Month.id row) (mc_events month)
                (mkStore (users s) (months s ++ [row]) (events s) (event_details s)))
      as (new_events & new_details & Hfinal & Hrest).
    exists new_events, new_details. by split.
  - intros o' db'.
    destruct (create_month_db_steps s l f month)
      as (o2 & l2 & s2 & k & Hrun2 & Hl2 & Hk & Hcases2).
    fold db in Hrun2. fold row in Hcases2. rewrite Hrun2. intros [= <- <-].
    assert (steps (new_session s2 l2 f) = k) as Hsteps
      by (unfold steps; cbn [log new_session]; lia).
    rewrite Hsteps. cbn [committed new_session].
    pose proof Hk as Hk'. unfold checkpoints, without_details in Hk'.
    cbn [apply_pending mc_month_bn mc_month_en mc_events] in Hk'.
    split_and!.
    + done.
    + destruct k as [|k]; [by injection Hk' as <-|].
      by rewrite (lookup_checkpoint_bare_details _ _ _ _ _ Hk').
    + intros r ->. destruct Hcases2 as [(? & ? & ?) | [(? & _) | (? & _)]]; simplify_eq.
      done.
    + intros Hf Hsome.
      destruct Hcases2 as [(_ & _ & Hall) | [(_ & n & Hn) | (-> & _ & ? & ?)]].
      * apply Exists_exists in Hsome as (ev & Hev & Hne).
        rewrite Forall_forall in Hall. destruct Hne. by apply Hall.
      * by rewrite Hf in Hn.
      * done.
Qed.

Lemma create_month_commits_stepwise_witness :
  let db := new_session two_months_store [] (λ _, false) in
  ∃ db',
    create_month nested_month db = (Return (Month.mk 3 (lit "Ashar") (lit "Ashar")), db') ∧
    committed db' = default two_months_store (last (checkpoints nested_month two_months_store)) ∧
    events (committed db')
      = events two_months_store ++ [Event.mk 4 3 (lit "1"); Event.mk 5 3 (lit "2")] ∧
    event_details (committed db')
      = event_details two_months_store
        ++ [EventDetail.mk 6 4 (lit "a"); EventDetail.mk 7 5 (lit "b")].
Proof.
  intros db.
  destruct (create_month_commits_stepwise two_months_store [] (λ _, false) nested_month)
    as (Hok & _).
  destruct (Hok (λ _, eq_refl)) as (db' & Hrun & Hfinal).
  exists db'. split_and!; [done.. | by rewrite Hfinal | by rewrite Hfinal].
Defined.

(** The claim fails when the store rejects the detail of the second
    event: the call raises, and the Month, both Events and the first
    Event's detail, all written by this call, are in the store.  On the
    copy of [app.py] it fails with no insert rejected: the call raises at
    the first detail, and the Month and the first Event are in the
    store. *)
Lemma create_month_partial_counterexample :
  let db := new_session empty_store [] (λ n, Nat.eqb n 11) in
  let run := create_month nested_month db in
  let app_run :=
    AppPy.create_month_db nested_month (new_session empty_store [] (λ _, false)) in
  run.1 = Raise SQLAlchemyError ∧
  take 2 (log run.2) = [Rollback; Write (NewEventDetail (lit "b") 2)] ∧
  committed run.2
    = mkStore [] [Month.mk 1 (lit "Ashar") (lit "Ashar")]
              [Event.mk 1 1 (lit "1"); Event.mk 2 1 (lit "2")]
              [EventDetail.mk 1 1 (lit "a")] ∧
  committed run.2 ≠ committed db ∧
  app_run.1 = Raise ValidationError ∧
  committed app_run.2
    = mkStore [] [Month.mk 1 (lit "Ashar") (lit "Ashar")] [Event.mk 1 1 (lit "1")] [].
Proof.
  intros db run app_run. split_and!; by vm_compute.
Qed.

(** ** Token service *)

Section TokenLaws.
Context `{Jose, Settings, CryptContext}.

Lemma exp_ne_sub : lit "exp" ≠ lit "sub".
Proof. by vm_compute. Qed.

(** The claims of a token issued for [username] that expires at [expire]. *)
Lemma jwt_encode_access (username : str) (expire : datetime) (key : str) :
  jwt_encode (<[lit "exp" := VDatetime expire]> {[ lit "sub" := VStr username ]}) key
  = jws_sign (issued_claims username (timegm expire)) key.
Proof.
  unfold jwt_encode, issued_claims.
  apply (f_equal (λ claims, jws_sign claims key)). cbn [foldr].
  rewrite (lookup_insert_ne _ (lit "exp") (lit "nbf")) by (by vm_compute).
  rewrite (lookup_singleton_ne (lit "sub") (lit "nbf")) by (by vm_compute).
  rewrite (lookup_insert_ne _ (lit "exp") (lit "iat")) by (by vm_compute).
  rewrite (lookup_singleton_ne (lit "sub") (lit "iat")) by (by vm_compute).
  rewrite lookup_insert_eq. by rewrite insert_insert_eq.
Qed.

Lemma create_access_token_claims (username : str) (expires_delta : option timedelta)
    (now : datetime) :
  create_access_token {[ lit "sub" := VStr username ]} expires_delta now
  = jws_sign (issued_claims username (timegm (now + effective_ttl expires_delta)))
             SECRET_KEY.
Proof.
  unfold create_access_token, effective_ttl. rewrite jwt_encode_access.
  destruct expires_delta as [delta|]; [|done]. by case_decide.
Qed.

Lemma validate_issued (username : str) (exp : Z) (now : datetime) :
  validate_exp (issued_claims username exp) now
    = (if decide (exp < timegm now) then Raise JWTError else Return tt) ∧
  validate_sub (issued_claims username exp) = Return tt.
Proof.
  unfold validate_exp, validate_sub, issued_claims. rewrite lookup_insert_eq.
  rewrite lookup_insert_ne by apply exp_ne_sub. by rewrite lookup_singleton_eq.
Qed.

Lemma jwt_decode_issued `{!JoseSound} (username : str) (exp : Z) (key : str)
    (now : datetime) :
  jwt_decode (jws_sign (issued_claims username exp) key) key now
  = if decide (exp < timegm now) then Raise JWTError
    else Return (issued_claims username exp).
Proof.
  unfold jwt_decode. rewrite jws_verify_sign.
  destruct (validate_issued username exp now) as [-> ->]. by case_decide.
Qed.

Lemma login_for_access_token_run (username password : str) (now : datetime)
    (db : Session) :
  login_for_access_token username password now db =
    let db' := logged (Select (UserByUsername username)) db in
    let incorrect :=
      HTTPException 401 (lit "Incorrect username or password") www_authenticate in
    match head (filter (λ u, User.username u = username) (users (committed db))) with
    | None => (Raise incorrect, db')
    | Some u =>
        match pwd_context_verify password (User.hashed_password u) with
        | Raise e => (Raise e, db')
        | Return false => (Raise incorrect, db')
        | Return true =>
            (Return (mkToken
                       (jws_sign (issued_claims username (timegm (now + minutes 30)))
                                 SECRET_KEY)
                       (lit "bearer")), db')
        end
    end.
Proof.
  unfold login_for_access_token, bind, get_user, select_user, db_select, lift.
  cbn [committed logged]. destruct (head _) as [u|] eqn:Hu; [|reflexivity].
  apply first_matching in Hu as [Hname _]. simpl in Hname.
  unfold verify_password. destruct (pwd_context_verify _ _) as [[|]|e]; [|reflexivity..].
  cbn [negb]. rewrite create_access_token_claims, Hname. reflexivity.
Qed.

Lemma login_submit_run (username password : str) (now : datetime) (db : Session) :
  login_submit username password now db =
    let db' := logged (Select (UserByUsername username)) db in
    let invalid :=
      TemplateResponse (lit "login.html") (Some (lit "Invalid credentials")) in
    match head (filter (λ u, User.username u = username) (users (committed db))) with
    | None => (Return invalid, db')
    | Some u =>
        match pwd_context_verify password (User.hashed_password u) with
        | Raise e => (Raise e, db')
        | Return false => (Return invalid, db')
        | Return true =>
            (Return (RedirectResponse (lit "/dashboard") 303
                       (Some (lit "access_token",
                              lit "Bearer " ++
                              jws_sign (issued_claims username (timegm (now + minutes 15)))
                                       SECRET_KEY))), db')
        end
    end.
Proof.
  unfold login_submit, bind, get_user, select_user, db_select, lift.
  cbn [committed logged]. destruct (head _) as [u|] eqn:Hu; [|reflexivity].
  apply first_matching in Hu as [Hname _]. simpl in Hname.
  unfold verify_password. destruct (pwd_context_verify _ _) as [[|]|e]; [|reflexivity..].
  cbn [negb]. rewrite create_access_token_claims, Hname. reflexivity.
Qed.

Lemma timegm_mono (a b : datetime) : a ≤ b → timegm a ≤ timegm b.
Proof. unfold timegm. intros. by apply Z.div_le_mono. Qed.

Lemma timegm_next_second (a b : datetime) : a + 1000000 ≤ b → timegm a < timegm b.
Proof.
  unfold timegm. intros Hab.
  assert (a `div` 1000000 + 1 ≤ b `div` 1000000); [|lia].
  replace (a `div` 1000000 + 1) with ((a + 1 * 1000000) `div` 1000000)
    by (rewrite Z.div_add; lia).
  apply Z.div_le_mono; lia.
Qed.
End TokenLaws.

Section TokenLifetime.
Context `{Jose, !JoseSound, Settings, CryptContext}.

(** C6.  A token issued by [POST /token] carries as expiry the whole
    second of issue time + 30 minutes, a token issued without a ttl (the
    dashboard login) the whole second of issue time + 15 minutes; both
    logins do issue one when the user exists and the password verifies.
    A token issued with a non-zero ttl [t] (a zero ttl counts as none)
    validates exactly as long as the current whole second is not past
    the encoded one: at every time strictly before issue time + [t], and
    still at issue time + [t] itself, and no longer one second later. *)
Theorem access_token_lifetime (db : Session) (username password : str)
    (issue now : datetime) (ttl : timedelta) :
  let api_token :=
    jws_sign (issued_claims username (timegm (issue + minutes 30))) SECRET_KEY in
  let cookie_token :=
    jws_sign (issued_claims username (timegm (issue + minutes 15))) SECRET_KEY in
  let redirect :=
    RedirectResponse (lit "/dashboard") 303
      (Some (lit "access_token", lit "Bearer " ++ cookie_token)) in
  (∀ tok db', login_for_access_token username password issue db = (Return tok, db') →
     tok = mkToken api_token (lit "bearer")) ∧
  (∀ url code cookie db',
     login_submit username password issue db
       = (Return (RedirectResponse url code cookie), db') →
     RedirectResponse url code cookie = redirect) ∧
  (∀ u, head (filter (λ u, User.username u = username) (users (committed db))) = Some u →
        pwd_context_verify password (User.hashed_password u) = Return true →
     (login_for_access_token username password issue db).1
       = Return (mkToken api_token (lit "bearer")) ∧
     (login_submit username password issue db).1 = Return redirect) ∧
  create_access_token {[ lit "sub" := VStr username ]} None issue = cookie_token ∧
  create_access_token {[ lit "sub" := VStr username ]} (Some 0) issue = cookie_token ∧
  (ttl ≠ 0 →
     let token := create_access_token {[ lit "sub" := VStr username ]} (Some ttl) issue in
     let claims := issued_claims username (timegm (issue + ttl)) in
     token = jws_sign claims SECRET_KEY ∧
     (timegm now ≤ timegm (issue + ttl) → jwt_decode token SECRET_KEY now = Return claims) ∧
     (timegm (issue + ttl) < timegm now → jwt_decode token SECRET_KEY now = Raise JWTError) ∧
     (now < issue + ttl → jwt_decode token SECRET_KEY now = Return claims) ∧
     (issue + ttl + 1000000 ≤ now → jwt_decode token SECRET_KEY now = Raise JWTError) ∧
     jwt_decode token SECRET_KEY (issue + ttl) = Return claims).
Proof.
  intros api_token cookie_token redirect. split_and!.
  - intros tok db'. rewrite login_for_access_token_run. cbn zeta.
    destruct (head _) as [u|]; [|by intros [=]].
    destruct (pwd_context_verify _ _) as [[|]|e]; intros [=]. by subst.
  - intros url code cookie db'. rewrite login_submit_run. cbn zeta.
    destruct (head _) as [u|]; [|by intros [=]].
    destruct (pwd_context_verify _ _) as [[|]|e]; intros [=]. by subst.
  - intros u Hu Hok. rewrite login_for_access_token_run, login_submit_run. cbn zeta.
    by rewrite Hu, Hok.
  - apply create_access_token_claims.
  - apply create_access_token_claims.
  - intros Httl. cbn zeta. rewrite create_access_token_claims.
    unfold effective_ttl. rewrite decide_True by done.
    assert (∀ t, timegm t ≤ timegm (issue + ttl) →
              jwt_decode (jws_sign (issued_claims username (timegm (issue + ttl))) SECRET_KEY)
                         SECRET_KEY t
              = Return (issued_claims username (timegm (issue + ttl)))) as Hvalid.
    { intros t Ht. rewrite jwt_decode_issued. rewrite decide_False; [done | lia]. }
    assert (∀ t, timegm (issue + ttl) < timegm t →
              jwt_decode (jws_sign (issued_claims username (timegm (issue + ttl))) SECRET_KEY)
                         SECRET_KEY t
              = Raise JWTError) as Hexpired.
    { intros t Ht. rewrite jwt_decode_issued. by rewrite decide_True. }
    split_and!; [done | apply Hvalid | apply Hexpired | | |].
    + intros Hnow. apply Hvalid, timegm_mono. lia.
    + intros Hnow. by apply Hexpired, timegm_next_second.
    + by apply Hvalid.
Qed.
End TokenLifetime.

(** The idealised signing layer verifies what it signed. *)
Lemma ideal_jose_sound : @JoseSound ideal_jose.
Proof.
  intros claims key. simpl. rewrite decode_encode. by rewrite decide_True.
Qed.

Lemma access_token_lifetime_witness :
  let token :=
    @create_access_token ideal_jose test_settings
      {[ lit "sub" := VStr (lit "admin") ]} (Some (minutes 30)) 0 in
  (@login_for_access_token ideal_jose test_settings test_crypt
     (lit "admin") (lit "password123") 0 (new_session admin_store [] (λ _, false))).1
    = Return (mkToken token (lit "bearer")) ∧
  @jwt_decode ideal_jose token (@SECRET_KEY test_settings) (minutes 30 - 1)
    = Return (issued_claims (lit "admin") 1800) ∧
  @jwt_decode ideal_jose token (@SECRET_KEY test_settings) (minutes 30 + 1000000)
    = Raise JWTError.
Proof.
  intros token.
  pose proof (@access_token_lifetime ideal_jose ideal_jose_sound test_settings test_crypt
                (new_session admin_store [] (λ _, false))
                (lit "admin") (lit "password123") 0) as Hlife.
  split_and!.
  - destruct (Hlife 0 (minutes 30)) as (_ & _ & Hlogin & _).
    destruct (Hlogin (User.mk 1 (lit "admin")
                        (@get_password_hash test_crypt (lit "password123") (lit "NaCl"))))
      as [-> _]; [reflexivity | reflexivity |].
    unfold token. by rewrite (@create_access_token_claims ideal_jose test_settings).
  - destruct (Hlife (minutes 30 - 1) (minutes 30)) as (_ & _ & _ & _ & _ & Hval).
    by apply Hval.
  - destruct (Hlife (minutes 30 + 1000000) (minutes 30)) as (_ & _ & _ & _ & _ & Hval).
    by apply Hval.
Defined.

(** The claim fails at the boundary: thirty minutes after it was issued
    with a ttl of thirty minutes, the token still validates. *)
Lemma token_valid_at_expiry_counterexample :
  let issue := 0 in
  let ttl := minutes 30 in
  let token :=
    @create_access_token ideal_jose test_settings
      {[ lit "sub" := VStr (lit "admin") ]} (Some ttl) issue in
  issue + ttl ≤ issue + ttl ∧
  @jwt_decode ideal_jose token (@SECRET_KEY test_settings) (issue + ttl)
    = Return (issued_claims (lit "admin") 1800).
Proof.
  intros issue ttl token. split; [done|].
  unfold token. rewrite create_access_token_claims.
  rewrite (@jwt_decode_issued ideal_jose ideal_jose_sound). reflexivity.
Qed.

(** ** Password hashing *)


Section PasswordHashing.
Context `{Jose, Settings, CryptContext}.
Context `{!Passlib}.


End PasswordHashing.



(** ** Auth gate *)

Section AuthGate.
Context `{Jose, Settings}.

Lemma oauth2_scheme_run (authorization : option str) :
  oauth2_scheme authorization =
    if decide (lower <$> (get_authorization_scheme_param authorization).1 = lit "bearer")
    then Return (get_authorization_scheme_param authorization).2
    else Raise (HTTPException 401 (lit "Not authenticated") www_authenticate).
Proof.
  unfold oauth2_scheme. destruct authorization as [[|c h]|]; [done| |done].
  destruct (get_authorization_scheme_param (Some (c :: h))) as [scheme param].
  cbn [fst snd]. case_decide.
  - by rewrite bool_decide_false by (by intros ?).
  - by rewrite bool_decide_true.
Qed.

Lemma get_current_user_run (token : str) (now : datetime) (db : Session) :
  get_current_user token now db =
    match jwt_decode token SECRET_KEY now with
    | Raise JWTError => (Raise credentials_exception, db)
    | Raise e => (Raise e, db)
    | Return payload =>
        match payload !! lit "sub" with
        | None | Some VNone => (Raise credentials_exception, db)
        | Some (VStr username) =>
            let db' := logged (Select (UserByUsername username)) db in
            match head (filter (λ u, User.username u = username) (users (committed db))) with
            | Some user => (Return user, db')
            | None => (Raise credentials_exception, db')
            end
        | Some _ => (Raise ValidationError, db)
        end
    end.
Proof.
  unfold get_current_user, bind, try_except, lift.
  destruct (jwt_decode token SECRET_KEY now) as [payload|e].
  - destruct (payload !! lit "sub") as [[username|n|dt|]|]; try reflexivity.
    unfold ret, select_user, db_select. cbn [committed logged].
    by destruct (head _).
  - by destruct e.
Qed.






Lemma bearer_header (t : str) :
  get_authorization_scheme_param (Some (lit "Bearer " ++ t)) = (lit "Bearer", t).
Proof. reflexivity. Qed.


Lemma admin_route_run {A} (authorization : option str) (now : datetime)
    (endpoint : M A) (db : Session) :
  admin_route authorization now endpoint db =
    if decide (lower <$> (get_authorization_scheme_param authorization).1 = lit "bearer")
    then
      match get_current_user (get_authorization_scheme_param authorization).2 now db with
      | (Return _, db') => endpoint db'
      | (Raise e, db') => (Raise e, db')
      end
    else (Raise (HTTPException 401 (lit "Not authenticated") www_authenticate), db).
Proof.
  unfold admin_route, bind, lift. rewrite oauth2_scheme_run. by case_decide.
Qed.

End AuthGate.

Section BearerPath.
Context `{Jose, Settings}.

End BearerPath.



Section CookiePath.
Context `{Jose, Settings}.

Lemma get_current_user_from_cookie_run (cookies : gmap str str) (now : datetime)
    (db : Session) :
  get_current_user_from_cookie cookies now db =
    match cookies !! lit "access_token" with
    | None | Some [] => (Return None, db)
    | Some cookie =>
        match jwt_decode (cookie_token cookie) SECRET_KEY now with
        | Raise _ => (Return None, db)
        | Return payload =>
            match payload !! lit "sub" with
            | Some (VStr (c :: username)) =>
                (Return (head (filter (λ u, User.username u = c :: username)
                                      (users (committed db)))),
                 logged (Select (UserByUsername (c :: username))) db)
            | _ => (Return None, db)
            end
        end
    end.
Proof.
  unfold get_current_user_from_cookie.
  destruct (cookies !! lit "access_token") as [[|c cookie]|]; [done| |done].
  unfold try_except, bind, lift. fold (cookie_token (c :: cookie)).
  destruct (jwt_decode _ _ _) as [payload|e]; [|done].
  by destruct (payload !! lit "sub") as [[[|x username]|n|dt|]|].
Qed.

Lemma cookie_token_strips (t : str) : cookie_token (lit "Bearer " ++ t) = t.
Proof. reflexivity. Qed.

(** C5.  Resolving the dashboard user from the [access_token] cookie
    never raises and never changes the store.  It yields no user when
    the cookie is absent, when validating the token fails in any way,
    and when no User has the token's subject as username; a user it
    yields is a stored User named by the subject of a token that
    validated.  The token validated is the cookie value with a leading
    ["Bearer "] removed, or the whole value when it has no such prefix.
    The variant of [api/routers/dashboard.py] likewise turns every
    exception of the helper it calls into no user. *)
Theorem cookie_path_lenient (cookies : gmap str str) (now : datetime) (db : Session)
    (auth_get_current_user : str → M User.t) :
  let cookie := cookies !! lit "access_token" in
  let run := get_current_user_from_cookie cookies now db in
  let run_router :=
    dashboard_get_current_user_from_cookie auth_get_current_user cookies db in
  let user_named username :=
    head (filter (λ u, User.username u = username) (users (committed db))) in
  (∃ r db', run = (Return r, db') ∧ committed db' = committed db) ∧
  (cookie = None → run = (Return None, db)) ∧
  (∀ c e, cookie = Some c → jwt_decode (cookie_token c) SECRET_KEY now = Raise e →
     run = (Return None, db)) ∧
  (∀ c claims username, cookie = Some c →
     jwt_decode (cookie_token c) SECRET_KEY now = Return claims →
     claims !! lit "sub" = Some (VStr username) → user_named username = None →
     run.1 = Return None) ∧
  (∀ user db', run = (Return (Some user), db') →
     ∃ c claims, cookie = Some c ∧
       jwt_decode (cookie_token c) SECRET_KEY now = Return claims ∧
       claims !! lit "sub" = Some (VStr (User.username user)) ∧
       user ∈ users (committed db)) ∧
  (∀ c claims username user, cookie = Some c → c ≠ [] →
     jwt_decode (cookie_token c) SECRET_KEY now = Return claims →
     claims !! lit "sub" = Some (VStr username) → username ≠ [] →
     user_named username = Some user →
     run.1 = Return (Some user)) ∧
  (∀ t, cookie_token (lit "Bearer " ++ t) = t) ∧
  (∀ c, startswith c (lit "Bearer ") = false → cookie_token c = c) ∧
  (∃ r db', run_router = (Return r, db')) ∧
  (cookie = None → run_router = (Return None, db)) ∧
  (∀ c e db', cookie = Some c → c ≠ [] →
     auth_get_current_user (cookie_token c) db = (Raise e, db') →
     run_router = (Return None, db')) ∧
  (∀ c user db', cookie = Some c → c ≠ [] →
     auth_get_current_user (cookie_token c) db = (Return user, db') →
     run_router = (Return (Some user), db')).
Proof.
  intros cookie run run_router user_named. subst cookie run run_router user_named.
  rewrite get_current_user_from_cookie_run. cbn beta. split_and!.
  - destruct (cookies !! lit "access_token") as [[|c t]|]; [by eexists _, _..| |by eexists _, _].
    destruct (jwt_decode _ _ _) as [payload|e]; [|by eexists _, _].
    destruct (payload !! lit "sub") as [[[|x username]|n|dt|]|]; by eexists _, _.
  - by intros ->.
  - intros c e -> ->. by destruct c.
  - intros c claims username -> -> -> Hu. destruct c; [done|].
    destruct username; [done|]. cbn [fst]. by rewrite Hu.
  - intros user db'.
    destruct (cookies !! lit "access_token") as [[|c t]|]; [done..| |done].
    destruct (jwt_decode _ _ _) as [payload|e] eqn:Hdec; [|done].
    destruct (payload !! lit "sub") as [[[|x username]|n|dt|]|] eqn:Hsub; try done.
    intros [= Hu <-]. apply first_matching in Hu as [Hname Hin]. simpl in Hname.
    exists (c :: t), payload. by rewrite Hname.
  - intros c claims username user -> Hc -> -> Hn Hu. destruct c; [done|].
    destruct username; [done|]. cbn [fst]. by rewrite Hu.
  - apply cookie_token_strips.
  - intros c Hc. unfold cookie_token. by rewrite Hc.
  - unfold dashboard_get_current_user_from_cookie.
    destruct (cookies !! lit "access_token") as [[|c t]|]; [by eexists _, _..| |by eexists _, _].
    unfold try_except, bind. fold (cookie_token (c :: t)).
    destruct (auth_get_current_user _ _) as [[user|e] db']; by eexists _, _.
  - unfold dashboard_get_current_user_from_cookie. by intros ->.
  - unfold dashboard_get_current_user_from_cookie.
    intros c e db' -> Hc Hauth. destruct c as [|x t]; [done|].
    unfold try_except, bind. fold (cookie_token (x :: t)). by rewrite Hauth.
  - unfold dashboard_get_current_user_from_cookie.
    intros c user db' -> Hc Hauth. destruct c as [|x t]; [done|].
    unfold try_except, bind. fold (cookie_token (x :: t)). by rewrite Hauth.
Qed.
End CookiePath.

Lemma cookie_path_lenient_witness :
  let db := new_session admin_store [] (λ _, false) in
  let token := @jws_sign ideal_jose (issued_claims (lit "admin") 900) (@SECRET_KEY test_settings) in
  let stale := @jws_sign ideal_jose (issued_claims (lit "root") 900) (@SECRET_KEY test_settings) in
  let resolve (cookies : gmap str str) (now : datetime) :=
    (@get_current_user_from_cookie ideal_jose test_settings cookies now db).1 in
  resolve ∅ 0 = Return None ∧
  resolve {[ lit "access_token" := lit "Bearer garbage" ]} 0 = Return None ∧
  resolve {[ lit "access_token" := lit "Bearer " ++ token ]} (minutes 16) = Return None ∧
  resolve {[ lit "access_token" := lit "Bearer " ++ stale ]} 0 = Return None ∧
  resolve {[ lit "access_token" := lit "Bearer " ++ token ]} 0
    = Return (head (users admin_store)).
Proof.
  intros db token stale resolve. unfold resolve.
  pose proof (@jwt_decode_issued ideal_jose ideal_jose_sound (lit "admin") 900
                (@SECRET_KEY test_settings)) as Htoken.
  pose proof (@jwt_decode_issued ideal_jose ideal_jose_sound (lit "root") 900
                (@SECRET_KEY test_settings)) as Hstale.
  fold token in Htoken. fold stale in Hstale. clearbody token stale.
  assert (∀ u exp, issued_claims u exp !! lit "sub" = Some (VStr u)) as Hsub.
  { intros u exp. unfold issued_claims.
    rewrite lookup_insert_ne by apply exp_ne_sub. apply lookup_singleton_eq. }
  split_and!.
  - by erewrite (proj1 (proj2 (@cookie_path_lenient ideal_jose test_settings ∅ 0 db
                                 (λ _, raise JWTError)))).
  - erewrite (proj1 (proj2 (proj2 (@cookie_path_lenient ideal_jose test_settings
                                     {[ lit "access_token" := lit "Bearer garbage" ]} 0 db
                                     (λ _, raise JWTError)))));
      [done | apply lookup_singleton_eq | reflexivity].
  - erewrite (proj1 (proj2 (proj2 (@cookie_path_lenient ideal_jose test_settings
                                     {[ lit "access_token" := lit "Bearer " ++ token ]}
                                     (minutes 16) db (λ _, raise JWTError)))));
      [done | apply lookup_singleton_eq |].
    rewrite cookie_token_strips, Htoken. reflexivity.
  - eapply (@cookie_path_lenient ideal_jose test_settings
              {[ lit "access_token" := lit "Bearer " ++ stale ]} 0 db (λ _, raise JWTError)).
    + apply lookup_singleton_eq.
    + rewrite cookie_token_strips, Hstale. reflexivity.
    + apply Hsub.
    + reflexivity.
  - eapply (@cookie_path_lenient ideal_jose test_settings
              {[ lit "access_token" := lit "Bearer " ++ token ]} 0 db (λ _, raise JWTError)).
    + apply lookup_singleton_eq.
    + done.
    + rewrite cookie_token_strips, Htoken. reflexivity.
    + apply Hsub.
    + done.
    + reflexivity.
Defined.

(** * Further properties of the code *)

Lemma get_events_by_date_cases (db : Session) (m : Z) (d : str) :
  (events_on (committed db) m d ≠ [] ∧
   (get_events_by_date m d db).1 = Return (events_on (committed db) m d))
  ∨ (events_on (committed db) m d = [] ∧
     (get_events_by_date m d db).1 = Return (events_on (committed db) m (to_bangla_digits d))).
Proof.
  unfold get_events_by_date, bind, select_events, db_select. cbn [fst snd committed logged].
  destruct (events_on (committed db) m d) as [|e evs] eqn:He.
  - right. split; [done|]. case_bool_decide as Hd; [done|].
    simpl. by rewrite Hd, He.
  - left. by split.
Qed.

(** ** Digits and day lookup *)

Lemma bangla_glyph_not_western (c : N) : ¬ western_digit (bangla_glyph c).
Proof. unfold bangla_glyph, western_digit. case_decide; lia. Qed.

Lemma to_bangla_digits_no_western (d : str) :
  Forall (λ c, ¬ western_digit c) (to_bangla_digits d).
Proof.
  rewrite to_bangla_digits_glyphs. apply Forall_fmap, Forall_true.
  intros c. apply bangla_glyph_not_western.
Qed.

Lemma to_bangla_digits_twice (d : str) :
  to_bangla_digits (to_bangla_digits d) = to_bangla_digits d.
Proof. apply to_bangla_digits_fixed, to_bangla_digits_no_western. Qed.

(** X1.  [to_bangla_digits] keeps the length of its argument, leaves no
    Western-Arabic digit in its result, and applying it twice is the same
    as applying it once. *)
Theorem to_bangla_digits_idempotent (d : str) :
  length (to_bangla_digits d) = length d ∧
  Forall (λ c, ¬ western_digit c) (to_bangla_digits d) ∧
  to_bangla_digits (to_bangla_digits d) = to_bangla_digits d.
Proof.
  split_and!; [| apply to_bangla_digits_no_western | apply to_bangla_digits_twice].
  rewrite to_bangla_digits_glyphs. apply length_fmap.
Qed.

(** X2.  When no event of the month stores the day as typed, the lookup
    answers as it does for the Bangla spelling of the day: a day written
    in Western digits and the same day in Bangla digits find the same
    events.  Every event returned is a row of the month, in table order,
    whose day is the day asked for or its Bangla spelling. *)
Theorem get_events_by_date_spelling (db : Session) (m : Z) (d : str) :
  (events_on (committed db) m d = [] →
     (get_events_by_date m d db).1 = (get_events_by_date m (to_bangla_digits d) db).1) ∧
  (∀ evs, (get_events_by_date m d db).1 = Return evs →
     evs `sublist_of` events (committed db) ∧
     ∀ e, e ∈ evs →
       Event.month_id e = m ∧ (Event.day e = d ∨ Event.day e = to_bangla_digits d)).
Proof.
  pose proof (to_bangla_digits_twice d) as Hidem.
  destruct (get_events_by_date_cases db m d) as [[Hne Hrun] | [He Hrun]];
    rewrite Hrun; split.
  - intros He. by destruct Hne.
  - intros evs [= <-]. split; [apply sublist_filter|].
    intros e [? [? ?]]%events_on_spec. auto.
  - intros _.
    destruct (get_events_by_date_cases db m (to_bangla_digits d)) as [[_ ->] | [He' ->]];
      [done|]. by rewrite Hidem.
  - intros evs [= <-]. split; [apply sublist_filter|].
    intros e [? [? ?]]%events_on_spec. auto.
Qed.

Lemma get_events_by_date_spelling_witness :
  let db := new_session baishakh_store [] (λ _, false) in
  (get_events_by_date 1 (lit "5") db).1 = (get_events_by_date 1 [2539%N] db).1 ∧
  (get_events_by_date 1 (lit "5") db).1 = Return [Event.mk 1 1 [2539%N]].
Proof.
  intros db.
  destruct (get_events_by_date_spelling db 1 (lit "5")) as [Hsame _].
  split; [exact (Hsame eq_refl) | by vm_compute].
Defined.

Lemma filter_ext_in {A} (P Q : A → Prop) `{!∀ x, Decision (P x), !∀ x, Decision (Q x)}
    (l : list A) :
  (∀ x, x ∈ l → P x ↔ Q x) → filter P l = filter Q l.
Proof.
  induction l as [|a l IH]; intros Hiff; [done|].
  rewrite !filter_cons, IH by (intros x Hx; apply Hiff; by right).
  pose proof (Hiff a (list_elem_of_here a l)). repeat case_decide; tauto || done.
Qed.

Lemma filter_all {A} (P : A → Prop) `{!∀ x, Decision (P x)} (l : list A) :
  (∀ x, x ∈ l → P x) → filter P l = l.
Proof.
  induction l as [|a l IH]; intros HP; [done|].
  rewrite filter_cons_True by (apply HP; by left).
  rewrite IH; [done|]. intros x Hx. apply HP. by right.
Qed.

(** ** Engine configuration *)

(** X3.  The database URL handed to SQLAlchemy never starts with the
    legacy scheme [postgres://]: such a URL has exactly that prefix
    replaced by [postgresql://], every other URL is passed on unchanged,
    and normalising twice changes nothing more.  Without the environment
    variable the URL is the local SQLite file, opened with
    [check_same_thread] off. *)
Theorem database_url_scheme (env : option str) :
  let url := SQLALCHEMY_DATABASE_URL env in
  startswith url (lit "postgres://") = false ∧
  (∀ rest, env = Some (lit "postgres://" ++ rest) → url = lit "postgresql://" ++ rest) ∧
  (∀ given, env = Some given → startswith given (lit "postgres://") = false →
     url = given) ∧
  SQLALCHEMY_DATABASE_URL (Some url) = url ∧
  (env = None →
     url = lit "sqlite:///./app.db" ∧
     connect_args url = [(lit "check_same_thread", false)]) ∧
  (∀ rest, env = Some (lit "postgres://" ++ rest) → connect_args url = []).
Proof.
  intros url.
  assert (∀ rest, SQLALCHEMY_DATABASE_URL (Some (lit "postgres://" ++ rest))
                  = lit "postgresql://" ++ rest) as Hlegacy.
  { intros rest. unfold SQLALCHEMY_DATABASE_URL. cbn [default from_option id].
    rewrite startswith_app. destruct rest; reflexivity. }
  assert (∀ given, startswith given (lit "postgres://") = false →
            SQLALCHEMY_DATABASE_URL (Some given) = given) as Hother.
  { intros given Hg. unfold SQLALCHEMY_DATABASE_URL. cbn [default from_option id].
    by rewrite Hg. }
  assert (startswith url (lit "postgres://") = false) as Hnever.
  { unfold url. destruct env as [given|]; [|reflexivity].
    destruct (startswith given (lit "postgres://")) eqn:Hg.
    - rewrite (startswith_prefix _ _ Hg), Hlegacy. reflexivity.
    - by rewrite Hother. }
  split_and!.
  - done.
  - intros rest ->. apply Hlegacy.
  - intros given -> Hg. by apply Hother.
  - by apply Hother.
  - intros ->. by split.
  - intros rest ->. unfold url. rewrite Hlegacy. reflexivity.
Qed.

Lemma database_url_scheme_witness :
  SQLALCHEMY_DATABASE_URL (Some (lit "postgres://u:p@db.example/cal"))
    = lit "postgresql://u:p@db.example/cal" ∧
  SQLALCHEMY_DATABASE_URL (Some (lit "mysql://postgres://x")) = lit "mysql://postgres://x" ∧
  connect_args (SQLALCHEMY_DATABASE_URL None) = [(lit "check_same_thread", false)].
Proof.
  split_and!.
  - by apply (database_url_scheme (Some (lit "postgres://u:p@db.example/cal"))).
  - by apply (database_url_scheme (Some (lit "mysql://postgres://x"))).
  - by apply (database_url_scheme None).
Defined.

(** ** Searching with nothing but wildcards *)

Lemma like_percents (n : nat) (s : str) : like (replicate (S n) percent) s = true.
Proof.
  induction n as [|n IH]; [apply like_only_percent|].
  change (replicate (S (S n)) percent) with (percent :: replicate (S n) percent).
  apply like_percent. by exists [], s.
Qed.

(** X4.  A search query made of three or more percent signs passes the
    length check and returns every EventDetail row of the store. *)
Theorem search_events_all_wildcards (db : Session) (n : nat) :
  (3 ≤ n)%nat →
  (search_events (replicate n percent) db).1 = Return (event_details (committed db)).
Proof.
  intros Hn. unfold search_events. rewrite length_replicate.
  rewrite decide_False by lia. rewrite search_details_run. cbn [fst]. f_equal.
  apply filter_all. intros d _. apply Is_true_true.
  rewrite ilike_unfold by (apply Forall_replicate; discriminate).
  rewrite fmap_replicate. change (lower percent) with percent.
  change (percent :: replicate n percent ++ [percent])
    with (replicate (S n) percent ++ [percent]).
  replace (replicate (S n) percent ++ [percent]) with (replicate (S (S n)) percent).
  - apply like_percents.
  - change [percent] with (replicate 1 percent). rewrite <- replicate_add.
    f_equal. lia.
Qed.

Lemma search_events_all_wildcards_witness :
  (search_events (lit "%%%") (new_session search_store [] (λ _, false))).1
    = Return (event_details search_store).
Proof.
  apply (search_events_all_wildcards (new_session search_store [] (λ _, false)) 3). lia.
Defined.

(** ** What every operation of the query layer keeps *)

Section Keeps.
Context (R : relation Store) `{!PreOrder R}.

Lemma keeps_ret {A} (a : A) : keeps R (ret a).
Proof. intros db. reflexivity. Qed.

Lemma keeps_raise {A} (e : exn) : keeps R (raise (A:=A) e).
Proof. intros db. reflexivity. Qed.

Lemma keeps_select {A} (q : Query) (rows : Store → A) : keeps R (db_select q rows).
Proof. intros db. reflexivity. Qed.

Lemma keeps_add (p : Pending) : keeps R (db_add p).
Proof. intros db. reflexivity. Qed.

Lemma keeps_bind {A B} (c : M A) (k : A → M B) :
  keeps R c → (∀ a, keeps R (k a)) → keeps R (bind c k).
Proof.
  intros Hc Hk db. unfold bind. specialize (Hc db).
  destruct (c db) as [[a|e] db']; [|done].
  etrans; [exact Hc | apply Hk].
Qed.

Lemma keeps_for_each {A} (xs : list A) (body : A → M unit) :
  (∀ x, keeps R (body x)) → keeps R (for_each xs body).
Proof.
  intros Hbody. induction xs as [|x xs IH]; [apply keeps_ret|].
  apply keeps_bind; [apply Hbody | by intros _].
Qed.

Lemma keeps_refresh {A} (sel : M (option A)) : keeps R sel → keeps R (db_refresh sel).
Proof.
  intros Hsel. apply keeps_bind; [done|].
  intros [r|]; [apply keeps_ret | apply keeps_raise].
Qed.

Lemma flush_keeps (f : nat → bool) (ps : list Pending) (w : Store) (l : list Stmt)
    (keys : list Z) :
  (∀ p s, R s (apply_pending p s).1) →
  ∀ w' keys' l', flush f ps w l keys = (Some (w', keys'), l') → R w w'.
Proof.
  intros Hstep. revert w l keys. induction ps as [|p ps IH]; intros w l keys w' keys' l'.
  - intros [= <- _ _]. reflexivity.
  - cbn [flush]. destruct (f (length l)); [done|].
    specialize (Hstep p w). destruct (apply_pending p w) as [w1 key].
    intros Hflush. etrans; [exact Hstep | by eapply IH].
Qed.

Lemma keeps_commit : (∀ p s, R s (apply_pending p s).1) → keeps R db_commit.
Proof.
  intros Hstep db. unfold db_commit.
  destruct (flush _ _ _ _ _) as [[[w keys]|] l] eqn:Hflush; [|reflexivity].
  by eapply flush_keeps.
Qed.
End Keeps.

Ltac keeps_step :=
  match goal with
  | |- PreOrder _ => exact _
  | |- keeps _ (bind _ _) => apply keeps_bind; [| | intros ?]
  | |- keeps _ (ret _) => apply keeps_ret
  | |- keeps _ (raise _) => apply keeps_raise
  | |- keeps _ (db_select _ _) => apply keeps_select
  | |- keeps _ (db_add _) => apply keeps_add
  | |- keeps _ db_commit => apply keeps_commit; [| assumption]
  | |- keeps _ (db_refresh _) => apply keeps_refresh
  | |- keeps _ (for_each _ _) => apply keeps_for_each; [| intros ?]
  | |- keeps _ (match ?x with _ => _ end) => destruct x
  end.

Ltac solve_keeps :=
  unfold create_month, create_event, add_detail, delete_detail, delete_month,
    delete_event, update_month, get_events_by_date, search_details, get_user, get_month,
    select_events, select_user, select_month, select_event, select_detail;
  repeat keeps_step.

(** Whatever relation every single write keeps, every operation keeps. *)
Lemma query_layer_keeps (R : relation Store) `{!PreOrder R} :
  (∀ p s, R s (apply_pending p s).1) →
  (∀ month, keeps R (create_month month)) ∧
  (∀ m event, keeps R (create_event m event)) ∧
  (∀ e detail, keeps R (add_detail e detail)) ∧
  (∀ m month, keeps R (update_month m month)) ∧
  (∀ m, keeps R (delete_month m)) ∧
  (∀ e, keeps R (delete_event e)) ∧
  (∀ d, keeps R (delete_detail d)) ∧
  (∀ m day, keeps R (get_events_by_date m day)) ∧
  (∀ q, keeps R (search_details q)).
Proof.
  intros Hstep. split_and!; intros; solve_keeps.
Qed.

Lemma NoDup_filter_keys {A} (key : A → Z) (P : A → Prop) `{!∀ x, Decision (P x)}
    (rows : list A) :
  NoDup (key <$> rows) → NoDup (key <$> filter P rows).
Proof.
  intros Hrows. eapply sublist_NoDup; [exact Hrows|].
  apply fmap_sublist, sublist_filter.
Qed.

Lemma NoDup_fresh_key {A} (key : A → Z) (rows : list A) (new : A) :
  key new = next_id (key <$> rows) →
  NoDup (key <$> rows) → NoDup (key <$> (rows ++ [new])).
Proof.
  intros Hkey Hrows. rewrite fmap_app. apply NoDup_app. split_and!; [done| |].
  - intros i Hi [->|[]%elem_of_nil]%elem_of_cons.
    apply next_id_fresh in Hi. lia.
  - apply NoDup_singleton.
Qed.

Lemma apply_pending_unique (p : Pending) (s : Store) :
  unique_ids s → unique_ids (apply_pending p s).1.
Proof.
  intros (Hu & Hm & He & Hd).
  destruct p; cbn [apply_pending fst]; unfold unique_ids; cbn [users months events event_details];
    split_and!; try done;
    try (by apply NoDup_fresh_key); try (by apply NoDup_filter_keys).
  rewrite <- list_fmap_compose.
  erewrite list_fmap_ext; [exact Hm|]. intros _ mo _. simpl. by case_decide.
Qed.

Lemma apply_pending_users (p : Pending) (s : Store) : users (apply_pending p s).1 = users s.
Proof. by destruct p. Qed.

(** X5.  Primary keys stay unique: when no two rows of a table share
    an id before an operation of the query layer, none do after it,
    whether it returned or raised and whatever was still pending in the
    session. *)
Theorem primary_keys_stay_unique (db : Session) (month : MonthCreate) (event : EventCreate)
    (base : MonthBase) (i : Z) (text : str) :
  unique_ids (committed db) →
  unique_ids (committed (create_month month db).2) ∧
  unique_ids (committed (create_event i event db).2) ∧
  unique_ids (committed (add_detail i text db).2) ∧
  unique_ids (committed (update_month i base db).2) ∧
  unique_ids (committed (delete_month i db).2) ∧
  unique_ids (committed (delete_event i db).2) ∧
  unique_ids (committed (delete_detail i db).2).
Proof.
  intros Hdb.
  destruct (query_layer_keeps still_unique apply_pending_unique)
    as (H1 & H2 & H3 & H4 & H5 & H6 & H7 & _).
  split_and!;
    [by apply H1 | by apply H2 | by apply H3 | by apply H4 | by apply H5 | by apply H6
     | by apply H7].
Qed.

(** X6.  No operation of the query layer writes to the users table:
    after any of them, returned or raised, the users are the same rows. *)
Theorem query_layer_leaves_users (db : Session) (month : MonthCreate) (event : EventCreate)
    (base : MonthBase) (i : Z) (text : str) :
  users (committed (create_month month db).2) = users (committed db) ∧
  users (committed (create_event i event db).2) = users (committed db) ∧
  users (committed (add_detail i text db).2) = users (committed db) ∧
  users (committed (update_month i base db).2) = users (committed db) ∧
  users (committed (delete_month i db).2) = users (committed db) ∧
  users (committed (delete_event i db).2) = users (committed db) ∧
  users (committed (delete_detail i db).2) = users (committed db) ∧
  users (committed (get_events_by_date i text db).2) = users (committed db) ∧
  users (committed (search_details text db).2) = users (committed db).
Proof.
  destruct (query_layer_keeps same_users apply_pending_users)
    as (H1 & H2 & H3 & H4 & H5 & H6 & H7 & H8 & H9).
  split_and!;
    [apply H1 | apply H2 | apply H3 | apply H4 | apply H5 | apply H6 | apply H7
     | apply H8 | apply H9].
Qed.

Lemma two_months_store_unique : unique_ids two_months_store.
Proof. repeat split; apply (bool_decide_unpack _); vm_compute; exact I. Qed.

Lemma primary_keys_stay_unique_witness :
  unique_ids (committed (create_month nested_month
                           (new_session two_months_store [] (λ n, Nat.eqb n 11))).2) ∧
  unique_ids (committed (delete_month 1 (new_session two_months_store [] (λ _, false))).2).
Proof.
  split.
  - destruct (primary_keys_stay_unique
                (new_session two_months_store [] (λ n, Nat.eqb n 11))
                nested_month (mkEventCreate [] []) (mkMonthBase [] []) 0 []
                two_months_store_unique) as (Hcreate & _).
    exact Hcreate.
  - destruct (primary_keys_stay_unique
                (new_session two_months_store [] (λ _, false))
                nested_month (mkEventCreate [] []) (mkMonthBase [] []) 1 []
                two_months_store_unique) as (_ & _ & _ & _ & Hdelete & _).
    exact Hdelete.
Defined.

(** ** Creating one event, adding and deleting one detail *)

Lemma commit_details_then {A} (k : M A) (s : Store) (l : list Stmt) (f : nat → bool)
    (event_id : Z) (details : list str) :
  (for_each details (λ detail, db_add (NewEventDetail detail event_id)) ;;;
   db_commit ;;; k) (new_session s l f)
  = match flush f ((λ detail, NewEventDetail detail event_id) <$> details) s l [] with
    | (Some (w, _), l') => k (new_session w (Commit :: l') f)
    | (None, l') => (Raise SQLAlchemyError, new_session s (Rollback :: l') f)
    end.
Proof.
  unfold bind at 1. unfold new_session. rewrite for_each_add_details. simpl app.
  unfold bind, db_commit. cbn [pending committed log fault].
  by destruct (flush _ _ _ _ _) as [[[w keys]|] l'].
Qed.

Lemma create_event_cases (s : Store) (l : list Stmt) (f : nat → bool) (m : Z)
    (event : EventCreate) :
  let event_id := next_id (Event.id <$> events s) in
  let row := Event.mk event_id m (ec_day event) in
  let s1 := mkStore (users s) (months s) (events s ++ [row]) (event_details s) in
  ∃ o l' s',
    create_event m event (new_session s l f) = (o, new_session s' l' f) ∧
    ((o = Return row ∧ s' = add_details event_id (ec_details event) s1)
     ∨ (o = Raise SQLAlchemyError ∧ (∃ n, f n = true) ∧ (s' = s ∨ s' = s1))).
Proof.
  intros event_id row s1. unfold create_event.
  rewrite (persist_event s l f (ec_day event) m
             (λ db_event,
                for_each (ec_details event) (λ detail,
                  db_add (NewEventDetail detail (Event.id db_event))) ;;;
                db_commit ;;;
                db_refresh (select_event (Event.id db_event)))).
  cbn [apply_pending fst Event.id]. fold event_id row s1.
  destruct (f (length l)) eqn:Hf.
  { eexists _, _, s. split; [reflexivity|]. right. split_and!; [done | by eexists | by left]. }
  rewrite commit_details_then.
  destruct (flush_details f event_id (ec_details event) s1
              (Select (EventById event_id) :: Commit ::
               Write (NewEvent (ec_day event) m) :: l) [])
    as (l' & [(-> & Hn) | (keys' & ->)]).
  { eexists _, _, s1. split; [reflexivity|]. right. split_and!; [done.. | by right]. }
  destruct (add_details_rows event_id (ec_details event) s1) as (rows & Hs2 & _).
  assert (events (add_details event_id (ec_details event) s1) = events s ++ [row]) as Hev
    by by rewrite Hs2.
  unfold db_refresh, bind, select_event, db_select. cbn [committed new_session].
  rewrite Hev.
  pose proof (refresh_fresh_row Event.id (events s) row eq_refl) as Hrow.
  cbn [Event.id row] in Hrow. fold event_id in Hrow. rewrite Hrow.
  eexists _, _, _. split; [reflexivity|]. by left.
Qed.

(** X7.  [create_event] commits the Event row first and its details
    afterwards, for whatever month id it is given.  When the store fails
    no insert it returns the new Event, whose id is one no Event had, and
    the store holds that Event and one EventDetail per detail string, in
    order, each pointing at it.  When it raises, the store is either
    unchanged or holds the new Event without any of its details. *)
Theorem create_event_commits_stepwise (s : Store) (l : list Stmt) (f : nat → bool) (m : Z)
    (event : EventCreate) :
  let db := new_session s l f in
  let event_id := next_id (Event.id <$> events s) in
  let row := Event.mk event_id m (ec_day event) in
  let s1 := mkStore (users s) (months s) (events s ++ [row]) (event_details s) in
  let s2 := add_details event_id (ec_details event) s1 in
  (event_id ∉ Event.id <$> events s) ∧
  (∃ rows,
     s2 = mkStore (users s) (months s) (events s ++ [row]) (event_details s ++ rows) ∧
     EventDetail.detail <$> rows = ec_details event ∧
     Forall (λ d, EventDetail.event_id d = event_id) rows) ∧
  ((∀ n, f n = false) →
     ∃ db', create_event m event db = (Return row, db') ∧ committed db' = s2) ∧
  (∀ o db', create_event m event db = (o, db') →
     (∀ r, o = Return r → r = row ∧ committed db' = s2) ∧
     (∀ e, o = Raise e → committed db' = s ∨ committed db' = s1)).
Proof.
  intros db event_id row s1 s2.
  destruct (create_event_cases s l f m event) as (o & l' & s' & Hrun & Hcases).
  fold db event_id row s1 s2 in Hrun, Hcases. split_and!.
  - intros Hin%next_id_fresh. unfold event_id in Hin. lia.
  - apply add_details_rows.
  - intros Hf. destruct Hcases as [[-> ->] | (_ & [n Hn] & _)]; [by eexists|].
    by rewrite Hf in Hn.
  - intros o' db'. rewrite Hrun. intros [= <- <-]. cbn [committed new_session].
    destruct Hcases as [[-> ->] | (-> & _ & Hs')].
    + split; [by intros r [= <-] | intros e [=]].
    + split; [intros r [=] | by intros e _].
Qed.

Lemma create_event_commits_stepwise_witness :
  ∃ db',
    create_event 2 (mkEventCreate (lit "9") [lit "x"; lit "y"])
                 (new_session two_months_store [] (λ _, false))
      = (Return (Event.mk 4 2 (lit "9")), db') ∧
    event_details (committed db')
      = event_details two_months_store
        ++ [EventDetail.mk 6 4 (lit "x"); EventDetail.mk 7 4 (lit "y")].
Proof.
  destruct (create_event_commits_stepwise two_months_store [] (λ _, false) 2
              (mkEventCreate (lit "9") [lit "x"; lit "y"])) as (_ & _ & Hok & _).
  destruct (Hok (λ _, eq_refl)) as (db' & Hrun & Hfinal).
  exists db'. split; [exact Hrun | by rewrite Hfinal].
Defined.

Lemma add_detail_run (s : Store) (l : list Stmt) (f : nat → bool) (event_id : Z)
    (text : str) :
  let row := EventDetail.mk (next_id (EventDetail.id <$> event_details s)) event_id text in
  let w := Write (NewEventDetail text event_id) in
  add_detail event_id text (new_session s l f)
  = if f (length l)
    then (Raise SQLAlchemyError, new_session s (Rollback :: w :: l) f)
    else (Return row,
          new_session (mkStore (users s) (months s) (events s) (event_details s ++ [row]))
                      (Select (EventDetailById (EventDetail.id row)) :: Commit :: w :: l) f).
Proof.
  intros row w. unfold add_detail. unfold bind at 1. unfold db_add at 1.
  cbn [new_session pending app committed log fault].
  unfold bind at 1. unfold db_commit at 1. cbn [pending committed log fault flush].
  destruct (f (length l)); [reflexivity|].
  cbn [apply_pending app]. unfold db_refresh, bind, select_detail, db_select.
  cbn [committed event_details primary_key head default from_option id].
  pose proof (refresh_fresh_row EventDetail.id (event_details s) row eq_refl) as Hrow.
  unfold row in *. cbn [EventDetail.id] in Hrow. rewrite Hrow. reflexivity.
Qed.

Lemma delete_detail_run (s : Store) (l : list Stmt) (f : nat → bool) (i : Z) :
  delete_detail i (new_session s l f) =
    match head (filter (λ d, EventDetail.id d = i) (event_details s)) with
    | None => (Return None, new_session s (Select (EventDetailById i) :: l) f)
    | Some d =>
        let w := Write (DeletedEventDetail (EventDetail.id d)) in
        if f (S (length l))
        then (Raise SQLAlchemyError,
              new_session s (Rollback :: w :: Select (EventDetailById i) :: l) f)
        else (Return (Some d),
              new_session (apply_pending (DeletedEventDetail (EventDetail.id d)) s).1
                          (Commit :: w :: Select (EventDetailById i) :: l) f)
    end.
Proof.
  unfold delete_detail, bind, select_detail, db_select. simpl.
  destruct (head _) as [d|]; [|reflexivity].
  unfold db_commit. simpl. by destruct (f (S (length l))).
Qed.

(** X8.  [add_detail] stores one new EventDetail with an id no detail
    had, pointing at the event id it was given, and returns that row; when
    the insert fails it raises and the store is unchanged.  Deleting the
    returned row again with [delete_detail] gives back the store as it was
    before the two calls, and deleting an id that no detail has returns
    [None] and changes nothing. *)
Theorem add_then_delete_detail (s : Store) (l : list Stmt) (f : nat → bool) (event_id : Z)
    (text : str) :
  let db := new_session s l f in
  let row := EventDetail.mk (next_id (EventDetail.id <$> event_details s)) event_id text in
  (EventDetail.id row ∉ EventDetail.id <$> event_details s) ∧
  (f (length l) = true →
     ∃ db', add_detail event_id text db = (Raise SQLAlchemyError, db') ∧ committed db' = s) ∧
  (f (length l) = false →
     ∃ db', add_detail event_id text db = (Return row, db') ∧
       event_details (committed db') = event_details s ++ [row] ∧
       (f (length l + 4)%nat = false →
          ∃ db'', delete_detail (EventDetail.id row) db' = (Return (Some row), db'') ∧
                  committed db'' = s)) ∧
  (∀ i, i ∉ EventDetail.id <$> event_details s →
     ∃ db', delete_detail i db = (Return None, db') ∧ committed db' = s).
Proof.
  intros db row.
  assert (EventDetail.id row ∉ EventDetail.id <$> event_details s) as Hfresh.
  { intros Hin%next_id_fresh. cbn in Hin. lia. }
  assert (∀ i, i ∉ EventDetail.id <$> event_details s →
            filter (λ d, EventDetail.id d = i) (event_details s) = []) as Hnone.
  { intros i Hi. apply head_None. destruct (head _) eqn:Hh; [|done].
    apply first_matching in Hh as [<- Hin]. destruct Hi. by apply list_elem_of_fmap_2. }
  split_and!; [done | | |].
  - intros Hf. unfold db. rewrite add_detail_run, Hf. by eexists.
  - intros Hf. unfold db. rewrite add_detail_run, Hf. fold row.
    eexists. split; [reflexivity|]. split; [done|]. intros Hf'.
    rewrite delete_detail_run. cbn [event_details length].
    pose proof (refresh_fresh_row EventDetail.id (event_details s) row eq_refl) as ->.
    replace (S (S (S (S (length l))))) with (length l + 4)%nat by lia. rewrite Hf'.
    eexists. split; [reflexivity|]. cbn [apply_pending fst committed new_session].
    cbn [users months events event_details].
    rewrite filter_app, filter_cons_False, filter_nil, app_nil_r by (by intros ?).
    rewrite filter_all; [by destruct s|].
    intros d Hd Heq. apply Hfresh. rewrite <- Heq. by apply list_elem_of_fmap_2.
  - intros i Hi. unfold db. rewrite delete_detail_run, (Hnone i Hi). by eexists.
Qed.

Lemma add_then_delete_detail_witness :
  let db := new_session two_months_store [] (λ _, false) in
  ∃ db' db'',
    add_detail 3 (lit "f") db = (Return (EventDetail.mk 6 3 (lit "f")), db') ∧
    delete_detail 6 db' = (Return (Some (EventDetail.mk 6 3 (lit "f"))), db'') ∧
    committed db'' = two_months_store.
Proof.
  intros db.
  destruct (add_then_delete_detail two_months_store [] (λ _, false) 3 (lit "f"))
    as (_ & _ & Hadd & _).
  destruct (Hadd eq_refl) as (db' & Hrun & _ & Hdel).
  destruct (Hdel eq_refl) as (db'' & Hrun' & Hs).
  by exists db', db''.
Defined.

(** ** What a cascading delete leaves alone *)

Lemma unique_key_row {A} (key : A → Z) (rows : list A) (x y : A) :
  NoDup (key <$> rows) → x ∈ rows → y ∈ rows → key x = key y → x = y.
Proof.
  induction rows as [|r rows IH]; [by intros _ ?%elem_of_nil|].
  rewrite fmap_cons, NoDup_cons. intros [Hr Hrows].
  intros [->|Hx]%elem_of_cons [->|Hy]%elem_of_cons Hkey; [done | | |by apply IH].
  - destruct Hr. rewrite Hkey. by apply list_elem_of_fmap_2.
  - destruct Hr. rewrite <- Hkey. by apply list_elem_of_fmap_2.
Qed.

Lemma cascade_month_exact (s : Store) (m : Z) :
  unique_ids s →
  (apply_pending (DeletedMonth m) s).1
  = mkStore (users s)
            (filter (λ mo, Month.id mo ≠ m) (months s))
            (filter (λ e, Event.month_id e ≠ m) (events s))
            (filter (λ d, EventDetail.event_id d ∉ Event.id <$> events_of_month s m)
                    (event_details s)).
Proof.
  intros (_ & _ & He & Hd). cbn [apply_pending fst]. f_equal.
  - apply filter_ext_in. intros e Hin. split.
    + intros Hid Hm. apply Hid, list_elem_of_fmap_2. by apply list_elem_of_filter.
    + intros Hm (e' & Hid & [Hm' Hin']%list_elem_of_filter)%list_elem_of_fmap_1.
      apply Hm. by rewrite (unique_key_row Event.id (events s) e e' He Hin Hin' Hid).
  - apply filter_ext_in. intros d Hin. split.
    + intros Hid He'. apply Hid, list_elem_of_fmap_2. by apply list_elem_of_filter.
    + intros He' (d' & Hid & [He'' Hin']%list_elem_of_filter)%list_elem_of_fmap_1.
      apply He'.
      by rewrite (unique_key_row EventDetail.id (event_details s) d d' Hd Hin Hin' Hid).
Qed.

Lemma cascade_event_exact (s : Store) (i : Z) :
  unique_ids s →
  (apply_pending (DeletedEvent i) s).1
  = mkStore (users s) (months s)
            (filter (λ e, Event.id e ≠ i) (events s))
            (filter (λ d, EventDetail.event_id d ≠ i) (event_details s)).
Proof.
  intros (_ & _ & _ & Hd). cbn [apply_pending fst]. f_equal.
  apply filter_ext_in. intros d Hin. split.
  - intros Hid He. apply Hid, list_elem_of_fmap_2. apply list_elem_of_filter.
    split; [|done]. rewrite He. apply list_elem_of_here.
  - intros He (d' & Hid & [He' Hin']%list_elem_of_filter)%list_elem_of_fmap_1.
    apply He. rewrite (unique_key_row EventDetail.id (event_details s) d d' Hd Hin Hin' Hid).
    by apply list_elem_of_singleton in He'.
Qed.

(** X9.  On a store with unique primary keys a delete removes nothing
    but the cascade: after [delete_month m] has deleted a Month, the
    months are the other months, the events are exactly the events of
    other months, and the details are exactly the details of events of
    other months, all in their old order; after [delete_event i] the
    events are the others and the details those of other events. *)
Theorem delete_removes_only_the_cascade (s : Store) (l : list Stmt) (f : nat → bool)
    (m i : Z) :
  unique_ids s →
  (∀ mo db', delete_month m (new_session s l f) = (Return (Some mo), db') →
     committed db'
     = mkStore (users s)
               (filter (λ mo, Month.id mo ≠ m) (months s))
               (filter (λ e, Event.month_id e ≠ m) (events s))
               (filter (λ d, EventDetail.event_id d ∉ Event.id <$> events_of_month s m)
                       (event_details s))) ∧
  (∀ e db', delete_event i (new_session s l f) = (Return (Some e), db') →
     committed db'
     = mkStore (users s) (months s)
               (filter (λ e, Event.id e ≠ i) (events s))
               (filter (λ d, EventDetail.event_id d ≠ i) (event_details s))).
Proof.
  intros Hs. split.
  - intros mo db'. rewrite delete_month_run.
    destruct (head _) as [mo'|] eqn:Hhead; [|done].
    apply first_matching in Hhead as [Hid _]. simpl in Hid.
    destruct (f (S (length l))); [done|]. intros [= _ <-].
    cbn [committed new_session]. rewrite Hid. by apply cascade_month_exact.
  - intros e db'. rewrite delete_event_run.
    destruct (head _) as [e'|] eqn:Hhead; [|done].
    apply first_matching in Hhead as [Hid _]. simpl in Hid.
    destruct (f (S (length l))); [done|]. intros [= _ <-].
    cbn [committed new_session]. rewrite Hid. by apply cascade_event_exact.
Qed.

Lemma delete_removes_only_the_cascade_witness :
  committed (delete_month 1 (new_session two_months_store [] (λ _, false))).2
  = mkStore (users two_months_store) [Month.mk 2 (lit "Joishtho") (lit "Jaistha")]
            [Event.mk 3 2 (lit "1")] [EventDetail.mk 5 3 (lit "e")].
Proof.
  destruct (delete_removes_only_the_cascade two_months_store [] (λ _, false) 1 1
              two_months_store_unique) as [Hmonth _].
  rewrite (Hmonth (Month.mk 1 (lit "Boishakh") (lit "Baishakh"))
                  (delete_month 1 (new_session two_months_store [] (λ _, false))).2).
  - by vm_compute.
  - by vm_compute.
Defined.

(** ** Referential integrity across the writes *)

Lemma integrity_new_month (s : Store) (bn en : str) :
  referential_integrity s → referential_integrity (apply_pending (NewMonth bn en) s).1.
Proof.
  intros [Hev Hdet]. split; [|done]. intros e He. cbn in *.
  destruct (Hev e He) as (mo & Hmo & Hid). exists mo. split; [|done].
  apply elem_of_app. by left.
Qed.

Lemma integrity_new_event (s : Store) (day : str) (m : Z) :
  referential_integrity s → (∃ mo, mo ∈ months s ∧ Month.id mo = m) →
  referential_integrity (apply_pending (NewEvent day m) s).1.
Proof.
  intros [Hev Hdet] Hm. split; cbn in *.
  - intros e [He | ->%list_elem_of_singleton]%elem_of_app; [by apply Hev | done].
  - intros d Hd. destruct (Hdet d Hd) as (e & He & Hid). exists e. split; [|done].
    apply elem_of_app. by left.
Qed.

Lemma integrity_add_details (event_id : Z) (details : list str) (s : Store) :
  referential_integrity s → (∃ e, e ∈ events s ∧ Event.id e = event_id) →
  referential_integrity (add_details event_id details s).
Proof.
  intros [Hev Hdet] He.
  destruct (add_details_rows event_id details s) as (rows & -> & _ & Hrows).
  split; [done|]. cbn. intros d [Hd | Hd]%elem_of_app; [by apply Hdet|].
  rewrite Forall_forall in Hrows. rewrite (Hrows d Hd).
  destruct He as (e & ? & ?). by exists e.
Qed.

Lemma event_checkpoints_integrity (month_id : Z) (evs : list EventCreate) (s c : Store) :
  referential_integrity s → (∃ mo, mo ∈ months s ∧ Month.id mo = month_id) →
  c ∈ event_checkpoints month_id evs s → referential_integrity c.
Proof.
  revert s. induction evs as [|ev evs IH]; intros s Hs Hm; [by intros ?%elem_of_nil|].
  cbn [event_checkpoints apply_pending].
  set (eid := next_id (Event.id <$> events s)).
  set (row := Event.mk eid month_id (ec_day ev)).
  set (s1 := mkStore (users s) (months s) (events s ++ [row]) (event_details s)).
  assert (referential_integrity s1) as Hs1
    by apply (integrity_new_event s (ec_day ev) month_id Hs Hm).
  assert (referential_integrity (add_details eid (ec_details ev) s1)) as Hs2.
  { apply integrity_add_details; [done|]. exists row. split; [|done].
    apply elem_of_app. right. apply list_elem_of_here. }
  intros [->|[->|Hc]%elem_of_cons]%elem_of_cons; [done..|].
  apply (IH _ Hs2); [|done].
  destruct (add_details_rows eid (ec_details ev) s1) as (rows & -> & _). exact Hm.
Qed.

(** X10.  The writes keep every Event attached to a stored Month and
    every EventDetail to a stored Event.  On a store with that property
    it still holds after [create_month], however far it got before
    raising, after [create_event] for the id of a stored Month, after
    [add_detail] for the id of a stored Event, and after [update_month]
    and [delete_detail], returned or raised. *)
Theorem writes_keep_referential_integrity (s : Store) (l : list Stmt) (f : nat → bool)
    (month : MonthCreate) (event : EventCreate) (base : MonthBase) (m e i : Z)
    (text : str) :
  let db := new_session s l f in
  referential_integrity s →
  referential_integrity (committed (create_month month db).2) ∧
  ((∃ mo, mo ∈ months s ∧ Month.id mo = m) →
     referential_integrity (committed (create_event m event db).2)) ∧
  ((∃ ev, ev ∈ events s ∧ Event.id ev = e) →
     referential_integrity (committed (add_detail e text db).2)) ∧
  referential_integrity (committed (update_month i base db).2) ∧
  referential_integrity (committed (delete_detail i db).2).
Proof.
  intros db Hs. unfold db. split_and!.
  - destruct (create_month_outcomes s l f month) as (o & l' & s' & -> & Hcases).
    cbn [snd committed new_session].
    assert (s' ∈ s :: checkpoints month s) as Hin.
    { destruct Hcases as [[_ ->] | (_ & ? & _)]; [apply default_last_elem_of | done]. }
    apply elem_of_cons in Hin as [->|Hin]; [done|].
    unfold checkpoints in Hin. cbn [apply_pending] in Hin.
    pose proof (integrity_new_month s (mc_month_bn month) (mc_month_en month) Hs) as Hs0.
    apply elem_of_cons in Hin as [->|Hin]; [done|].
    eapply event_checkpoints_integrity; [exact Hs0 | | exact Hin].
    exists (Month.mk (next_id (Month.id <$> months s)) (mc_month_bn month) (mc_month_en month)).
    split; [|done]. cbn [months fst]. apply elem_of_app. right. apply list_elem_of_here.
  - intros Hm. destruct (create_event_cases s l f m event) as (o & l' & s' & -> & Hcases).
    cbn [snd committed new_session].
    pose proof (integrity_new_event s (ec_day event) m Hs Hm) as Hs1.
    destruct Hcases as [[_ ->] | (_ & _ & [-> | ->])]; [|done..].
    apply integrity_add_details; [done|].
    exists (Event.mk (next_id (Event.id <$> events s)) m (ec_day event)).
    split; [|done]. cbn [events]. apply elem_of_app. right. apply list_elem_of_here.
  - intros He. rewrite add_detail_run. destruct (f (length l)); [done|].
    cbn [snd committed new_session].
    apply (integrity_add_details e [text] s Hs He).
  - rewrite update_month_run. destruct Hs as [Hev Hdet].
    destruct (head _); [|done]. destruct (f (S (length l))); [done|].
    cbn [snd committed new_session]. split; [|done]. cbn. intros ev Hin.
    destruct (Hev ev Hin) as (mo & Hmo & Hid).
    exists (renamed i base mo). split; [by apply list_elem_of_fmap_2|].
    unfold renamed. case_decide; [cbn; congruence | done].
  - rewrite delete_detail_run. destruct Hs as [Hev Hdet].
    destruct (head _); [|done]. destruct (f (S (length l))); [done|].
    cbn [snd committed new_session]. split; [done|]. cbn.
    intros d [_ Hd]%list_elem_of_filter. by apply Hdet.
Qed.

Lemma writes_keep_referential_integrity_witness :
  let db := new_session two_months_store [] (λ n, Nat.eqb n 11) in
  referential_integrity (committed (create_month nested_month db).2) ∧
  referential_integrity
    (committed (create_event 2 (mkEventCreate (lit "9") [lit "x"]) db).2) ∧
  referential_integrity (committed (add_detail 3 (lit "f") db).2).
Proof.
  intros db.
  destruct (writes_keep_referential_integrity two_months_store [] (λ n, Nat.eqb n 11)
              nested_month (mkEventCreate (lit "9") [lit "x"]) (mkMonthBase [] [])
              2 3 0 (lit "f") two_months_store_integrity) as (Hmonth & Hevent & Hdetail & _).
  split_and!.
  - exact Hmonth.
  - apply Hevent. exists (Month.mk 2 (lit "Joishtho") (lit "Jaistha")).
    split; [|done]. apply list_elem_of_further, list_elem_of_here.
  - apply Hdetail. exists (Event.mk 3 2 (lit "1")).
    split; [|done]. do 2 apply list_elem_of_further. apply list_elem_of_here.
Defined.

(** X11.  [create_event] does not look the month up: for a month id
    that no Month has it still stores the Event (the default engine does
    not check the foreign key), and the store then holds an Event without
    Month. *)
Theorem create_event_unchecked_month (s : Store) (l : list Stmt) (f : nat → bool) (m : Z)
    (event : EventCreate) :
  (∀ mo, mo ∈ months s → Month.id mo ≠ m) → (∀ n, f n = false) →
  ∃ row db',
    create_event m event (new_session s l f) = (Return row, db') ∧
    row ∈ events (committed db') ∧ Event.month_id row = m ∧
    ¬ referential_integrity (committed db').
Proof.
  intros Hm Hf.
  destruct (create_event_cases s l f m event) as (o & l' & s' & Hrun & Hcases).
  destruct Hcases as [[-> ->] | (_ & [n Hn] & _)]; [|by rewrite Hf in Hn].
  eexists _, _. split; [exact Hrun|]. cbn [committed new_session].
  destruct (add_details_rows (next_id (Event.id <$> events s)) (ec_details event)
              (mkStore (users s) (months s)
                 (events s ++ [Event.mk (next_id (Event.id <$> events s)) m (ec_day event)])
                 (event_details s))) as (rows & -> & _).
  cbn [events months].
  assert (Event.mk (next_id (Event.id <$> events s)) m (ec_day event)
            ∈ events s ++ [Event.mk (next_id (Event.id <$> events s)) m (ec_day event)])
    as Hin by (apply elem_of_app; right; apply list_elem_of_here).
  split_and!; [done.. |].
  intros [Hev _]. destruct (Hev _ Hin) as (mo & Hmo & Hid). by apply (Hm mo).
Qed.

Lemma create_event_unchecked_month_witness :
  ∃ row db',
    create_event 99 (mkEventCreate (lit "1") []) (new_session two_months_store [] (λ _, false))
      = (Return row, db') ∧
    row ∈ events (committed db') ∧ Event.month_id row = 99 ∧
    ¬ referential_integrity (committed db').
Proof.
  apply (create_event_unchecked_month two_months_store [] (λ _, false) 99
           (mkEventCreate (lit "1") [])); [|done].
  intros mo Hmo. vm_compute in Hmo.
  apply elem_of_cons in Hmo as [->|Hmo]; [done|].
  apply elem_of_cons in Hmo as [->|Hmo]; [done|]. by apply elem_of_nil in Hmo.
Defined.

(** ** Reading back what was written *)

Lemma fresh_key_absent {A} (key : A → Z) (rows : list A) :
  filter (λ r, key r = next_id (key <$> rows)) rows = [].
Proof.
  apply head_None. destruct (head _) eqn:Hh; [|done].
  apply first_matching in Hh as [Hk Hin]. simpl in Hk.
  apply (list_elem_of_fmap_2 key), next_id_fresh in Hin. lia.
Qed.

Lemma create_month_final_months (s : Store) (month : MonthCreate) :
  months (default s (last (checkpoints month s)))
  = months s ++ [Month.mk (next_id (Month.id <$> months s))
                          (mc_month_bn month) (mc_month_en month)].
Proof.
  unfold checkpoints. cbn [apply_pending]. rewrite default_last_cons.
  by rewrite (event_checkpoints_months _ _ _ _ (default_last_elem_of _ _)).
Qed.

(** X12.  What the month operations wrote is what [get_month] reads
    next: the Month returned by [create_month], under an id that named no
    Month before; the Month with its new names after [update_month]; and
    no Month at all after [delete_month] has returned. *)
Theorem get_month_reads_writes (s : Store) (l : list Stmt) (f : nat → bool)
    (month : MonthCreate) (base : MonthBase) (m : Z) :
  let db := new_session s l f in
  (∀ row db', create_month month db = (Return row, db') →
     (get_month (Month.id row) db).1 = Return None ∧
     (get_month (Month.id row) db').1 = Return (Some row)) ∧
  (∀ r db', update_month m base db = (Return (Some r), db') →
     (get_month m db').1
       = Return (Some (Month.mk m (mb_month_bn base) (mb_month_en base)))) ∧
  (∀ r db', delete_month m db = (Return r, db') →
     (get_month m db').1 = Return None).
Proof.
  intros db. unfold db, get_month, select_month, db_select. cbn [fst]. split_and!.
  - intros row db'.
    destruct (create_month_outcomes s l f month) as (o & l' & s' & -> & Hcases).
    destruct Hcases as [[-> ->] | (-> & _)]; [|done]. intros [= <- <-].
    cbn [committed new_session Month.id]. rewrite create_month_final_months.
    rewrite (fresh_key_absent Month.id (months s)).
    pose proof (refresh_fresh_row Month.id (months s)
                  (Month.mk (next_id (Month.id <$> months s)) (mc_month_bn month)
                            (mc_month_en month)) eq_refl) as Hrow.
    cbn [Month.id] in Hrow. by rewrite Hrow.
  - intros r db'. rewrite update_month_run.
    destruct (head _) as [mo|] eqn:Hhead; [|done].
    destruct (f (S (length l))); [done|]. intros [= _ <-].
    cbn [committed new_session months]. rewrite head_renamed; [done|]. by rewrite Hhead.
  - intros r db'. rewrite delete_month_run.
    destruct (head _) as [mo|] eqn:Hhead.
    + apply first_matching in Hhead as [Hid _]. simpl in Hid.
      destruct (f (S (length l))); [done|]. intros [= _ <-].
      cbn [committed new_session apply_pending fst months]. rewrite Hid.
      destruct (head _) as [mo'|] eqn:Hhead'; [|done].
      apply first_matching in Hhead' as [? [? _]%list_elem_of_filter]. done.
    + intros [= _ <-]. cbn [committed new_session]. by rewrite Hhead.
Qed.

Lemma get_month_reads_writes_witness :
  let db := new_session two_months_store [] (λ _, false) in
  (get_month 3 (create_month nested_month db).2).1
    = Return (Some (Month.mk 3 (lit "Ashar") (lit "Ashar"))) ∧
  (get_month 1 (delete_month 1 db).2).1 = Return None.
Proof.
  intros db.
  destruct (get_month_reads_writes two_months_store [] (λ _, false) nested_month
              (mkMonthBase [] []) 1) as (Hcreate & _ & Hdelete).
  split.
  - apply (Hcreate (Month.mk 3 (lit "Ashar") (lit "Ashar")) (create_month nested_month db).2).
    by vm_compute.
  - apply (Hdelete (Some (Month.mk 1 (lit "Boishakh") (lit "Baishakh")))
                   (delete_month 1 db).2).
    by vm_compute.
Defined.

(** X13.  An Event stored by [create_event] is found by
    [get_events_by_date] under its month id and its day as written: the
    lookup returns the events of that month with exactly that day, the new
    one among them, and tries no other spelling. *)
Theorem create_event_then_lookup (s : Store) (l : list Stmt) (f : nat → bool) (m : Z)
    (event : EventCreate) :
  ∀ row db', create_event m event (new_session s l f) = (Return row, db') →
    Event.month_id row = m ∧ Event.day row = ec_day event ∧
    get_events_by_date m (ec_day event) db'
      = (Return (events_on (committed db') m (ec_day event)),
         logged (Select (EventsByMonthAndDay m (ec_day event))) db') ∧
    row ∈ events_on (committed db') m (ec_day event).
Proof.
  intros row db'.
  destruct (create_event_cases s l f m event) as (o & l' & s' & -> & Hcases).
  destruct Hcases as [[-> ->] | (-> & _)]; [|done]. intros [= <- <-].
  destruct (add_details_rows (next_id (Event.id <$> events s)) (ec_details event)
              (mkStore (users s) (months s)
                 (events s ++ [Event.mk (next_id (Event.id <$> events s)) m (ec_day event)])
                 (event_details s))) as (rows & Hs2 & _).
  set (row := Event.mk (next_id (Event.id <$> events s)) m (ec_day event)) in *.
  assert (row ∈ events_on (committed (new_session
            (add_details (next_id (Event.id <$> events s)) (ec_details event)
               (mkStore (users s) (months s) (events s ++ [row]) (event_details s)))
            l' f)) m (ec_day event)) as Hin.
  { cbn [committed new_session]. rewrite Hs2. apply events_on_spec. cbn [events].
    split; [|done]. apply elem_of_app. right. apply list_elem_of_here. }
  split_and!; [done | done | | done].
  unfold get_events_by_date, bind, select_events, db_select.
  destruct (events_on _ m (ec_day event)) as [|e evs]; [by apply elem_of_nil in Hin | done].
Qed.

Lemma create_event_then_lookup_witness :
  let db := new_session two_months_store [] (λ _, false) in
  Event.mk 4 2 (lit "1")
    ∈ events_on (committed (create_event 2 (mkEventCreate (lit "1") []) db).2) 2 (lit "1").
Proof.
  intros db.
  apply (create_event_then_lookup two_months_store [] (λ _, false) 2
           (mkEventCreate (lit "1") []) (Event.mk 4 2 (lit "1"))
           (create_event 2 (mkEventCreate (lit "1") []) db).2).
  by vm_compute.
Defined.

(** ** Creating a month and deleting it again *)

Lemma filter_none {A} (P : A → Prop) `{!∀ x, Decision (P x)} (l : list A) :
  (∀ x, x ∈ l → ¬ P x) → filter P l = [].
Proof.
  induction l as [|a l IH]; intros HP; [done|].
  rewrite filter_cons_False by (apply HP; by left).
  apply IH. intros x Hx. apply HP. by right.
Qed.

Lemma cascade_of_fresh_month (s : Store) (row : Month.t) (new_events : list Event.t)
    (new_details : list EventDetail.t) :
  referential_integrity s →
  Month.id row = next_id (Month.id <$> months s) →
  Forall (λ e, Event.month_id e = Month.id row) new_events →
  Forall (λ d, EventDetail.event_id d ∈ Event.id <$> new_events) new_details →
  NoDup (Event.id <$> events s ++ new_events) →
  let s' := mkStore (users s) (months s ++ [row]) (events s ++ new_events)
                    (event_details s ++ new_details) in
  mkStore (users s')
          (filter (λ mo, Month.id mo ≠ Month.id row) (months s'))
          (filter (λ e, Event.month_id e ≠ Month.id row) (events s'))
          (filter (λ d, EventDetail.event_id d ∉ Event.id <$> events_of_month s' (Month.id row))
                  (event_details s'))
  = s.
Proof.
  intros [Hev Hdet] Hid Hnew_events Hnew_details Hids s'.
  rewrite Forall_forall in Hnew_events. rewrite Forall_forall in Hnew_details.
  assert (∀ mo, mo ∈ months s → Month.id mo ≠ Month.id row) as Hold_months.
  { intros mo Hmo. apply (list_elem_of_fmap_2 Month.id), next_id_fresh in Hmo. lia. }
  assert (∀ e, e ∈ events s → Event.month_id e ≠ Month.id row) as Hold_events.
  { intros e He. destruct (Hev e He) as (mo & Hmo & <-). by apply Hold_months. }
  assert (events_of_month s' (Month.id row) = new_events) as Hcascade.
  { unfold events_of_month, s'. cbn [events]. rewrite filter_app.
    rewrite (filter_none _ (events s)) by done. by rewrite filter_all. }
  rewrite Hcascade. unfold s'. cbn [users months events event_details].
  rewrite !filter_app.
  rewrite (filter_all _ (months s)) by done.
  rewrite (filter_none _ [row]) by (intros mo ->%list_elem_of_singleton Hne; by apply Hne).
  rewrite (filter_all _ (events s)) by done.
  rewrite (filter_none _ new_events) by (intros e He Hne; by apply Hne, Hnew_events).
  rewrite (filter_none _ new_details) by (intros d Hd Hne; by apply Hne, Hnew_details).
  rewrite (filter_all _ (event_details s)).
  - rewrite !app_nil_r. by destruct s.
  - intros d Hd Hin. destruct (Hdet d Hd) as (e & He & Heid).
    rewrite fmap_app in Hids. apply NoDup_app in Hids as (_ & Hdisjoint & _).
    apply (Hdisjoint (Event.id e)); [by apply list_elem_of_fmap_2 | by rewrite Heid].
Qed.

(** X14.  Deleting a month right after creating it undoes the creation:
    on a store with unique primary keys in which every Event has its
    Month and every EventDetail its Event, [create_month] followed by
    [delete_month] of the id it returned gives back the store as it was,
    whatever events and details the month was created with. *)
Theorem create_then_delete_month (s : Store) (l : list Stmt) (f : nat → bool)
    (month : MonthCreate) :
  unique_ids s → referential_integrity s →
  ∀ row db1 r db2,
    create_month month (new_session s l f) = (Return row, db1) →
    delete_month (Month.id row) db1 = (Return r, db2) →
    r = Some row ∧ committed db2 = s.
Proof.
  intros Hunique Hintegrity row db1 r db2.
  destruct (create_month_outcomes s l f month) as (o & l' & s' & Hrun & Hcases).
  destruct (query_layer_keeps still_unique apply_pending_unique) as (Hkeeps & _).
  specialize (Hkeeps month (new_session s l f) Hunique). rewrite Hrun in Hkeeps.
  cbn [snd committed new_session] in Hkeeps.
  rewrite Hrun. destruct Hcases as [[-> ->] | (-> & _)]; [|done]. intros [= <- <-].
  revert Hkeeps. unfold checkpoints. cbn [apply_pending]. rewrite default_last_cons.
  set (new := Month.mk (next_id (Month.id <$> months s)) (mc_month_bn month)
                       (mc_month_en month)).
  destruct (event_checkpoints_rows (Month.id new) (mc_events month)
              (mkStore (users s) (months s ++ [new]) (events s) (event_details s)))
    as (new_events & new_details & Hfinal & _ & Hnew_events & _ & Hnew_details).
  cbn [Month.id new] in Hfinal. cbn [Month.id new]. rewrite Hfinal.
  cbn [users months events event_details]. intros Hunique'.
  rewrite delete_month_run. cbn [months].
  pose proof (refresh_fresh_row Month.id (months s) new eq_refl) as Hrow.
  cbn [Month.id new] in Hrow. rewrite Hrow. cbn [Month.id new].
  destruct (f (S (length l'))); [done|]. intros [= <- <-]. split; [done|].
  cbn [committed new_session].
  etrans; [exact (cascade_month_exact _ (Month.id new) Hunique')|].
  apply (cascade_of_fresh_month s new new_events new_details); try done.
  by destruct Hunique' as (_ & _ & ? & _).
Qed.

Lemma create_then_delete_month_witness :
  let db1 := (create_month nested_month (new_session two_months_store [] (λ _, false))).2 in
  committed (delete_month 3 db1).2 = two_months_store.
Proof.
  intros db1.
  apply (create_then_delete_month two_months_store [] (λ _, false) nested_month
           two_months_store_unique two_months_store_integrity
           (Month.mk 3 (lit "Ashar") (lit "Ashar")) db1
           (Some (Month.mk 3 (lit "Ashar") (lit "Ashar"))) (delete_month 3 db1).2).
  - by vm_compute.
  - by vm_compute.
Defined.

(** ** From login to the protected routes *)

Lemma issued_claims_sub (username : str) (exp : Z) :
  issued_claims username exp !! lit "sub" = Some (VStr username).
Proof.
  unfold issued_claims. rewrite lookup_insert_ne by apply exp_ne_sub.
  apply lookup_singleton_eq.
Qed.

Section LoginRoundTrip.
Context `{Jose, Settings, CryptContext}.
Context `{!JoseSound}.

Lemma bearer_cookie_run (t : str) (now : datetime) (db : Session) :
  get_current_user_from_cookie {[ lit "access_token" := lit "Bearer " ++ t ]} now db =
    match jwt_decode t SECRET_KEY now with
    | Raise _ => (Return None, db)
    | Return payload =>
        match payload !! lit "sub" with
        | Some (VStr (c :: username)) =>
            (Return (head (filter (λ u, User.username u = c :: username)
                                  (users (committed db)))),
             logged (Select (UserByUsername (c :: username))) db)
        | _ => (Return None, db)
        end
    end.
Proof.
  rewrite get_current_user_from_cookie_run, lookup_singleton_eq. reflexivity.
Qed.

(** X15.  The token handed out by [POST /token] opens the admin
    routes: sent back as [Authorization: Bearer <token>] to any session
    with the same users, it passes [get_current_user] and the endpoint
    runs, at any time up to thirty minutes after the login; from one
    second past that the same header is answered with 401. *)
Theorem login_token_opens_admin_routes {A} (username password : str)
    (issue now : datetime) (db db2 : Session) (endpoint : M A) :
  ∀ tok db1, login_for_access_token username password issue db = (Return tok, db1) →
    users (committed db2) = users (committed db) →
    let header := Some (lit "Bearer " ++ access_token tok) in
    token_type tok = lit "bearer" ∧
    (now ≤ issue + minutes 30 →
       admin_route header now endpoint db2
       = endpoint (logged (Select (UserByUsername username)) db2)) ∧
    (issue + minutes 30 + 1000000 ≤ now →
       ∃ e, admin_route header now endpoint db2 = (Raise e, db2) ∧ unauthorized e).
Proof.
  intros tok db1. rewrite login_for_access_token_run. cbv zeta.
  destruct (head _) as [u|] eqn:Hu; [|done].
  destruct (pwd_context_verify _ _) as [[|]|]; [|done..].
  intros [= <- <-] Husers. split; [done|]. cbn [access_token].
  rewrite !admin_route_run, bearer_header. cbn [fst snd].
  destruct (decide _) as [_|Hscheme]; [|by destruct Hscheme].
  rewrite get_current_user_run, jwt_decode_issued. split.
  - intros Hnow. apply timegm_mono in Hnow.
    destruct (decide _) as [Hexp|_]; [lia|].
    by rewrite issued_claims_sub, Husers, Hu.
  - intros Hnow. apply timegm_next_second in Hnow.
    destruct (decide _) as [_|Hexp]; [|lia].
    exists credentials_exception. split; [done|]. by eexists.
Qed.

(** X16.  The cookie set by [POST /login] opens the dashboard: when
    the login form is answered with the redirect, the cookie is named
    [access_token], and a request carrying it is resolved, up to fifteen
    minutes after the login, to the stored User that logged in.  A User
    whose username is the empty string logs in as well, but their cookie
    resolves to no user. *)
Theorem login_cookie_opens_dashboard (username password : str) (issue : datetime)
    (db db2 : Session) :
  ∀ url code cookie db1,
    login_submit username password issue db
      = (Return (RedirectResponse url code cookie), db1) →
    users (committed db2) = users (committed db) →
    ∃ value user,
      cookie = Some (lit "access_token", value) ∧
      url = lit "/dashboard" ∧ code = 303 ∧
      user ∈ users (committed db) ∧ User.username user = username ∧
      pwd_context_verify password (User.hashed_password user) = Return true ∧
      ∀ now, now ≤ issue + minutes 15 →
        let resolved :=
          (get_current_user_from_cookie {[ lit "access_token" := value ]} now db2).1 in
        (username ≠ [] → resolved = Return (Some user)) ∧
        (username = [] → resolved = Return None).
Proof.
  intros url code cookie db1. rewrite login_submit_run. cbv zeta.
  destruct (head _) as [u|] eqn:Hu; [|done].
  destruct (pwd_context_verify _ _) as [[|]|] eqn:Hverify; [|done..].
  intros Hredirect Husers.
  pose proof Hu as [Hname Hin]%first_matching. simpl in Hname.
  exists (lit "Bearer " ++ jws_sign (issued_claims username (timegm (issue + minutes 15)))
                                    SECRET_KEY), u.
  split_and!; [by simplify_eq | by simplify_eq | by simplify_eq | done | done | done |].
  intros now Hnow.
  rewrite bearer_cookie_run, jwt_decode_issued.
  apply timegm_mono in Hnow. destruct (decide _) as [Hexp|_]; [lia|].
  rewrite issued_claims_sub. split.
  - intros Hne. destruct username as [|x username]; [done|]. cbn [fst].
    by rewrite Husers, Hu.
  - by intros ->.
Qed.

(** X17.  A failed login gives nothing away and changes nothing.
    Neither login path writes to the store, and each sends exactly one
    SELECT.  [POST /token] returns a token, and [POST /login] sets a
    cookie, only when a stored User has the username and the password
    verifies against their hash.  An unknown username and a wrong
    password get the same answer: the same 401 with [WWW-Authenticate:
    Bearer] from [POST /token], the same login page with the same error
    from [POST /login]. *)
Theorem failed_login_is_uniform (username password : str) (now : datetime) (db : Session) :
  let select := Select (UserByUsername username) in
  let named :=
    head (filter (λ u, User.username u = username) (users (committed db))) in
  let verified :=
    ∃ user, named = Some user ∧
      pwd_context_verify password (User.hashed_password user) = Return true in
  let rejected :=
    named = None ∨
    ∃ user, named = Some user ∧
      pwd_context_verify password (User.hashed_password user) = Return false in
  (login_for_access_token username password now db).2 = logged select db ∧
  (login_submit username password now db).2 = logged select db ∧
  (∀ tok, (login_for_access_token username password now db).1 = Return tok → verified) ∧
  (∀ url code cookie,
     (login_submit username password now db).1 = Return (RedirectResponse url code cookie) →
     verified) ∧
  (rejected →
     (∃ e, (login_for_access_token username password now db).1 = Raise e ∧
           unauthorized e ∧
           e = HTTPException 401 (lit "Incorrect username or password") www_authenticate) ∧
     (login_submit username password now db).1
     = Return (TemplateResponse (lit "login.html") (Some (lit "Invalid credentials")))).
Proof.
  intros select named verified rejected. unfold verified, rejected, named, select.
  rewrite login_for_access_token_run, login_submit_run. cbv zeta.
  destruct (head _) as [u|] eqn:Hu.
  - destruct (pwd_context_verify _ _) as [[|]|e] eqn:Hverify; cbn [fst snd].
    + split_and!; [done | done | by eauto | by eauto |].
      intros [[=] | (user & [= <-] & Hfalse)]. congruence.
    + split_and!; [done | done | done | done |].
      intros _. split; [|done]. eexists. split_and!; [done | by eexists | done].
    + split_and!; [done | done | done | done |].
      intros [[=] | (user & [= <-] & Hfalse)]. congruence.
  - cbn [fst snd]. split_and!; [done | done | done | done |].
    intros _. split; [|done]. eexists. split_and!; [done | by eexists | done].
Qed.

End LoginRoundTrip.

Lemma login_token_opens_admin_routes_witness :
  let db := new_session admin_store [] (λ _, false) in
  let login :=
    @login_for_access_token ideal_jose test_settings test_crypt
      (lit "admin") (lit "password123") 0 db in
  ∃ tok, login.1 = Return tok ∧
    @admin_route ideal_jose test_settings _
      (Some (lit "Bearer " ++ access_token tok)) (minutes 30) (ret 7%nat) db
    = (Return 7%nat, logged (Select (UserByUsername (lit "admin"))) db).
Proof.
  intros db login.
  assert (∃ tok, login = (Return tok, logged (Select (UserByUsername (lit "admin"))) db))
    as [tok Hlogin].
  { unfold login. rewrite (@login_for_access_token_run ideal_jose test_settings test_crypt).
    by eexists. }
  exists tok. split; [by rewrite Hlogin|].
  destruct (@login_token_opens_admin_routes ideal_jose test_settings test_crypt
              ideal_jose_sound nat (lit "admin") (lit "password123") 0 (minutes 30) db db
              (ret 7%nat) tok _ Hlogin eq_refl) as (_ & Hopen & _).
  by rewrite Hopen.
Defined.

Lemma login_cookie_opens_dashboard_witness :
  let db := new_session admin_store [] (λ _, false) in
  let login :=
    @login_submit ideal_jose test_settings test_crypt (lit "admin") (lit "password123") 0 db in
  ∃ value,
    login.1 = Return (RedirectResponse (lit "/dashboard") 303
                        (Some (lit "access_token", value))) ∧
    (@get_current_user_from_cookie ideal_jose test_settings
       {[ lit "access_token" := value ]} (minutes 15) db).1
    = Return (head (users admin_store)).
Proof.
  intros db login.
  assert (∃ value, login = (Return (RedirectResponse (lit "/dashboard") 303
                                      (Some (lit "access_token", value))),
                            logged (Select (UserByUsername (lit "admin"))) db))
    as [value Hlogin].
  { unfold login. rewrite (@login_submit_run ideal_jose test_settings test_crypt).
    by eexists. }
  exists value. split; [by rewrite Hlogin|].
  destruct (@login_cookie_opens_dashboard ideal_jose test_settings test_crypt
              ideal_jose_sound (lit "admin") (lit "password123") 0 db db _ _ _ _
              Hlogin eq_refl)
    as (value' & user & [= <-] & _ & _ & Hin & _ & _ & Hresolve).
  apply list_elem_of_singleton in Hin as ->.
  destruct (Hresolve (minutes 15)) as [Hsome _]; [done|]. by apply Hsome.
Defined.

Lemma failed_login_is_uniform_witness :
  let db := new_session admin_store [] (λ _, false) in
  (@login_submit ideal_jose test_settings test_crypt (lit "nobody") (lit "password123") 0 db).1
  = (@login_submit ideal_jose test_settings test_crypt (lit "admin") (lit "letmein") 0 db).1.
Proof.
  intros db.
  destruct (@failed_login_is_uniform ideal_jose test_settings test_crypt
              (lit "nobody") (lit "password123") 0 db) as (_ & _ & _ & _ & Hunknown).
  destruct (@failed_login_is_uniform ideal_jose test_settings test_crypt
              (lit "admin") (lit "letmein") 0 db) as (_ & _ & _ & _ & Hwrong).
  destruct Hunknown as [_ ->]; [by left|].
  destruct Hwrong as [_ ->]; [|done].
  right. eexists. split; [reflexivity | by vm_compute].
Defined.

(** ** The month page of the dashboard *)

Section MonthPage.
Context `{Jose, Settings, Jinja2Templates}.

Lemma cookie_resolution (cookies : gmap str str) (now : datetime) (db : Session) :
  ∃ r db1,
    get_current_user_from_cookie cookies now db = (Return r, db1) ∧
    committed db1 = committed db ∧
    ∀ user, r = Some user →
      user ∈ users (committed db) ∧
      ∃ c claims,
        cookies !! lit "access_token" = Some c ∧
        jwt_decode (cookie_token c) SECRET_KEY now = Return claims ∧
        claims !! lit "sub" = Some (VStr (User.username user)).
Proof.
  rewrite get_current_user_from_cookie_run.
  destruct (cookies !! lit "access_token") as [[|x c]|] eqn:Hcookie;
    [by eexists _, _ | | by eexists _, _].
  destruct (jwt_decode _ _ _) as [claims|e] eqn:Hdecode; [|by eexists _, _].
  destruct (claims !! lit "sub") as [[[|y name]| | |]|] eqn:Hsub; try by eexists _, _.
  eexists _, _. split_and!; [done | done |].
  intros user [Hname Hin]%first_matching. simpl in Hname. split; [done|].
  exists (x :: c), claims. by rewrite Hname.
Qed.

Lemma month_detail_dashboard_run (cookies : gmap str str) (month_id : Z)
    (now : datetime) (db : Session) :
  month_detail_dashboard cookies month_id now db =
    match get_current_user_from_cookie cookies now db with
    | (Return None, db1) => (Return (Redirect (lit "/login")), db1)
    | (Return (Some u), db1) =>
        if decide (- 2 ^ 63 ≤ month_id < 2 ^ 63) then
          let db2 := logged (Select (MonthById month_id)) db1 in
          match head (filter (λ mo, Month.id mo = month_id) (months (committed db1))) with
          | None => (Return (Redirect (lit "/dashboard")), db2)
          | Some m =>
              match templates_TemplateResponse (lit "month_detail.html") u m with
              | Return html => (Return (Rendered html), db2)
              | Raise e => (Raise e, db2)
              end
          end
        else (Raise OverflowError, db1)
    | (Raise e, db1) => (Raise e, db1)
    end.
Proof.
  unfold month_detail_dashboard, bind.
  destruct (get_current_user_from_cookie cookies now db) as [[[u|]|e] db1]; try reflexivity.
  unfold sqlite_integer. case_decide; [|reflexivity].
  unfold get_month, select_month, db_select, ret at 1. cbv zeta.
  destruct (head _) as [m|]; [|reflexivity].
  unfold lift. by destruct (templates_TemplateResponse _ u m).
Qed.

(** X18.  [GET /dashboard/months/{month_id}] does not change the
    store, whatever its outcome.  When the [access_token] cookie resolves
    to no user it redirects to [/login], and no Month is read and nothing
    rendered.  When it redirects to [/dashboard], the cookie resolved to a
    user and no Month has the id.  When it answers with a rendered page,
    the page is [month_detail.html] rendered for a stored Month with the
    id asked for and a stored User named by the subject of a token that
    validated.  What the render raises, and what the driver raises for an
    id that does not fit 64 bits, is not caught. *)
Theorem month_page_needs_valid_cookie (cookies : gmap str str) (month_id : Z)
    (now : datetime) (db : Session) :
  let run := month_detail_dashboard cookies month_id now db in
  let resolved := get_current_user_from_cookie cookies now db in
  let month_named :=
    head (filter (λ mo, Month.id mo = month_id) (months (committed db))) in
  committed run.2 = committed db ∧
  (resolved.1 = Return None → run = (Return (Redirect (lit "/login")), resolved.2)) ∧
  (∀ url, run.1 = Return (Redirect url) →
     (url = lit "/login" ∧ resolved.1 = Return None)
     ∨ (url = lit "/dashboard" ∧ (∃ user, resolved.1 = Return (Some user)) ∧
        ∀ mo, mo ∈ months (committed db) → Month.id mo ≠ month_id)) ∧
  (∀ html, run.1 = Return (Rendered html) →
     ∃ user month,
       templates_TemplateResponse (lit "month_detail.html") user month = Return html ∧
       month ∈ months (committed db) ∧ Month.id month = month_id ∧
       user ∈ users (committed db) ∧
       ∃ c claims,
         cookies !! lit "access_token" = Some c ∧
         jwt_decode (cookie_token c) SECRET_KEY now = Return claims ∧
         claims !! lit "sub" = Some (VStr (User.username user))) ∧
  (∀ user month e, resolved.1 = Return (Some user) → - 2 ^ 63 ≤ month_id < 2 ^ 63 →
     month_named = Some month →
     templates_TemplateResponse (lit "month_detail.html") user month = Raise e →
     run.1 = Raise e) ∧
  (∀ user, resolved.1 = Return (Some user) → ¬ (- 2 ^ 63 ≤ month_id < 2 ^ 63) →
     run.1 = Raise OverflowError).
Proof.
  intros run resolved month_named. unfold run, resolved, month_named.
  rewrite month_detail_dashboard_run.
  destruct (cookie_resolution cookies now db) as (r & db1 & -> & Hsame & Huser).
  cbn [fst snd]. destruct r as [user|].
  2:{ split_and!; [done | done | | done | done | done].
      intros url [= <-]. by left. }
  case_decide as Hid.
  2:{ cbn [fst snd]. split_and!; [done | done | done | done | | done].
      by intros user' month e _ Hin. }
  cbv zeta. rewrite Hsame. destruct (head _) as [month|] eqn:Hmonth.
  - destruct (templates_TemplateResponse (lit "month_detail.html") user month)
      as [html|e] eqn:Hrender; cbn [fst snd committed logged].
    + split_and!; [done | done | done | | | done].
      * intros html' [= <-]. apply first_matching in Hmonth as [Hm Hin].
        destruct (Huser user eq_refl) as [Hu Htoken].
        exists user, month. by split_and!.
      * intros user' month' e [= <-] _ [= <-]. congruence.
    + split_and!; [done | done | done | done | | done].
      intros user' month' e' [= <-] _ [= <-]. congruence.
  - cbn [fst snd committed logged]. split_and!; [done | done | | done | done | done].
    intros url [= <-]. right. split_and!; [done | by eexists |].
    intros mo Hmo. by apply (no_matching _ _ mo) in Hmonth.
Qed.

End MonthPage.

(** ** Lookups after a delete *)

(** X19.  A deleted month has no events left to look up: after
    [delete_month m] has deleted a Month, [get_events_by_date m day]
    returns the empty list for every day, in either spelling. *)
Theorem deleted_month_has_no_events (s : Store) (l : list Stmt) (f : nat → bool)
    (m : Z) (day : str) :
  ∀ mo db', delete_month m (new_session s l f) = (Return (Some mo), db') →
    (get_events_by_date m day db').1 = Return [].
Proof.
  intros mo db' Hrun.
  assert (∀ d, events_on (committed db') m d = []) as Hnone.
  { revert Hrun. rewrite delete_month_run.
    destruct (head _) as [mo'|] eqn:Hhead; [|done].
    apply first_matching in Hhead as [Hid _]. simpl in Hid.
    destruct (f (S (length l))); [done|]. intros [= _ <-] d.
    cbn [committed new_session]. rewrite Hid.
    apply filter_none. intros e He [Hm _].
    by apply (cascade_month s m) in He as [_ ?]. }
  destruct (get_events_by_date_cases db' m day) as [[Hne _] | [_ ->]].
  - destruct Hne. apply Hnone.
  - by rewrite Hnone.
Qed.

Lemma deleted_month_has_no_events_witness :
  let db' := (delete_month 1 (new_session two_months_store [] (λ _, false))).2 in
  (get_events_by_date 1 (lit "1") db').1 = Return [] ∧
  (get_events_by_date 2 (lit "1") db').1 = Return [Event.mk 3 2 (lit "1")].
Proof.
  intros db'. split; [|by vm_compute].
  apply (deleted_month_has_no_events two_months_store [] (λ _, false) 1 (lit "1")
           (Month.mk 1 (lit "Boishakh") (lit "Baishakh")) db').
  by vm_compute.
Defined.

Lemma month_page_needs_valid_cookie_witness :
  let db := new_session admin_store [] (λ _, false) in
  let token :=
    @jws_sign ideal_jose (issued_claims (lit "admin") 900) (@SECRET_KEY test_settings) in
  let cookies : gmap str str := {[ lit "access_token" := lit "Bearer " ++ token ]} in
  @month_detail_dashboard ideal_jose test_settings test_templates ∅ 1 0 db
    = (Return (Redirect (lit "/login")), db) ∧
  (@month_detail_dashboard ideal_jose test_settings test_templates cookies (2 ^ 63) 0 db).1
    = Raise OverflowError.
Proof.
  intros db token cookies. split.
  - destruct (@month_page_needs_valid_cookie ideal_jose test_settings test_templates
                ∅ 1 0 db) as (_ & Hlogin & _).
    by apply Hlogin.
  - pose proof (@jwt_decode_issued ideal_jose ideal_jose_sound (lit "admin") 900
                  (@SECRET_KEY test_settings) 0) as Htoken.
    fold token in Htoken. unfold cookies. clearbody token.
    destruct (@month_page_needs_valid_cookie ideal_jose test_settings test_templates
                {[ lit "access_token" := lit "Bearer " ++ token ]} (2 ^ 63) 0 db)
      as (_ & _ & _ & _ & _ & Hrange).
    apply (Hrange (User.mk 1 (lit "admin")
                     (@get_password_hash test_crypt (lit "password123") (lit "NaCl"))));
      [|lia].
    rewrite (@bearer_cookie_run ideal_jose test_settings), Htoken.
    destruct (decide _) as [Hexpired|_]; [by vm_compute in Hexpired|].
    by rewrite issued_claims_sub.
Defined.

(** ** Ids that name no row *)

(** X20.  An id that names no row is no error and no write: for such an
    id [delete_month], [update_month], [delete_event] and [delete_detail]
    return [None] after their one SELECT, send no INSERT, UPDATE, DELETE
    or COMMIT, and leave the store as it was, also when the store would
    fail the next statement. *)
Theorem missing_row_is_a_no_op (s : Store) (l : list Stmt) (f : nat → bool) (i : Z)
    (base : MonthBase) :
  let db := new_session s l f in
  ((∀ mo, mo ∈ months s → Month.id mo ≠ i) →
     delete_month i db = (Return None, logged (Select (MonthById i)) db) ∧
     update_month i base db = (Return None, logged (Select (MonthById i)) db)) ∧
  ((∀ e, e ∈ events s → Event.id e ≠ i) →
     delete_event i db = (Return None, logged (Select (EventById i)) db)) ∧
  ((∀ d, d ∈ event_details s → EventDetail.id d ≠ i) →
     delete_detail i db = (Return None, logged (Select (EventDetailById i)) db)).
Proof.
  intros db. unfold db.
  rewrite delete_month_run, update_month_run, delete_event_run, delete_detail_run.
  split_and!; intros Hmissing.
  - rewrite (filter_none _ (months s)) by (intros mo Hmo Hid; by apply (Hmissing mo)).
    done.
  - rewrite (filter_none _ (events s)) by (intros e He Hid; by apply (Hmissing e)).
    done.
  - rewrite (filter_none _ (event_details s)) by (intros d Hd Hid; by apply (Hmissing d)).
    done.
Qed.

Lemma missing_row_is_a_no_op_witness :
  let db := new_session two_months_store [] (λ _, true) in
  delete_month 7 db = (Return None, logged (Select (MonthById 7)) db) ∧
  delete_event 7 db = (Return None, logged (Select (EventById 7)) db).
Proof.
  intros db.
  destruct (missing_row_is_a_no_op two_months_store [] (λ _, true) 7 (mkMonthBase [] []))
    as (Hmonth & Hevent & _).
  split.
  - apply Hmonth. intros mo Hmo. vm_compute in Hmo.
    repeat (apply elem_of_cons in Hmo as [->|Hmo]; [done|]). by apply elem_of_nil in Hmo.
  - apply Hevent. intros e He. vm_compute in He.
    repeat (apply elem_of_cons in He as [->|He]; [done|]). by apply elem_of_nil in He.
Defined.

(** ** The two ways of presenting a token *)

Section TwoPaths.
Context `{Jose, Settings}.

(** X21.  The API and the dashboard accept the same tokens.  A token
    that the cookie path resolves to a User is accepted for that User by
    [get_current_user]; a token that [get_current_user] accepts is
    resolved by the cookie path to the same User, unless their username is
    the empty string, for which the cookie path finds no user. *)
Theorem bearer_and_cookie_accept_the_same_tokens (t : str) (now : datetime) (db : Session)
    (user : User.t) :
  let cookies : gmap str str := {[ lit "access_token" := lit "Bearer " ++ t ]} in
  ((get_current_user_from_cookie cookies now db).1 = Return (Some user) →
     (get_current_user t now db).1 = Return user) ∧
  ((get_current_user t now db).1 = Return user → User.username user ≠ [] →
     (get_current_user_from_cookie cookies now db).1 = Return (Some user)) ∧
  ((get_current_user t now db).1 = Return user → User.username user = [] →
     (get_current_user_from_cookie cookies now db).1 = Return None).
Proof.
  intros cookies. unfold cookies. rewrite bearer_cookie_run, get_current_user_run.
  destruct (jwt_decode t SECRET_KEY now) as [payload|e]; [|by destruct e].
  destruct (payload !! lit "sub") as [[[|c name]| | |]|]; cbn [fst]; try done.
  - split_and!; [done | | done].
    destruct (head _) as [u|] eqn:Hu; [|done]. intros [= ->].
    by apply first_matching in Hu as [? _].
  - destruct (head _) as [u|] eqn:Hu; cbn [fst]; [|done].
    split_and!; [by intros [= ->] | by intros [= ->] |].
    intros [= ->]. by apply first_matching in Hu as [-> _].
Qed.

End TwoPaths.

Lemma bearer_and_cookie_accept_the_same_tokens_witness :
  let db := new_session admin_store [] (λ _, false) in
  let token :=
    @jws_sign ideal_jose (issued_claims (lit "admin") 900) (@SECRET_KEY test_settings) in
  (@get_current_user_from_cookie ideal_jose test_settings
     {[ lit "access_token" := lit "Bearer " ++ token ]} 0 db).1
  = Return (head (users admin_store)).
Proof.
  intros db token.
  pose proof (@jwt_decode_issued ideal_jose ideal_jose_sound (lit "admin") 900
                (@SECRET_KEY test_settings) 0) as Htoken.
  fold token in Htoken. clearbody token.
  destruct (@bearer_and_cookie_accept_the_same_tokens ideal_jose test_settings token 0 db
              (User.mk 1 (lit "admin")
                 (@get_password_hash test_crypt (lit "password123") (lit "NaCl"))))
    as (_ & Hcookie & _).
  apply Hcookie; [|done].
  rewrite (@get_current_user_run ideal_jose test_settings), Htoken.
  destruct (decide _) as [Hexpired|_]; [by vm_compute in Hexpired|].
  by rewrite issued_claims_sub.
Defined.

(** ** The copies of [app.py] that name [EventDetail] *)

Lemma create_event_db_run (s : Store) (l : list Stmt) (f : nat → bool) (m : Z)
    (event : EventCreate) :
  let event_id := next_id (Event.id <$> events s) in
  let row := Event.mk event_id m (ec_day event) in
  let s1 := mkStore (users s) (months s) (events s ++ [row]) (event_details s) in
  let w := Write (NewEvent (ec_day event) m) in
  AppPy.create_event_db m event (new_session s l f) =
    if f (length l) then (Raise SQLAlchemyError, new_session s (Rollback :: w :: l) f)
    else
      match ec_details event with
      | [] =>
          (Return row,
           new_session s1 (Select (EventById event_id) :: Commit ::
                           Select (EventById event_id) :: Commit :: w :: l) f)
      | _ :: _ =>
          (Raise ValidationError,
           new_session s1 (Select (EventById event_id) :: Commit :: w :: l) f)
      end.
Proof.
  intros event_id row s1 w. unfold AppPy.create_event_db.
  rewrite (persist_event s l f (ec_day event) m
             (λ db_event,
                for_each (ec_details event) (λ detail,
                  let! db_detail := AppPy.EventDetail_schema detail (Event.id db_event) in
                  db_add db_detail) ;;;
                db_commit ;;;
                db_refresh (select_event (Event.id db_event)))).
  cbn [apply_pending fst Event.id]. fold event_id row s1 w.
  destruct (f (length l)); [done|]. destruct (ec_details event) as [|d details]; [|done].
  unfold for_each, bind, ret, db_commit, db_refresh, bind, select_event, db_select.
  cbn [new_session pending committed log fault flush logged events s1 Event.id row].
  pose proof (refresh_fresh_row Event.id (events s) row eq_refl) as Hrow.
  cbn [Event.id row] in Hrow.
  match goal with
  | |- context [head ?rows] => replace (head rows) with (Some row) by (symmetry; exact Hrow)
  end.
  done.
Qed.

(** X22.  The copies in [app.py] of the functions that name
    [EventDetail] see the pydantic schema of that name.  [add_detail_db]
    raises [ValidationError] and [delete_detail_db] raises [ArgumentError]
    before any statement is sent, for every argument and store.
    [create_event_db] commits the Event and then, when the event has a
    detail, raises [ValidationError] with the Event left in the store; it
    returns only for an event without details, and then as [create_event]
    of [api/crud.py] does. *)
Theorem app_copies_stop_at_EventDetail (s : Store) (l : list Stmt) (f : nat → bool)
    (m i : Z) (text : str) (event : EventCreate) :
  let db := new_session s l f in
  let row := Event.mk (next_id (Event.id <$> events s)) m (ec_day event) in
  AppPy.add_detail_db i text db = (Raise ValidationError, db) ∧
  AppPy.delete_detail_db i db = (Raise ArgumentError, db) ∧
  (f (length l) = false → ec_details event ≠ [] →
     ∃ db', AppPy.create_event_db m event db = (Raise ValidationError, db') ∧
            committed db'
            = mkStore (users s) (months s) (events s ++ [row]) (event_details s)) ∧
  (∀ r db', AppPy.create_event_db m event db = (Return r, db') →
     ec_details event = [] ∧ create_event m event db = (Return r, db')).
Proof.
  intros db row. unfold db. split_and!; [done | done | |].
  - intros Hf Hdetails. rewrite create_event_db_run, Hf.
    destruct (ec_details event); [done|]. by eexists.
  - intros r db'. rewrite create_event_db_run.
    destruct (f (length l)) eqn:Hf; [done|].
    destruct (ec_details event) as [|d details] eqn:Hdetails; [|done].
    intros [= <- <-]. split; [done|].
    unfold create_event.
    rewrite (persist_event s l f (ec_day event) m
               (λ db_event,
                  for_each (ec_details event) (λ detail,
                    db_add (NewEventDetail detail (Event.id db_event))) ;;;
                  db_commit ;;;
                  db_refresh (select_event (Event.id db_event)))).
    rewrite Hf, Hdetails. cbn [apply_pending fst Event.id].
    unfold for_each, bind, ret, db_commit, db_refresh, bind, select_event, db_select.
    cbn [new_session pending committed log fault flush logged events Event.id
         fmap list_fmap app].
    pose proof (refresh_fresh_row Event.id (events s) row eq_refl) as Hrow.
    cbn [Event.id row] in Hrow.
    match goal with
    | |- context [head ?rows] => replace (head rows) with (Some row) by (symmetry; exact Hrow)
    end.
    done.
Qed.

Lemma app_copies_stop_at_EventDetail_witness :
  let db := new_session two_months_store [] (λ _, false) in
  ∃ db', AppPy.create_event_db 2 (mkEventCreate (lit "9") [lit "x"]) db
           = (Raise ValidationError, db') ∧
         events (committed db') = events two_months_store ++ [Event.mk 4 2 (lit "9")] ∧
         event_details (committed db') = event_details two_months_store.
Proof.
  intros db.
  destruct (app_copies_stop_at_EventDetail two_months_store [] (λ _, false) 2 0 []
              (mkEventCreate (lit "9") [lit "x"])) as (_ & _ & Hraise & _).
  destruct Hraise as (db' & Hrun & Hstore); [done | done |].
  exists db'. split; [exact Hrun|]. by rewrite Hstore.
Defined.
